(** * ICL/METANIC COMET tape reader: a shallow embedding and its properties

    The development follows [ICL_Comet_tape_reader.py]: the zero-crossing
    iterator [WAVTrack.__iter__], the bit synchroniser [CometTape.analyze],
    the record assembler [CometTape.add_record], the reporter
    [CometTape.report_record], the SIMH-TAP writer [CometTape.write_tapfile]
    and the header interpreter [CometTape.interpret_tape_header].

    Conventions.
    - Python integers are [Z]; list and byte-string indices that are known
      to be non-negative are [nat].
    - A [bytearray]/[bytes] value is a [list Z] of values in [0, 256).
    - The bit buffer [self.bits] only ever receives the literals ['0'] and
      ['1']; it is a [list bool] with ['0'] as [false] and ['1'] as [true].
    - A Python exception is [None] in the option monad.
    - A Python [float] ([self.tbit]) is an IEEE 754 binary64 number: a
      [spec_float] of the Standard Library with a precision of 53 bits and
      [emax = 1024], every operation rounded to nearest, ties to even.
      Mixed operations convert the integer operand first, as Python does;
      comparisons of an integer with a float are exact.
    - The text written to [dbgfile] and the text printed on stdout by
      [add_record] are not part of the state; the arguments of each
      [dbgfile.write] are evaluated, since [pulse_width / self.tbit] can
      raise. *)

From Stdlib Require Import ZArith QArith Qabs Qpower Lqa Lia Bool Ascii String DecimalString Sorted.
From Stdlib Require Import SpecFloat.
From stdpp Require Import base option list.

Local Open Scope Z_scope.

(** ** Python primitives used by the program *)

Module Py.

(** [range(start, stop, step)] for a positive [step], over naturals. *)
Definition range (start stop step : nat) : list nat :=
  (λ k, start + k * step)%nat <$> seq 0 ((stop - start + step - 1) / step)%nat.

(** [s[i:j]] for [0 <= i <= j]. *)
Definition slice {A} (l : list A) (i j : nat) : list A :=
  take (j - i) (drop i l).

(** [l[-1]], an [IndexError] on the empty sequence. *)
Definition last_item {A} (l : list A) : option A := last l.

(** [l[:-1]]. *)
Definition but_last {A} (l : list A) : list A := take (length l - 1) l.

(** [int(s, 2)] on a string of binary digits, most significant first;
    a [ValueError] on the empty string. *)
Definition int2 (s : list bool) : option Z :=
  match s with
  | [] => None
  | _ => Some (fold_left (λ acc b, 2 * acc + Z.b2z b) s 0)
  end.

(** [bytearray(l)]: a [ValueError] unless every item is in [range(256)]. *)
Definition bytearray (l : list Z) : option (list Z) :=
  if forallb (λ x, (0 <=? x) && (x <? 256)) l then Some l else None.

(** [str(n)] in decimal, for [n >= 0]. *)
Definition str_of_nat (n : nat) : string :=
  NilZero.string_of_uint (Nat.to_uint n).

(** [s.rjust(w)]: the padding done by a ["%wd"] conversion. *)
Definition rjust (w : nat) (s : string) : string :=
  String.concat "" (repeat " "%string (w - String.length s)) ++ s.

(** One lower-case hexadecimal digit. *)
Definition hexdigit (d : Z) : ascii :=
  ascii_of_nat (Z.to_nat (if d <? 10 then 48 + d else 87 + d)).

(** [bytes.hex()]. *)
Fixpoint hex (l : list Z) : string :=
  match l with
  | [] => ""
  | b :: l' => String (hexdigit (b / 16)) (String (hexdigit (b mod 16)) (hex l'))
  end.

(** [struct.pack("<L", n)]: a [struct.error] outside 32 bits. *)
Definition pack_L (n : Z) : option (list Z) :=
  if (0 <=? n) && (n <? 2 ^ 32) then
    Some [Z.land n 255; Z.land (Z.shiftr n 8) 255;
          Z.land (Z.shiftr n 16) 255; Z.land (Z.shiftr n 24) 255]
  else None.

(** The result of [bytes.decode('ASCII')]. *)
Inductive decoded :=
| Decoded (s : string)
| UnicodeDecodeError (byte : Z) (position : nat).

Fixpoint decode_from (position : nat) (l : list Z) : decoded :=
  match l with
  | [] => Decoded ""
  | b :: l' =>
      if b <? 128 then
        match decode_from (S position) l' with
        | Decoded s => Decoded (String (ascii_of_nat (Z.to_nat b)) s)
        | err => err
        end
      else UnicodeDecodeError b position
  end.

Definition decode_ascii (l : list Z) : decoded := decode_from 0 l.

(** [str(error)] for a [UnicodeDecodeError] of the ASCII codec. *)
Definition decode_error_str (byte : Z) (position : nat) : string :=
  ("'ascii' codec can't decode byte 0x" ++ hex [byte] ++ " in position "
     ++ str_of_nat position ++ ": ordinal not in range(128)")%string.

(** [c.isspace()] on an ASCII character. *)
Definition isspace (c : ascii) : bool :=
  let n := nat_of_ascii c in
  ((9 <=? n) && (n <=? 13) || (28 <=? n) && (n <=? 32))%nat.

(** [s.rstrip()]. *)
Fixpoint rstrip (s : string) : string :=
  match s with
  | EmptyString => EmptyString
  | String c s' =>
      match rstrip s' with
      | EmptyString => if isspace c then EmptyString else String c EmptyString
      | t => String c t
      end
  end.

Definition TAB : string := String (ascii_of_nat 9) EmptyString.

Definition NL : string := String (ascii_of_nat 10) EmptyString.

(** [text.replace(old, new)] for a one-character [old]. Text is the UTF-8
    form of a Python [str]; an ASCII [old] never occurs inside the bytes of
    another character. *)
Fixpoint replace (old : ascii) (new : string) (text : string) : string :=
  match text with
  | EmptyString => EmptyString
  | String c text' =>
      if Ascii.eqb c old then (new ++ replace old new text')%string
      else String c (replace old new text')
  end.

(** Whether [c] occurs in [s]. *)
Fixpoint occurs (c : ascii) (s : string) : bool :=
  match s with
  | EmptyString => false
  | String a s' => Ascii.eqb a c || occurs c s'
  end.

(** [os.path.basename(p)] on a POSIX path: what follows the last slash. *)
Fixpoint basename (p : string) : string :=
  match p with
  | EmptyString => EmptyString
  | String c p' =>
      if occurs "/" p' then basename p'
      else if Ascii.eqb c "/" then p' else p
  end.

End Py.

(** ** Python floats *)

Module Float.

Definition prec : Z := 53.
Definition emax : Z := 1024.

Definition float : Type := spec_float.

(** The double nearest to the integer [n], ties to even; an infinity when
    that is beyond the largest double. *)
Definition nearest (n : Z) : float := binary_normalize prec emax n 0 false.

(** [float(n)], also done to the integer operand of a mixed operation: an
    [OverflowError] when [n] is too large for a double. *)
Definition of_int (n : Z) : option float :=
  match nearest n with
  | S754_infinity _ => None
  | x => Some x
  end.

Definition add (x y : float) : float := SFadd prec emax x y.
Definition sub (x y : float) : float := SFsub prec emax x y.
Definition mul (x y : float) : float := SFmul prec emax x y.

Definition is_zero (x : float) : bool :=
  match x with S754_zero _ => true | _ => false end.

(** [x / y] on floats: a [ZeroDivisionError] for a zero divisor. *)
Definition truediv (x y : float) : option float :=
  if is_zero y then None else Some (SFdiv prec emax x y).

(** [n * x], [n - x], [n / x] and [x / n] for an integer [n] and a float
    [x]. *)
Definition int_mul (n : Z) (x : float) : option float :=
  y ← of_int n; Some (mul y x).
Definition int_sub (n : Z) (x : float) : option float :=
  y ← of_int n; Some (sub y x).
Definition int_truediv (n : Z) (x : float) : option float :=
  y ← of_int n; truediv y x.
Definition truediv_int (x : float) (n : Z) : option float :=
  y ← of_int n; truediv x y.

(** The comparison of an integer with a float, which Python makes on the
    exact values: [None] for a NaN, with which every comparison is
    false. *)
Definition int_compare (n : Z) (x : float) : option comparison :=
  match x with
  | S754_nan => None
  | S754_infinity s => Some (if s then Gt else Lt)
  | S754_zero _ => Some (n ?= 0)
  | S754_finite s m e =>
      let v := if s then Z.neg m else Z.pos m in
      Some (if 0 <=? e then n ?= v * 2 ^ e else n * 2 ^ (- e) ?= v)
  end.

(** [n < x] and [n > x]. *)
Definition int_lt (n : Z) (x : float) : bool :=
  match int_compare n x with Some Lt => true | _ => false end.
Definition int_gt (n : Z) (x : float) : bool :=
  match int_compare n x with Some Gt => true | _ => false end.

End Float.

(** ** A generator that also prints *)

Module Gen.

(** What a consumer of the generator observes, in order. *)
Inductive out :=
| Yield (s : string)
| Print (s : string).

(** The outputs so far and the result, [None] for an exception that
    leaves the generator. *)
Definition gen (A : Type) : Type := list out * option A.

Definition ret {A} (a : A) : gen A := ([], Some a).
Definition raise {A} : gen A := ([], None).

Definition bind {A B} (m : gen A) (k : A → gen B) : gen B :=
  match m with
  | (o, None) => (o, None)
  | (o, Some a) => let '(o', r) := k a in (o ++ o', r)
  end.

Definition yield (s : string) : gen unit := ([Yield s], Some tt).
Definition print (s : string) : gen unit := ([Print s], Some tt).

End Gen.

Notation "m ;;; k" := (Gen.bind m (λ _, k))
  (at level 100, k at level 200, right associativity, only parsing).

(** ** The tape session *)

Module CometTape.

Definition THRESHOLD : Z := 2500.
Definition AVG : Z := 2.

(** [0.72]: the double nearest to 72/100, 0x1.70a3d70a3d70ap-1. *)
Definition EDGE : Float.float := S754_finite false 0x170a3d70a3d70a (-53).

(** [(300 + 150) / 2]: a division of integers that both have a double,
    by a divisor that is not zero. *)
Definition BPS : Float.float :=
  SFdiv Float.prec Float.emax (Float.nearest (300 + 150)) (Float.nearest 2).

(** The fields of a [CometTape] that [analyze] reads and writes, together
    with the local [nbr_priv] of [analyze]. *)
Record tape := mkTape {
  tbit : Float.float;
  bits : list bool;
  records : list (list Z);
  nbr_priv : Z
}.

(** The [for] loop of [add_record] that turns the bit buffer into octets. *)
Definition pack_octets (bs : list bool) : option (list Z) :=
  octets ← mapM (λ i, Py.int2 (reverse (Py.slice bs i (i + 8))))
                (Py.range 0 (length bs) 8);
  Py.bytearray octets.

(** [if not octets[-1]: octets = octets[:-1]]. *)
Definition strip_trailing_zero (octets : list Z) : option (list Z) :=
  z ← Py.last_item octets;
  Some (if z =? 0 then Py.but_last octets else octets).

(** One shift of the bit-reflected CRC register, polynomial 0x8005
    reflected to 0xA001. *)
Definition crc16_shift (crc : Z) : Z :=
  if Z.testbit crc 0 then Z.lxor (Z.shiftr crc 1) 0xA001 else Z.shiftr crc 1.

Definition crc16_update (crc byte : Z) : Z :=
  Nat.iter 8 crc16_shift (Z.lxor crc byte).

(** Modelled from the spec: [crcfunc] is
    [crcmod.predefined.mkPredefinedCrcFun("crc-16")], a function of the
    crcmod library, which is not among the sources; the spec names it as
    CRC-16/ARC, the bit-reflected CRC-16 with initial value 0 and no
    final xor. *)
Definition crcfunc (data : list Z) : Z := fold_left crc16_update data 0.

(** The dump between the brackets of a summary. *)
Definition hexdump (octets : list Z) : string :=
  if (length octets <=? 8)%nat then Py.hex octets
  else (Py.hex (take 4 octets) ++ "…" ++ Py.hex (drop (length octets - 4) octets))%string.

(** [report_record]: [octets[0]] and [octets[-1]] raise [IndexError] on an
    empty record, the slices never do. *)
Definition report_record (octets : list Z) : option string :=
  let crc := crcfunc (Py.slice octets 1 (length octets - 1)) in
  let text := (Py.rjust 5 (Py.str_of_nat (length octets)) ++ " bytes")%string in
  let text := (text ++ " [")%string in
  let text := (text ++ hexdump octets)%string in
  let text := (text ++ "]")%string in
  first ← octets !! 0%nat;
  let text := if first =? 0xaa then text else (text ++ " Bad_preamble")%string in
  final ← Py.last_item octets;
  let text := if final =? 0xaa then text else (text ++ " Bad_postamble")%string in
  let text := if crc =? 0 then text else (text ++ " Bad_CRC")%string in
  Some text.

(** [add_record]: the argument [_nbr] is not used. *)
Definition add_record (_nbr : Z) (self : tape) : option tape :=
  let nbits := length (bits self) in
  if (nbits <? 48)%nat then
    Some (mkTape (tbit self) [] (records self) (nbr_priv self))
  else
    octets ← pack_octets (bits self);
    octets ← strip_trailing_zero octets;
    _ ← report_record octets;
    Some (mkTape (tbit self) [] (records self ++ [octets]) (nbr_priv self)).

(** The a-priori bit time [self.track.rate / BPS]. *)
Definition seed_tbit (rate : Z) : option Float.float := Float.int_truediv rate BPS.

(** The body of the [for nbr, sign in self.track] loop of [analyze]. Of
    each [dbgfile.write] the quotient [pulse_width / self.tbit] among its
    arguments is evaluated, with the [pulse_width = 0] of the first
    branch. *)
Definition analyze_edge (rate : Z) (self : tape) (edge : Z * Z) : option tape :=
  let '(nbr, sign) := edge in
  let pulse_width := nbr - nbr_priv self in
  limit ← Float.int_mul 4 (tbit self);
  if Float.int_gt pulse_width limit then
    let pulse_width := 0 in
    self ← add_record nbr self;
    if sign =? 1 then
      _ ← Float.int_truediv pulse_width (tbit self);
      seed ← seed_tbit rate;
      Some (mkTape seed [false] (records self) nbr)
    else
      _ ← Float.int_truediv pulse_width (tbit self);
      Some self
  else if Float.int_lt pulse_width (Float.mul EDGE (tbit self))
          && (7 <? length (bits self))%nat then
    _ ← Float.int_truediv pulse_width (tbit self);
    Some self
  else
    _ ← Float.int_truediv pulse_width (tbit self);
    diff ← Float.int_sub pulse_width (tbit self);
    step ← Float.truediv_int diff AVG;
    Some (mkTape (Float.add (tbit self) step)
                 (bits self ++ [if 0 <? sign then false else true])
                 (records self) nbr).

Fixpoint analyze_loop (rate : Z) (self : tape) (track : list (Z * Z)) : option tape :=
  match track with
  | [] => Some self
  | edge :: track' =>
      self ← analyze_edge rate self edge;
      analyze_loop rate self track'
  end.

(** The tape when the loop of [analyze] starts: [records] is the empty
    list of [__init__], [nbr_priv] is 0. *)
Definition initial (rate : Z) : option tape :=
  seed ← seed_tbit rate;
  Some (mkTape seed [] [] 0).

(** [analyze]; after the loop [nbr] is the position of the last edge,
    or 0 when there was none. *)
Definition analyze (rate : Z) (track : list (Z * Z)) : option tape :=
  self ← initial rate;
  self ← analyze_loop rate self track;
  add_record (default 0 (last (fst <$> track))) self.

(** The record loop of [write_tapfile]; [tap] is what has been written. *)
Fixpoint write_records (tap : list Z) (recs : list (list Z)) : option (list Z) :=
  match recs with
  | [] => Some tap
  | rec :: recs' =>
      reclen ← Py.pack_L (Z.of_nat (length rec));
      let tap := tap ++ reclen in
      let tap := tap ++ rec in
      let tap := if Z.land (Z.of_nat (length rec)) 1 =? 0 then tap else tap ++ [0] in
      let tap := tap ++ reclen in
      write_records tap recs'
  end.

(** [write_tapfile]: the bytes of the file it writes. *)
Definition write_tapfile (recs : list (list Z)) : option (list Z) :=
  tap ← write_records [] recs;
  Some (tap ++ [0xff; 0xff; 0xff; 0xff]).

(** The [while] loop of [interpret_tape_header]; every iteration moves
    [index] on by 26 and needs [index <= len(head) - 29], so
    [len(head) - index] iterations are never used up. *)
Fixpoint file_list (fuel : nat) (head : list Z) (index : nat) : Gen.gen unit :=
  match head !! index with
  | None => Gen.raise
  | Some b =>
      if (0x20 <? b) && (b <? 0x6e) && (index + 29 <=? length head)%nat then
        match fuel with
        | O => Gen.ret tt
        | S fuel' =>
            let bork byte position :=
              Gen.print ("Börk " ++ Py.decode_error_str byte position)%string ;;;
              Gen.print (Py.hex (Py.slice head index (index + 26))) ;;;
              Gen.ret tt in
            match Py.decode_ascii (Py.slice head index (index + 10)) with
            | Py.UnicodeDecodeError byte position => bork byte position
            | Py.Decoded filename =>
                match Py.decode_ascii (Py.slice head (index + 10) (index + 13)) with
                | Py.UnicodeDecodeError byte position => bork byte position
                | Py.Decoded extension =>
                    Gen.yield (Py.TAB ++ Py.rstrip filename ++ "."
                                 ++ Py.rstrip extension)%string ;;;
                    file_list fuel' head (index + 26)
                end
            end
        end
      else Gen.ret tt
  end.

(** [interpret_tape_header]: the label is decoded before the first
    [yield], outside any [try]. *)
Definition interpret_tape_header (recs : list (list Z)) : Gen.gen unit :=
  match recs !! 0%nat with
  | None => Gen.raise
  | Some head =>
      match head !! 0%nat with
      | None => Gen.raise
      | Some h0 =>
      if negb (h0 =? 0xaa) then Gen.ret tt else
      match head !! 1%nat with
      | None => Gen.raise
      | Some h1 =>
      if negb (h1 =? 0) then Gen.ret tt else
      match head !! 2%nat with
      | None => Gen.raise
      | Some h2 =>
      if negb (h2 =? 0) then Gen.ret tt else
      let index := 4%nat in
      match Py.decode_ascii (Py.slice head index (index + 50)) with
      | Py.UnicodeDecodeError _ _ => Gen.raise
      | Py.Decoded label =>
          Gen.yield "Tape label:" ;;;
          Gen.yield (Py.TAB ++ Py.rstrip label)%string ;;;
          let index := (index + 50)%nat in
          let index := (index + 13)%nat in
          Gen.yield "File list:" ;;;
          file_list (length head - index) head index
      end end end end
  end.

(** The pairs that [ds2089] goes through, in order. *)
Definition ds2089_pairs : list (ascii * string) :=
  [("["%char, "Æ"%string); ("\"%char, "Ø"%string); ("]"%char, "Å"%string);
   ("{"%char, "æ"%string); ("|"%char, "ø"%string); ("}"%char, "å"%string)].

(** [ds2089]: one [replace] after the other. *)
Definition ds2089 (text : string) : string :=
  fold_left (λ text pair, Py.replace pair.1 pair.2 text) ds2089_pairs text.

(** One key of the metadata file with its value: three [meta.write]
    calls. *)
Definition meta_field (key value : string) : list string :=
  [(key ++ ":" ++ Py.NL)%string; (Py.TAB ++ value ++ Py.NL)%string; Py.NL].

(** The writes of [write_metafile] before the loop over the header. *)
Definition meta_preamble (filename : string) : list string :=
  meta_field "BitStore.Metadata_version" "1.0"
    ++ meta_field "BitStore.Filename" (Py.basename filename ++ ".TAP")
    ++ meta_field "BitStore.Format" "SIMH-TAP"
    ++ meta_field "BitStore.Access" "public"
    ++ meta_field "BitStore.Last_edit" "YYYYMMDD NN"
    ++ meta_field "DDHF.Keyword" "COMPANY/ICL/COMET/TAPE"
    ++ meta_field "Media.Summary" "XXX"
    ++ meta_field "Media.Type" "Mini-Cassette"
    ++ [("Media.Description:" ++ Py.NL)%string].

(** The loop over [self.interpret_tape_header()]: one write for each line
    yielded; what the generator prints goes to stdout. *)
Definition header_writes (outs : list Gen.out) : list string :=
  omap (λ o, match o with
             | Gen.Yield s => Some (Py.TAB ++ ds2089 s ++ Py.NL)%string
             | Gen.Print _ => None
             end) outs.

Definition header_prints (outs : list Gen.out) : list string :=
  omap (λ o, match o with Gen.Print s => Some s | Gen.Yield _ => None end) outs.

(** The loop over [self.records]: the writes done, and whether every
    [report_record] returned. *)
Fixpoint record_writes (recs : list (list Z)) : list string * bool :=
  match recs with
  | [] => ([], true)
  | rec :: recs' =>
      match report_record rec with
      | None => ([], false)
      | Some text =>
          let '(writes, ok) := record_writes recs' in
          ((Py.TAB ++ Py.TAB ++ text ++ Py.NL)%string :: writes, ok)
      end
  end.

(** [write_metafile]: the strings written to the file in order, the lines
    printed on stdout, and whether it returned ([false] for an exception,
    which leaves the file with what was written before). *)
Definition write_metafile (filename : string) (recs : list (list Z))
  : list string * list string * bool :=
  let '(outs, result) := interpret_tape_header recs in
  let meta := meta_preamble filename ++ header_writes outs in
  match result with
  | None => (meta, header_prints outs, false)
  | Some _ =>
      let meta := meta ++ [(Py.TAB ++ "Tape Records:" ++ Py.NL)%string] in
      let '(writes, ok) := record_writes recs in
      if ok then
        (meta ++ writes ++ [Py.NL; ("*END*" ++ Py.NL)%string], header_prints outs, true)
      else (meta ++ writes, header_prints outs, false)
  end.

End CometTape.

(** ** The zero-crossing iterator *)

Module WAVTrack.

Record track := mkTrack {
  track_no : nat;
  sound : list Z;
  offset : nat;
  span : nat;
  rate : Z
}.

(** [self.sound[nbr] + self.sound[nbr+1] * 256], folded to a signed
    16-bit value; an [IndexError] past the end of [sound]. *)
Definition sample (snd : list Z) (nbr : nat) : option Z :=
  lo ← snd !! nbr;
  hi ← snd !! (nbr + 1)%nat;
  let samp := lo + hi * 256 in
  Some (if 32767 <? samp then samp - 65536 else samp).

(** The two [if]s that set [sign] from the sample. *)
Definition next_sign (sign samp : Z) : Z :=
  if CometTape.THRESHOLD <? samp then 1
  else if samp <? - CometTape.THRESHOLD then -1
  else sign.

(** The loop of [__iter__] over the positions of [range]; the result is
    the list of pairs yielded and whether the loop ran to its end
    ([false] when [sample] raised). *)
Fixpoint iter_loop (snd : list Z) (sign prev_sign : Z) (positions : list nat)
  : list (Z * Z) * bool :=
  match positions with
  | [] => ([], true)
  | nbr :: positions' =>
      match sample snd nbr with
      | None => ([], false)
      | Some samp =>
          let sign := next_sign sign samp in
          let '(evs, fin) := iter_loop snd sign sign positions' in
          (if sign =? prev_sign then evs else (Z.of_nat nbr, sign) :: evs, fin)
      end
  end.

(** [__iter__]; [range] raises [ValueError] for a zero step. *)
Definition iter (t : track) : list (Z * Z) * bool :=
  if (span t =? 0)%nat then ([], false)
  else iter_loop (sound t) 0 0 (Py.range (offset t) (length (sound t)) (span t)).

End WAVTrack.

(** ** The tracks of a WAV file *)

Module WAVFile.

(** What [wave.open] hands over: the parameters that the program reads and
    the bytes of [readframes]. *)
Record wavfile := mkWav {
  nchannels : nat;
  sampwidth : Z;
  framerate : Z;
  sound : list Z
}.

(** [__init__]: the two [assert]s. *)
Definition init (w : wavfile) : option wavfile :=
  if (sampwidth w =? 2) && (framerate w =? 44100) then Some w else None.

(** [trackcount]. *)
Definition trackcount (w : wavfile) : nat := nchannels w.

(** [__iter__]: one [WAVTrack] for each channel. *)
Definition iter (w : wavfile) : list WAVTrack.track :=
  (λ chan, WAVTrack.mkTrack chan (sound w) (chan * 2) (nchannels w * 2) (framerate w))
    <$> seq 0 (nchannels w).

End WAVFile.

(** ** One tape for each track, and the program around them *)

Module Main.

(** What [CometTape(filename, track)] leaves behind: the tape after
    [analyze], the bytes of the [.TAP] file and the writes to the
    [.TAP.meta] file when these were opened, and whether the constructor
    returned. *)
Record session := mkSession {
  tape : option CometTape.tape;
  tapfile : option (list Z);
  metafile : option (list string);
  returned : bool
}.

(** [CometTape.__init__]: [analyze] over the iterator of the track, then
    the two files when there are records. An exception of the iterator
    leaves [analyze] and the constructor; a [write_tapfile] that raises
    leaves a partial file, which is not kept here. *)
Definition CometTape_init (filename : string) (track : WAVTrack.track) : session :=
  let '(edges, finished) := WAVTrack.iter track in
  if negb finished then mkSession None None None false
  else
    match CometTape.analyze (WAVTrack.rate track) edges with
    | None => mkSession None None None false
    | Some self =>
        match CometTape.records self with
        | [] => mkSession (Some self) None None true
        | recs =>
            match CometTape.write_tapfile recs with
            | None => mkSession (Some self) None None false
            | Some tap =>
                let '(meta, _, ok) := CometTape.write_metafile filename recs in
                mkSession (Some self) (Some tap) (Some meta) ok
            end
        end
    end.

(** Whether [tape.records] is true after a constructor that returned. *)
Definition has_records (s : session) : bool :=
  match tape s with
  | Some self => negb (bool_decide (CometTape.records self = []))
  | None => false
  end.

(** The loop of [do_wavfile] over the tracks: the sessions in order, up to
    the first whose constructor raised or whose tape has records. *)
Fixpoint do_tracks (filename : string) (tracks : list WAVTrack.track) : list session :=
  match tracks with
  | [] => []
  | track :: tracks' =>
      let s := CometTape_init filename track in
      if negb (returned s) || has_records s then [s]
      else s :: do_tracks filename tracks'
  end.

(** [do_wavfile]: [None] when [WAVFile] refuses the file. *)
Definition do_wavfile (filename : string) (w : WAVFile.wavfile) : option (list session) :=
  w ← WAVFile.init w;
  Some (do_tracks filename (WAVFile.iter w)).

End Main.

(** ** Definitions used to state the properties *)

Import CometTape.

(** The value of a bit list read least-significant bit first. *)
Fixpoint lsb_value (l : list bool) : Z :=
  match l with
  | [] => 0
  | b :: l' => Z.b2z b + 2 * lsb_value l'
  end.

(** The octet that bits [8k .. 8k+7] of the buffer make up. *)
Definition octet_at (bs : list bool) (k : nat) : Z :=
  lsb_value (Py.slice bs (k * 8) (k * 8 + 8)).

(** The number of octets that [nbits] bits are packed into. *)
Definition packed_length (nbits : nat) : nat := ((nbits + 7) / 8)%nat.

(** A record that is long enough and that [report_record] accepts. *)
Definition reportable (rec : list Z) : Prop :=
  (5 ≤ length rec)%nat ∧ is_Some (report_record rec).

(** The doubles 2.0, 4.0 and 196.0; the last is the seed of the bit time
    at 44100 samples per second. *)
Definition two : Float.float := Float.nearest 2.
Definition four : Float.float := Float.nearest 4.
Definition seed_44100 : Float.float := Float.nearest 196.

(** [pulse_width] as the loop body of [analyze] computes it. *)
Definition pulse_width (self : tape) (nbr : Z) : Z := nbr - nbr_priv self.

(** The three branches of the loop body of [analyze]. *)
Inductive edge_case := Boundary | Glitch | Data.

(** The branch that the conditions of the loop body select, as the program
    evaluates them: the products [4 * self.tbit] and [EDGE * self.tbit]
    are doubles. *)
Definition classify (self : tape) (nbr : Z) : edge_case :=
  if Float.int_gt (pulse_width self nbr) (Float.mul four (tbit self)) then Boundary
  else if Float.int_lt (pulse_width self nbr) (Float.mul EDGE (tbit self))
          && (7 <? length (bits self))%nat then Glitch
  else Data.

(** The bit that the data case appends for an edge of sign [sign]. *)
Definition bit_of_sign (sign : Z) : bool := if 0 <? sign then false else true.

(** The record that a buffer of bits is assembled into: one octet for each
    group of 8 bits, the first bit of a group lowest, without a final zero
    octet. *)
Definition assembled (bs : list bool) : list Z :=
  let octets := octet_at bs <$> seq 0 (packed_length (length bs)) in
  match last octets with
  | Some 0 => Py.but_last octets
  | _ => octets
  end.

(** What finalisation adds to the record list: nothing for fewer than 48
    bits, else the one record of the buffer. *)
Definition finalized (bs : list bool) : list (list Z) :=
  if (length bs <? 48)%nat then [] else [assembled bs].

(** Edge positions in strictly increasing order, none below [lo], as
    [WAVTrack.__iter__] yields them. *)
Fixpoint ascending_from (lo : Z) (track : list (Z * Z)) : Prop :=
  match track with
  | [] => True
  | (nbr, _) :: track' => lo ≤ nbr ∧ ascending_from (nbr + 1) track'
  end.

(** An edge stream that, run from [self], meets no boundary case and no
    exception, and whose edges accepted as data all have pulse width [T];
    the edges in the glitch case are passed over. *)
Fixpoint steady (rate T : Z) (self : tape) (track : list (Z * Z)) : bool :=
  match track with
  | [] => true
  | (nbr, sign) :: track' =>
      match classify self nbr, analyze_edge rate self (nbr, sign) with
      | Boundary, _ | _, None => false
      | Glitch, Some self' => steady rate T self' track'
      | Data, Some self' => (pulse_width self nbr =? T) && steady rate T self' track'
      end
  end.

(** The signs of the edges of such a stream that are accepted as data, in
    order. *)
Fixpoint accepted (rate : Z) (self : tape) (track : list (Z * Z)) : list Z :=
  match track with
  | [] => []
  | (nbr, sign) :: track' =>
      match classify self nbr, analyze_edge rate self (nbr, sign) with
      | Boundary, _ | _, None => []
      | Glitch, Some self' => accepted rate self' track'
      | Data, Some self' => sign :: accepted rate self' track'
      end
  end.

(** Eight edges one seed bit time apart, and the tape after them. *)
Definition glitch_demo_track : list (Z * Z) :=
  [(196, 1); (392, -1); (588, 1); (784, -1); (980, 1); (1176, -1); (1372, 1); (1568, -1)].


(** The sign after one sample, in the words of the specification: +1 above
    the threshold, -1 below its negation, unchanged inside the band. *)
Definition hysteresis (threshold sign amplitude : Z) : Z :=
  if amplitude >? threshold then 1
  else if amplitude <? - threshold then -1
  else sign.

(** The event stream of the specification: one event where the sign after
    hysteresis differs from the sign of the event emitted before. *)
Fixpoint detect (threshold sign emitted : Z) (samples : list (nat * Z)) : list (Z * Z) :=
  match samples with
  | [] => []
  | (position, amplitude) :: samples' =>
      let sign := hysteresis threshold sign amplitude in
      if sign =? emitted then detect threshold sign emitted samples'
      else (Z.of_nat position, sign) :: detect threshold sign sign samples'
  end.

(** The positions and samples that [__iter__] reads, up to the first
    position whose two bytes are not both there. *)
Fixpoint samples_read (snd : list Z) (positions : list nat) : list (nat * Z) :=
  match positions with
  | [] => []
  | nbr :: positions' =>
      match WAVTrack.sample snd nbr with
      | None => []
      | Some samp => (nbr, samp) :: samples_read snd positions'
      end
  end.

(** Strictly increasing naturals, none below [lo]. *)
Fixpoint increasing_from (lo : nat) (l : list nat) : Prop :=
  match l with
  | [] => True
  | n :: l' => (lo ≤ n)%nat ∧ increasing_from (S n) l'
  end.

(** A 32-bit length as four bytes, least significant first. *)
Definition le32 (n : Z) : list Z :=
  [n mod 256; (n / 256) mod 256; (n / 65536) mod 256; (n / 16777216) mod 256].

(** One record in the tape image: length, data, pad to even, length. *)
Definition tap_block (rec : list Z) : list Z :=
  le32 (Z.of_nat (length rec)) ++ rec
    ++ (if Z.odd (Z.of_nat (length rec)) then [0] else [])
    ++ le32 (Z.of_nat (length rec)).

(** Whether [needle] occurs in [text]. *)
Fixpoint has_infix (needle text : string) : bool :=
  String.prefix needle text ||
  match text with
  | EmptyString => false
  | String _ text' => has_infix needle text'
  end.

(** Whether the character [c] is absent from [s]. *)
Fixpoint lacks (c : ascii) (s : string) : bool :=
  match s with
  | EmptyString => true
  | String a s' => negb (Ascii.eqb c a) && lacks c s'
  end.

(** The part of a summary before the flags. *)
Definition summary_head (octets : list Z) : string :=
  (Py.rjust 5 (Py.str_of_nat (length octets)) ++ " bytes" ++ " ["
     ++ hexdump octets ++ "]")%string.

(** The flags of a summary, in the order preamble, postamble, CRC. *)
Definition flags_text (preamble postamble crc : bool) : string :=
  ((if preamble then " Bad_preamble" else "")
     ++ (if postamble then " Bad_postamble" else "")
     ++ (if crc then " Bad_CRC" else ""))%string.

(** The text of ASCII bytes. *)
Definition ascii_text (l : list Z) : string :=
  string_of_list_ascii ((λ b, ascii_of_nat (Z.to_nat b)) <$> l).

(** A slot that the file list goes on to: its first byte is strictly
    between 0x20 and 0x6E and [need] bytes remain from its start. *)
Definition slot_open (need : nat) (head : list Z) (index : nat) : Prop :=
  ∃ b, head !! index = Some b ∧ 0x20 < b < 0x6e ∧ (index + need ≤ length head)%nat.

(** The name and extension bytes of a slot are ASCII. *)
Definition slot_ascii (head : list Z) (index : nat) : Prop :=
  Forall (λ b, b < 128) (Py.slice head index (index + 13)).

(** The line listed for the slot at [index]. *)
Definition slot_entry (head : list Z) (index : nat) : string :=
  (Py.TAB ++ Py.rstrip (ascii_text (Py.slice head index (index + 10))) ++ "."
     ++ Py.rstrip (ascii_text (Py.slice head (index + 10) (index + 13))))%string.

(** The starts of [n] consecutive 26-byte slots from [index]. *)
Definition slot_starts (index n : nat) : list nat :=
  (λ k, index + 26 * k)%nat <$> seq 0 n.

(** A 93-byte first record: header bytes, the label HELLO, 13 bytes, and
    one complete 26-byte slot for ABC.TXT that ends the record. *)
Definition header_with_one_slot : list Z :=
  [0xaa; 0; 0; 1] ++ [72; 69; 76; 76; 79] ++ replicate 45 32 ++ replicate 13 0
    ++ [65; 66; 67; 32; 32; 32; 32; 32; 32; 32; 84; 88; 84] ++ replicate 13 0.

(** A 148-byte first record: the same with the slot followed by a slot
    whose second byte is not ASCII, a third slot and three more bytes. *)
Definition header_with_bad_slot : list Z :=
  header_with_one_slot
    ++ [68; 200; 70; 32; 32; 32; 32; 32; 32; 32; 66; 73; 78] ++ replicate 13 0
    ++ [71; 72; 73; 32; 32; 32; 32; 32; 32; 32; 66; 73; 78] ++ replicate 13 0
    ++ [1; 2; 0xaa].

(** Edges one seed bit time apart with alternating signs, [n] of them after
    position [start], the first with sign [sign]. *)
Definition square_wave (start : Z) (sign : Z) (n : nat) : list (Z * Z) :=
  (λ k, (start + 196 * Z.of_nat (S k), if Nat.even k then sign else - sign)) <$> seq 0 n.

(** Two runs of 56 bits with a gap of more than four bit times between. *)
Definition two_record_track : list (Z * Z) :=
  square_wave 0 1 56 ++ [(196 * 56 + 2000, 1)] ++ square_wave (196 * 56 + 2000) (-1) 55.

(** The new bit time of the data case for a pulse width [w] that has a
    double: [self.tbit + (pulse_width - self.tbit) / AVG]. *)
Definition update (t : Float.float) (w : Z) : Float.float :=
  Float.add t (SFdiv Float.prec Float.emax (Float.sub (Float.nearest w) t) two).

(** Edge positions that have a double of their own. *)
Definition positions_below (bound : Z) (track : list (Z * Z)) : Prop :=
  Forall (λ edge, edge.1 < bound) track.

(** Edges [T] samples apart with alternating signs, the first rising, [n]
    of them from position [T] on. *)
Definition pulse_train (T : Z) (n : nat) : list (Z * Z) :=
  (λ k, (T * Z.of_nat (S k), if Nat.even k then 1 else -1)) <$> seq 0 n.

(** ** Further definitions used to state properties *)

(** The eight bits of an octet, lowest first. *)
Definition octet_bits (v : Z) : list bool :=
  (λ j, Z.testbit v (Z.of_nat j)) <$> seq 0 8.

(** The bits of a list of octets, each octet lowest bit first. *)
Definition unpack_octets (octets : list Z) : list bool :=
  octets ≫= octet_bits.

(** Events whose signs are 1 or -1 and differ from the sign before,
    [prev] before the first. *)
Fixpoint alternating (prev : Z) (events : list (Z * Z)) : Prop :=
  match events with
  | [] => True
  | (_, sign) :: events' =>
      (sign = 1 ∨ sign = -1) ∧ sign ≠ prev ∧ alternating sign events'
  end.

(** The tape that [analyze] returns for [two_record_track]. *)
Definition two_record_tape : tape :=
  mkTape seed_44100 [] [replicate 7 0xaa; replicate 7 0xaa] 23756.

(** Two frames of a stereo file. *)
Definition stereo_demo : WAVFile.wavfile :=
  WAVFile.mkWav 2 2 44100 [0; 0; 0; 16; 0; 1; 0; 240].

(** A recognised header of six octets. *)
Definition short_header : list Z := [0xaa; 0; 0; 1; 65; 66].

(** What [ds2089] makes of one character. *)
Definition ds2089_char (c : ascii) : string :=
  if Ascii.eqb c "[" then "Æ"
  else if Ascii.eqb c "\" then "Ø"
  else if Ascii.eqb c "]" then "Å"
  else if Ascii.eqb c "{" then "æ"
  else if Ascii.eqb c "|" then "ø"
  else if Ascii.eqb c "}" then "å"
  else String c EmptyString.

(** The six characters that [ds2089] replaces. *)
Definition ds2089_replaced (c : ascii) : bool :=
  Py.occurs c "[\]{|}".

(** A line written to the metadata file that starts with a tab. *)
Definition tab_line (s : string) : Prop := ∃ t, s = (Py.TAB ++ t)%string.

(** A tape whose buffer holds at most [n] bits and whose records have at
    most [(n + 7) / 8] octets each. *)
Definition within_edges (n : nat) (self : tape) : Prop :=
  (length (bits self) ≤ n)%nat ∧
  Forall (λ rec, 8 * length rec ≤ n + 7)%nat (records self).

(** Two stereo sounds of two frames with the same first channel. *)
Definition stereo_sound_a : list Z := [0; 16; 9; 9; 0; 240; 9; 9].
Definition stereo_sound_b : list Z := [0; 16; 1; 2; 0; 240; 3; 4].

(** A sound of one sample and a stray byte. *)
Definition three_bytes : list Z := [0; 240; 7].

(** A mono sound of 56 samples that alternate between 4096 and -4096, and
    its one track. *)
Definition square_sound : list Z := concat (replicate 28 [0; 16; 0; 240]).
Definition square_track : WAVTrack.track := WAVTrack.mkTrack 0 square_sound 0 2 44100.

(** ** The numbers that doubles stand for, and rounding *)

Definition inexact (mrs : shr_record) : bool := shr_r mrs || shr_s mrs.

(** What [binary_round_aux] builds from the final mantissa and exponent. *)
Definition pack (s : bool) (m e : Z) : spec_float :=
  match m with
  | Z0 => S754_zero s
  | Zpos p => if e <=? 971 then S754_finite s p e else S754_infinity s
  | Zneg _ => S754_nan
  end.

Definition pow2 (e : Z) : Q := (2 ^ e)%Q.
Definition dy (m e : Z) : Q := (inject_Z m * pow2 e)%Q.

(** The number that a float stands for; 0 for infinities and NaN. *)
Definition F2Q (x : spec_float) : Q :=
  match x with
  | S754_finite s m e => dy (cond_Zopp s (Z.pos m)) e
  | _ => 0%Q
  end.

Definition is_finite (x : spec_float) : bool :=
  match x with S754_finite _ _ _ | S754_zero _ => true | _ => false end.

(** The non-negative numbers with a significand of at most 53 bits at an
    exponent of at least -1074. *)
Definition grid (g : Q) : Prop :=
  ∃ m e, 0 ≤ m < 2 ^ 53 ∧ -1074 ≤ e ∧ (g == dy m e)%Q.

(** [x] lies in the interval from [m * 2^e] to [(m+1) * 2^e], at the place
    that [l] names. *)
Definition located (x : Q) (m e : Z) (l : location) : Prop :=
  (dy m e <= x)%Q ∧ (x < dy (m + 1) e)%Q ∧ (l = loc_Exact ↔ (x == dy m e)%Q).

(** The result of rounding the magnitude [x] with sign [s]: the float
    [pack s m e] for a canonical [m] and [e], with no number of the grid
    between [x] and [m * 2^e]. *)
Definition rounds (s : bool) (x : Q) (r : spec_float) : Prop :=
  ∃ m e, r = pack s m e ∧ 0 ≤ m < 2 ^ 53 ∧ -1074 ≤ e ∧ (2 ^ 52 ≤ m ∨ e = -1074) ∧
         (∀ g, grid g → (g <= x)%Q → (g <= dy m e)%Q) ∧
         (∀ g, grid g → (x <= g)%Q → (dy m e <= g)%Q).

Definition valid (x : spec_float) : Prop := valid_binary Float.prec Float.emax x = true.

(** The numbers that finite doubles stand for. *)
Definition double (g : Q) : Prop := grid (Qabs g) ∧ (Qabs g < pow2 1024)%Q.

(** [g <= r] and [r <= g] for a float [r] that may be infinite. *)
Definition at_least (g : Q) (r : spec_float) : Prop :=
  r = S754_infinity false ∨ (is_finite r = true ∧ (g <= F2Q r)%Q).
Definition at_most (r : spec_float) (g : Q) : Prop :=
  r = S754_infinity true ∨ (is_finite r = true ∧ (F2Q r <= g)%Q).

(** [r] is a rounding of the real number [x]: a double or an infinity,
    with no double between [x] and [r]. *)
Definition faithful (x : Q) (r : spec_float) : Prop :=
  valid r ∧
  (∀ g, double g → (g <= x)%Q → at_least g r) ∧
  (∀ g, double g → (x <= g)%Q → at_most r g).

(** ** The bit times that a run reaches *)

(** A bit time that is a double between 2^-9 and 2^54. *)
Definition sane (t : Float.float) : Prop :=
  valid t ∧ is_finite t = true ∧ (pow2 (-9) <= F2Q t)%Q ∧ (F2Q t <= pow2 54)%Q.

(** What holds of the tape before the loop body of [analyze] runs on an
    edge at [lo] or later: the bit time is sane, [nbr_priv] is a position
    seen before, and the bit time is at least 2^-8 should the edge be at
    [nbr_priv] itself. *)
Definition in_step (lo : Z) (self : CometTape.tape) : Prop :=
  sane (CometTape.tbit self) ∧ 0 ≤ CometTape.nbr_priv self ≤ lo ∧
  (CometTape.nbr_priv self = lo → (pow2 (-8) <= F2Q (CometTape.tbit self))%Q).

(** ** Concrete runs of the embedding *)

Section Examples.
Import CometTape.

Example rstrip_whitespace :
  Py.rstrip "A B  " = "A B"%string ∧ Py.rstrip "   " = ""%string.
Proof. split; reflexivity. Qed.

Example decode_non_ascii :
  Py.decode_ascii [65; 66] = Py.Decoded "AB" ∧
  Py.decode_ascii [65; 200; 66] = Py.UnicodeDecodeError 200 1.
Proof. split; reflexivity. Qed.

Example percent_5d :
  Py.rjust 5 (Py.str_of_nat 42) = "   42"%string ∧
  Py.rjust 2 (Py.str_of_nat 123) = "123"%string.
Proof. split; reflexivity. Qed.

Example range_with_step :
  Py.range 0 17 8 = [0; 8; 16]%nat ∧ Py.range 2 12 4 = [2; 6; 10]%nat ∧
  Py.range 0 16 8 = [0; 8]%nat.
Proof. repeat split; reflexivity. Qed.

Example crc_check_value :
  crcfunc [49; 50; 51; 52; 53; 54; 55; 56; 57] = 0xBB3D.
Proof. reflexivity. Qed.

Example report_short :
  report_record [0xaa; 1; 2; 3; 4; 0xaa] = Some "    6 bytes [aa01020304aa] Bad_CRC"%string.
Proof. reflexivity. Qed.

Example report_long :
  report_record [0; 1; 2; 3; 4; 5; 6; 7; 8; 9] =
    Some "   10 bytes [00010203…06070809] Bad_preamble Bad_postamble Bad_CRC"%string.
Proof. reflexivity. Qed.

Example pack_lsb_first :
  pack_octets [true; false; false; false; false; false; false; false;
               false; true] = Some [1; 2].
Proof. reflexivity. Qed.

Example tap_one_record :
  write_tapfile [[1; 2; 3]] = Some [3; 0; 0; 0; 1; 2; 3; 0; 3; 0; 0; 0; 255; 255; 255; 255].
Proof. reflexivity. Qed.

Example two_records_end_to_end :
  records <$> analyze 44100 two_record_track =
    Some [replicate 7 0xaa; replicate 7 0xaa] ∧
  write_tapfile [replicate 7 0xaa; replicate 7 0xaa] =
    Some ([7; 0; 0; 0] ++ replicate 7 0xaa ++ [0] ++ [7; 0; 0; 0]
          ++ [7; 0; 0; 0] ++ replicate 7 0xaa ++ [0] ++ [7; 0; 0; 0]
          ++ [0xff; 0xff; 0xff; 0xff]).
Proof. split; vm_compute; reflexivity. Qed.

Example detector_on_two_crossings :
  WAVTrack.iter (WAVTrack.mkTrack 0 [0; 0; 0; 16; 0; 1; 0; 240; 0; 0; 0; 16] 0 2 44100) =
    ([(2, 1); (6, -1); (10, 1)], true).
Proof. reflexivity. Qed.

(** The constants of the program as doubles: [BPS] is 225, [EDGE] is the
    double nearest to 72/100, and the seed of the bit time at 44100
    samples per second is 196. *)
Example constants_as_doubles :
  BPS = S754_finite false (225 * 2 ^ 45) (-45) ∧
  EDGE = SFdiv Float.prec Float.emax (Float.nearest 72) (Float.nearest 100) ∧
  seed_tbit 44100 = Some seed_44100 ∧
  seed_44100 = S754_finite false (196 * 2 ^ 45) (-45).
Proof. repeat split; reflexivity. Qed.

(** Rounding at work. After 60 edges 100 samples apart the bit time is the
    double 100 itself, not a number above it; after 61 edges 200 samples
    apart it is 200 itself, so that an edge 800 samples later is not in the
    boundary case: 800 is not above 4 times 200. *)
Example bit_time_reaches_the_width :
  (tbit <$> (initial 44100 ≫= λ self, analyze_loop 44100 self (pulse_train 100 60)))
    = Some (Float.nearest 100) ∧
  (tbit <$> (initial 44100 ≫= λ self, analyze_loop 44100 self (pulse_train 200 61)))
    = Some (Float.nearest 200) ∧
  (classify (mkTape (Float.nearest 200) [] [] 12200) 13000) = Data.
Proof. repeat split; vm_compute; reflexivity. Qed.

(** The glitch test is on the rounded product. After 52 edges 125 samples
    apart the bit time is one unit of 2^-46 above 125; 72/100 of it is
    above 90, but the double [EDGE * self.tbit] is 90: an edge 90 samples
    later is not below it, and is taken as data although the buffer holds
    52 bits. *)
Example glitch_test_is_on_the_rounded_product :
  ∃ self,
    (initial 44100 ≫= λ self, analyze_loop 44100 self (pulse_train 125 52)) = Some self ∧
    length (bits self) = 52%nat ∧ nbr_priv self = 6500 ∧
    (F2Q (tbit self) == 125 + pow2 (-46))%Q ∧
    (inject_Z 90 < (72 # 100) * F2Q (tbit self))%Q ∧
    Float.mul EDGE (tbit self) = Float.nearest 90 ∧
    Float.int_lt 90 (Float.mul EDGE (tbit self)) = false ∧
    classify self 6590 = Data.
Proof.
  eexists. split; [vm_compute; reflexivity|]. repeat split; vm_compute; reflexivity.
Qed.

(** A bit time of zero: the quotient of the debug line raises. *)
Example zero_rate_raises :
  seed_tbit 0 = Some (S754_zero false) ∧ analyze 0 [(5, 1)] = None ∧
  analyze 0 [] = Some (mkTape (S754_zero false) [] [] 0).
Proof. repeat split; vm_compute; reflexivity. Qed.

End Examples.

(** ** Rounding to binary64 *)

Section Rounding.

Lemma fexp_eq e : SpecFloat.fexp Float.prec Float.emax e = Z.max (e - 53) (-1074).
Proof. reflexivity. Qed.

Lemma digits2_pos_bounds p :
  2 ^ (Z.pos (digits2_pos p) - 1) ≤ Z.pos p < 2 ^ Z.pos (digits2_pos p).
Proof.
  induction p as [p IH|p IH|]; cbn [digits2_pos].
  - rewrite Pos2Z.inj_succ. replace (Z.succ (Z.pos (digits2_pos p)) - 1) with (Z.succ (Z.pos (digits2_pos p) - 1)) by lia.
    rewrite !Z.pow_succ_r by lia. lia.
  - rewrite Pos2Z.inj_succ. replace (Z.succ (Z.pos (digits2_pos p)) - 1) with (Z.succ (Z.pos (digits2_pos p) - 1)) by lia.
    rewrite !Z.pow_succ_r by lia. lia.
  - simpl. lia.
Qed.

Lemma Zdigits2_bounds m :
  0 < m → 2 ^ (Zdigits2 m - 1) ≤ m < 2 ^ Zdigits2 m.
Proof. destruct m as [|p|p]; [lia| |lia]. intros _. apply digits2_pos_bounds. Qed.

Lemma Zdigits2_nonneg m : 0 ≤ Zdigits2 m.
Proof. destruct m; simpl; lia. Qed.

Lemma Zdigits2_pos m : 0 < m → 0 < Zdigits2 m.
Proof. destruct m; simpl; lia. Qed.

Lemma Zdigits2_unique m d : 2 ^ (d - 1) ≤ m < 2 ^ d → 0 < m → Zdigits2 m = d.
Proof.
  intros [H1 H2] Hm. pose proof (Zdigits2_bounds m Hm) as [H3 H4].
  pose proof (Zdigits2_pos m Hm).
  assert (0 < d).
  { destruct (Z.lt_ge_cases 0 d); [done|]. 
    assert (2 ^ d ≤ 2 ^ 0) by (apply Z.pow_le_mono_r; lia). simpl in *. lia. }
  assert (d - 1 < Zdigits2 m).
  { apply (Z.pow_lt_mono_r_iff 2); lia. }
  assert (Zdigits2 m - 1 < d).
  { apply (Z.pow_lt_mono_r_iff 2); lia. }
  lia.
Qed.

Lemma iter_pos_nat {A} (f : A → A) p x : SpecFloat.iter_pos f p x = Nat.iter (Pos.to_nat p) f x.
Proof.
  revert x. induction p as [p IH|p IH|]; intros x; cbn [SpecFloat.iter_pos].
  - rewrite !IH. rewrite Pos2Nat.inj_xI. rewrite <- Nat.iter_succ_r.
    rewrite <- Nat.iter_add. f_equal. lia.
  - rewrite !IH. rewrite Pos2Nat.inj_xO. rewrite <- Nat.iter_add. f_equal. lia.
  - reflexivity.
Qed.

Lemma shr_1_spec mrs :
  0 ≤ shr_m mrs →
  shr_m (shr_1 mrs) = shr_m mrs / 2 ∧
  inexact (shr_1 mrs) = inexact mrs || Z.odd (shr_m mrs).
Proof.
  destruct mrs as [m r s]. cbn [shr_m]. intros Hm. unfold inexact.
  destruct m as [|[p|p|]|p]; cbn [shr_1 shr_m shr_r shr_s]; try lia.
  - split; [reflexivity|]. simpl. by rewrite orb_false_r.
  - split; [rewrite Pos2Z.inj_xI; apply Z.div_unique with 1; lia|].
    simpl. by rewrite orb_true_r.
  - split; [rewrite Pos2Z.inj_xO; apply Z.div_unique with 0; lia|].
    simpl. by rewrite orb_false_r.
  - split; [reflexivity|]. simpl. by rewrite orb_true_r.
Qed.

Lemma shr_iter_spec n : ∀ mrs,
  0 ≤ shr_m mrs →
  0 ≤ shr_m (Nat.iter n shr_1 mrs) ∧
  shr_m (Nat.iter n shr_1 mrs) = shr_m mrs / 2 ^ Z.of_nat n ∧
  inexact (Nat.iter n shr_1 mrs) =
    inexact mrs || negb (shr_m mrs mod 2 ^ Z.of_nat n =? 0).
Proof.
  induction n as [|n IH]; intros mrs Hm.
  - cbn [Nat.iter]. change (2 ^ Z.of_nat 0) with 1. rewrite Z.div_1_r, Z.mod_1_r.
    simpl. by rewrite orb_false_r.
  - rewrite Nat.iter_succ_r.
    destruct (shr_1_spec mrs Hm) as [H1 H2].
    assert (0 ≤ shr_m (shr_1 mrs)) as Hm' by (rewrite H1; apply Z.div_pos; lia).
    destruct (IH (shr_1 mrs) Hm') as (H3 & H4 & H5).
    split; [done|]. rewrite H4, H5, H1, H2.
    rewrite Nat2Z.inj_succ, Z.pow_succ_r by lia.
    assert (0 < 2 ^ Z.of_nat n) as Hp by (apply Z.pow_pos_nonneg; lia).
    split.
    + rewrite Z.div_div by lia. reflexivity.
    + rewrite <- orb_assoc. f_equal.
      set (m := shr_m mrs) in *. set (P := 2 ^ Z.of_nat n) in *.
      rewrite Z.rem_mul_r by lia.
      rewrite Zodd_mod.
      pose proof (Z.mod_pos_bound m 2 ltac:(lia)).
      pose proof (Z.mod_pos_bound (m / 2) P ltac:(lia)).
      destruct (Z.eqb_spec (m mod 2) 1), (Z.eqb_spec ((m / 2) mod P) 0),
        (Z.eqb_spec (m mod 2 + 2 * ((m / 2) mod P)) 0); simpl; try reflexivity; lia.
Qed.

Lemma shr_spec m l e n :
  0 ≤ m → 0 ≤ n →
  let '(mrs, e') := shr (shr_record_of_loc m l) e n in
  e' = e + n ∧ 0 ≤ shr_m mrs ∧ shr_m mrs = m / 2 ^ n ∧
  (loc_of_shr_record mrs = loc_Exact ↔ l = loc_Exact ∧ m mod 2 ^ n = 0).
Proof.
  intros Hm Hn.
  assert (shr_m (shr_record_of_loc m l) = m) as Hsm by (by destruct l as [|[]]).
  assert (inexact (shr_record_of_loc m l) = false ↔ l = loc_Exact) as Hin.
  { destruct l as [|[]]; unfold inexact; simpl; split; intros; congruence. }
  assert (∀ mrs, loc_of_shr_record mrs = loc_Exact ↔ inexact mrs = false) as Hloc.
  { intros [? [] []]; unfold inexact; simpl; split; intros; congruence. }
  destruct n as [|p|p]; [| |lia]; cbn [shr].
  - rewrite Hsm, Hloc, Hin. change (2 ^ 0) with 1. rewrite Z.div_1_r, Z.mod_1_r.
    split; [lia|]. split; [lia|]. split; [done|]. tauto.
  - rewrite iter_pos_nat.
    destruct (shr_iter_spec (Pos.to_nat p) (shr_record_of_loc m l)) as (H1 & H2 & H3);
      [rewrite Hsm; lia|].
    rewrite positive_nat_Z, Hsm in H2, H3.
    split; [done|]. split; [done|]. split; [done|].
    rewrite Hloc, H3, orb_false_iff, Hin, negb_false_iff, Z.eqb_eq. tauto.
Qed.

End Rounding.

Lemma shr_nonpos mrs e n : n ≤ 0 → shr mrs e n = (mrs, e).
Proof. destruct n; [done|lia|done]. Qed.

Lemma round_nearest_even_cases m l :
  round_nearest_even m l = m ∨
  (round_nearest_even m l = m + 1 ∧ l ≠ loc_Exact).
Proof.
  destruct l as [|[]]; simpl; auto.
  - destruct (Z.even m); auto. 
Qed.

Lemma binary_round_aux_Z s mx ex lx :
  0 ≤ mx → ex ≤ SpecFloat.fexp Float.prec Float.emax (Zdigits2 mx + ex) →
  let n := SpecFloat.fexp Float.prec Float.emax (Zdigits2 mx + ex) - ex in
  let m1 := mx / 2 ^ n in
  let e1 := ex + n in
  -1074 ≤ e1 ∧ 0 ≤ m1 < 2 ^ 53 ∧ (2 ^ 52 ≤ m1 ∨ e1 = -1074) ∧
  ∃ m3 e3,
    binary_round_aux Float.prec Float.emax s mx ex lx = pack s m3 e3 ∧
    ((m3 = m1 ∧ e3 = e1) ∨
     (¬ (lx = loc_Exact ∧ mx mod 2 ^ n = 0) ∧
      ((m3 = m1 + 1 ∧ e3 = e1 ∧ m1 + 1 < 2 ^ 53) ∨
       (m1 + 1 = 2 ^ 53 ∧ m3 = 2 ^ 52 ∧ e3 = e1 + 1)))).
Proof.
  intros Hmx Hex n m1 e1.
  assert (0 ≤ n) as Hn by (subst n; lia).
  assert (0 < 2 ^ n) as Hpn by (apply Z.pow_pos_nonneg; lia).
  assert (-1074 ≤ e1) as He1.
  { subst e1 n. rewrite fexp_eq. lia. }
  assert (0 ≤ m1) as Hm1 by (subst m1; apply Z.div_pos; lia).
  assert (m1 < 2 ^ 53) as Hm1u.
  { subst m1. apply Z.div_lt_upper_bound; [lia|].
    destruct (Z.eq_dec mx 0) as [->|Hnz]; [lia|].
    pose proof (Zdigits2_bounds mx ltac:(lia)) as [_ Hd].
    rewrite <- Z.pow_add_r by lia.
    eapply Z.lt_le_trans; [exact Hd|]. apply Z.pow_le_mono_r; [lia|].
    subst n. rewrite fexp_eq. lia. }
  assert (2 ^ 52 ≤ m1 ∨ e1 = -1074) as Hnorm.
  { destruct (Z.eq_dec mx 0) as [->|Hnz].
    - right. subst e1 n. simpl Zdigits2 in *. rewrite fexp_eq in *. lia.
    - pose proof (Zdigits2_bounds mx ltac:(lia)) as [Hd _].
      destruct (Z.le_gt_cases (-1074) (Zdigits2 mx + ex - 53)) as [Hc|Hc].
      + left. subst m1. apply Z.div_le_lower_bound; [lia|].
        rewrite <- Z.pow_add_r by lia.
        eapply Z.le_trans; [|exact Hd]. apply Z.pow_le_mono_r; [lia|].
        subst n. rewrite fexp_eq. lia.
      + right. subst e1 n. rewrite fexp_eq. lia. }
  split; [done|]. split; [done|]. split; [done|].
  unfold binary_round_aux, shr_fexp. fold n.
  pose proof (shr_spec mx lx ex n Hmx Hn) as Hs.
  destruct (shr (shr_record_of_loc mx lx) ex n) as [mrs' e'].
  destruct Hs as (-> & Hm0 & Hm & Hloc). fold e1. fold m1 in Hm.
  set (m2 := round_nearest_even (shr_m mrs') (loc_of_shr_record mrs')).
  assert (m2 = m1 ∨ (m2 = m1 + 1 ∧ ¬ (lx = loc_Exact ∧ mx mod 2 ^ n = 0))) as Hm2.
  { subst m2. rewrite <- Hm.
    destruct (round_nearest_even_cases (shr_m mrs') (loc_of_shr_record mrs'))
      as [->|[-> Hne]]; [by left|]. right. split; [done|]. by rewrite <- Hloc. }
  clearbody m2.
  destruct (Z.eq_dec m2 (2 ^ 53)) as [Hbig|Hsmall].
  - (* the mantissa overflowed to 2^53 *)
    destruct Hm2 as [->|[Hm2 Hinex]]; [lia|].
    assert (Zdigits2 m2 = 54) as ->.
    { apply Zdigits2_unique; rewrite Hbig; [|lia]. split; [apply Z.pow_le_mono_r|apply Z.pow_lt_mono_r]; lia. }
    assert (SpecFloat.fexp Float.prec Float.emax (54 + e1) - e1 = 1) as -> by (rewrite fexp_eq; lia).
    pose proof (shr_spec m2 loc_Exact e1 1 ltac:(lia) ltac:(lia)) as Hs2.
    destruct (shr (shr_record_of_loc m2 loc_Exact) e1 1) as [mrs'' e''].
    destruct Hs2 as (-> & _ & Hm'' & _).
    exists (2 ^ 52), (e1 + 1). split.
    + rewrite Hm'', Hbig. reflexivity.
    + right. split; [done|]. right. lia.
  - assert (m2 < 2 ^ 53) as Hlt by (destruct Hm2 as [->|[-> _]]; lia).
    assert (SpecFloat.fexp Float.prec Float.emax (Zdigits2 m2 + e1) - e1 ≤ 0) as Hn2.
    { rewrite fexp_eq. destruct (Z.eq_dec m2 0) as [->|Hnz]; [simpl; lia|].
      assert (0 < m2) as Hpos by (destruct Hm2 as [->|[-> _]]; lia).
      pose proof (Zdigits2_bounds m2 Hpos) as [Hd _].
      assert (Zdigits2 m2 - 1 < 53); [|lia].
      apply (Z.pow_lt_mono_r_iff 2); lia. }
    rewrite shr_nonpos by done.
    assert (shr_m (shr_record_of_loc m2 loc_Exact) = m2) as -> by done.
    exists m2, e1. split.
    + unfold pack. destruct m2; try done.
    + destruct Hm2 as [->|[-> Hinex]]; [by left|]. right. split; [done|]. left. lia.
Qed.

Section Dyadic.

Lemma pow2_pos e : (0 < pow2 e)%Q.
Proof. apply Qpower_0_lt. reflexivity. Qed.

Lemma pow2_add a b : (pow2 (a + b) == pow2 a * pow2 b)%Q.
Proof. apply Qpower_plus. discriminate. Qed.

Lemma pow2_Z n : 0 ≤ n → (pow2 n == inject_Z (2 ^ n))%Q.
Proof. intros H. unfold pow2. rewrite (Zpower_Qpower 2 n H). reflexivity. Qed.

Lemma dy_shift m e k : 0 ≤ k → (dy (m * 2 ^ k) e == dy m (e + k))%Q.
Proof.
  intros H. unfold dy. rewrite inject_Z_mult, pow2_add, (pow2_Z k H). ring.
Qed.

Lemma dy_le a b e : (dy a e <= dy b e)%Q ↔ a ≤ b.
Proof.
  unfold dy. rewrite Qmult_le_r by apply pow2_pos. by rewrite <- Zle_Qle.
Qed.

Lemma dy_lt a b e : (dy a e < dy b e)%Q ↔ a < b.
Proof.
  unfold dy. rewrite Qmult_lt_r by apply pow2_pos. by rewrite <- Zlt_Qlt.
Qed.

Lemma dy_eq a b e : (dy a e == dy b e)%Q ↔ a = b.
Proof.
  split; [|by intros ->].
  intros H. apply Z.le_antisymm; apply (dy_le _ _ e); rewrite H; apply Qle_refl.
Qed.

Lemma dy_0 e : (dy 0 e == 0)%Q.
Proof. unfold dy. ring. Qed.

Lemma dy_nonneg m e : 0 ≤ m → (0 <= dy m e)%Q.
Proof. intros H. rewrite <- (dy_0 e). by apply dy_le. Qed.

Lemma dy_pos m e : 0 < m → (0 < dy m e)%Q.
Proof. intros H. rewrite <- (dy_0 e). by apply dy_lt. Qed.

(** No number of the grid lies strictly between two neighbours. *)
Lemma grid_gap m e g :
  -1074 ≤ e → 0 ≤ m < 2 ^ 53 → (2 ^ 52 ≤ m ∨ e = -1074) → grid g →
  ((g < dy (m + 1) e)%Q → (g <= dy m e)%Q) ∧
  ((dy m e < g)%Q → (dy (m + 1) e <= g)%Q).
Proof.
  intros He Hm Hn (mg & eg & Hmg & Heg & ->).
  destruct (Z.le_gt_cases e eg) as [Hc|Hc].
  - replace eg with (e + (eg - e)) by lia.
    rewrite <- (dy_shift mg e (eg - e)) by lia.
    rewrite !dy_lt, !dy_le. lia.
  - assert (2 ^ 52 ≤ m) as Hm52 by lia.
    assert (dy mg eg < dy m e)%Q as Hlt.
    { replace e with (eg + (e - eg)) by lia.
      rewrite <- (dy_shift m eg (e - eg)) by lia. apply dy_lt.
      assert (2 ^ 1 ≤ 2 ^ (e - eg)) by (apply Z.pow_le_mono_r; lia).
      change (2 ^ 1) with 2 in *. nia. }
    split; intros H.
    + by apply Qlt_le_weak.
    + exfalso. apply (Qlt_irrefl (dy m e)). by apply Qlt_trans with (dy mg eg).
Qed.

Lemma located_shift x mx ex lx n :
  0 ≤ mx → 0 ≤ n → located x mx ex lx →
  (dy (mx / 2 ^ n) (ex + n) <= x)%Q ∧ (x < dy (mx / 2 ^ n + 1) (ex + n))%Q ∧
  ((lx = loc_Exact ∧ mx mod 2 ^ n = 0) ↔ (x == dy (mx / 2 ^ n) (ex + n))%Q).
Proof.
  intros Hmx Hn (Hle & Hlt & Hex).
  assert (0 < 2 ^ n) as Hp by (apply Z.pow_pos_nonneg; lia).
  pose proof (Z.div_mod mx (2 ^ n) ltac:(lia)) as Hdm.
  pose proof (Z.mod_pos_bound mx (2 ^ n) Hp) as Hr.
  rewrite <- !(dy_shift _ ex n) by lia.
  set (q := mx / 2 ^ n) in *. set (r := mx mod 2 ^ n) in *.
  assert (dy (q * 2 ^ n) ex <= dy mx ex)%Q as H1 by (apply dy_le; lia).
  assert (dy (mx + 1) ex <= dy ((q + 1) * 2 ^ n) ex)%Q as H2 by (apply dy_le; lia).
  split; [by apply Qle_trans with (dy mx ex)|].
  split; [by apply Qlt_le_trans with (dy (mx + 1) ex)|].
  split.
  - intros [Hl Hr0]. apply Hex in Hl. rewrite Hl. apply dy_eq. lia.
  - intros Heq. 
    assert (dy mx ex == dy (q * 2 ^ n) ex)%Q as Hmq.
    { apply Qle_antisym; [|done]. by rewrite <- Heq. }
    apply dy_eq in Hmq. split; [|lia]. apply Hex. rewrite Heq. apply dy_eq. lia.
Qed.

End Dyadic.

Lemma binary_round_aux_rounds s mx ex lx x :
  0 ≤ mx → ex ≤ SpecFloat.fexp Float.prec Float.emax (Zdigits2 mx + ex) → located x mx ex lx →
  rounds s x (binary_round_aux Float.prec Float.emax s mx ex lx).
Proof.
  intros Hmx Hex Hloc.
  destruct (binary_round_aux_Z s mx ex lx Hmx Hex) as (He1 & Hm1 & Hn1 & m3 & e3 & Hr & Hc).
  set (n := SpecFloat.fexp Float.prec Float.emax (Zdigits2 mx + ex) - ex) in *.
  assert (0 ≤ n) as Hn by (subst n; lia).
  destruct (located_shift x mx ex lx n Hmx Hn Hloc) as (Hle & Hlt & Hexact).
  set (m1 := mx / 2 ^ n) in *. set (e1 := ex + n) in *.
  exists m3, e3. split; [done|].
  destruct Hc as [[-> ->]|[Hinex Hc]].
  - split; [done|]. split; [done|]. split; [done|]. split.
    + intros g Hg Hgx. apply (grid_gap m1 e1 g); try done.
      by apply Qle_lt_trans with x.
    + intros g Hg Hxg. by apply Qle_trans with x.
  - assert (dy m1 e1 < x)%Q as Hstrict.
    { apply Qle_lteq in Hle as [H|H]; [done|]. exfalso. apply Hinex.
      apply Hexact. by rewrite H. }
    assert (dy m3 e3 == dy (m1 + 1) e1)%Q as Hval.
    { destruct Hc as [(-> & -> & _)|(H53 & -> & ->)]; [reflexivity|].
      rewrite <- (dy_shift (2 ^ 52) e1 1) by lia. apply dy_eq.
      rewrite H53. reflexivity. }
    split; [destruct Hc as [(-> & -> & ?)|(? & -> & ->)]; lia|].
    split; [destruct Hc as [(-> & -> & ?)|(? & -> & ->)]; lia|].
    split; [destruct Hc as [(-> & -> & ?)|(? & -> & ->)]; [|left]; lia|].
    split.
    + intros g Hg Hgx. rewrite Hval. apply Qle_trans with (dy m1 e1).
      * apply (grid_gap m1 e1 g); try done. by apply Qle_lt_trans with x.
      * apply dy_le. lia.
    + intros g Hg Hxg. rewrite Hval. apply (grid_gap m1 e1 g); try done.
      by apply Qlt_le_trans with x.
Qed.

Section Faithful.

#[global] Instance grid_proper : Proper (Qeq ==> iff) grid.
Proof.
  intros x y Hxy. unfold grid. split; intros (m & e & ? & ? & H); exists m, e;
    (split; [done|]; split; [done|]); [by rewrite <- Hxy | by rewrite Hxy].
Qed.

Lemma F2Q_pack s m e :
  0 < m → e ≤ 971 →
  is_finite (pack s m e) = true ∧
  (F2Q (pack s m e) == if s then - dy m e else dy m e)%Q.
Proof.
  intros Hm He. destruct m as [|p|p]; try lia. unfold pack.
  rewrite (proj2 (Z.leb_le _ _) He). split; [done|].
  destruct s; simpl; [|reflexivity]. unfold dy.
  change (Z.neg p) with (- Z.pos p). rewrite inject_Z_opp. ring.
Qed.

Lemma F2Q_pack_0 s e : (F2Q (pack s 0 e) == if s then - dy 0 e else dy 0 e)%Q.
Proof. cbn [pack F2Q]. destruct s; rewrite dy_0; reflexivity. Qed.

Lemma pack_valid s m e :
  0 ≤ m < 2 ^ 53 → -1074 ≤ e → (2 ^ 52 ≤ m ∨ e = -1074) → valid (pack s m e).
Proof.
  intros Hm He Hn. destruct m as [|p|p]; try lia; [done|]. unfold pack.
  destruct (Z.leb_spec e 971) as [Hle|Hgt]; [|done].
  unfold valid, valid_binary, bounded, canonical_mantissa.
  rewrite andb_true_iff, Z.eqb_eq, Z.leb_le. split; [|done].
  rewrite fexp_eq. pose proof (digits2_pos_bounds p) as [H1 H2].
  assert (Z.pos (digits2_pos p) - 1 < 53) by (apply (Z.pow_lt_mono_r_iff 2); lia).
  destruct Hn as [Hn| ->]; [|lia].
  assert (52 < Z.pos (digits2_pos p)) by (apply (Z.pow_lt_mono_r_iff 2); lia).
  lia.
Qed.

Lemma pack_overflow m e :
  -1074 ≤ e → (2 ^ 52 ≤ m ∨ e = -1074) → 971 < e → (pow2 1024 <= dy m e)%Q.
Proof.
  intros He Hn Hgt. assert (2 ^ 52 ≤ m) as Hm by lia.
  rewrite (pow2_Z 1024) by lia.
  replace e with (0 + e) by lia. rewrite <- (dy_shift m 0 e) by lia.
  unfold dy. change (pow2 0) with 1%Q. rewrite Qmult_1_r. rewrite <- Zle_Qle.
  assert (2 ^ 972 ≤ 2 ^ e) by (apply Z.pow_le_mono_r; lia).
  change (2 ^ 1024) with (2 ^ 52 * 2 ^ 972). nia.
Qed.

Lemma rounds_faithful s x r :
  (0 <= x)%Q → rounds s x r → faithful (if s then - x else x) r.
Proof.
  intros Hx (m & e & -> & Hm & He & Hn & Hlo & Hhi).
  split; [by apply pack_valid|].
  assert (∀ g, double g → (0 <= g)%Q → (g <= x)%Q →
            pack s m e = S754_infinity s ∨
            (is_finite (pack s m e) = true ∧
             (F2Q (pack s m e) == if s then - dy m e else dy m e)%Q ∧ (g <= dy m e)%Q))
    as Hbelow.
  { intros g [Hg _] Hg0 Hgx. rewrite Qabs_pos in Hg by done.
    pose proof (Hlo g Hg Hgx) as Hb.
    destruct (Z.eq_dec m 0) as [->|Hm0].
    - right. split; [done|]. split; [apply F2Q_pack_0|done].
    - destruct (Z.leb_spec e 971) as [Hle|Hgt].
      + right. destruct (F2Q_pack s m e ltac:(lia) Hle) as [H1 H2]. done.
      + left. unfold pack. destruct m; try lia.
        by rewrite (proj2 (Z.leb_gt _ _) Hgt). }
  assert (∀ g, double g → (x <= g)%Q →
            is_finite (pack s m e) = true ∧
            (F2Q (pack s m e) == if s then - dy m e else dy m e)%Q ∧ (dy m e <= g)%Q)
    as Habove.
  { intros g [Hg Hfin] Hxg. assert (0 <= g)%Q as Hg0 by (by apply Qle_trans with x).
    rewrite Qabs_pos in Hg, Hfin by done.
    pose proof (Hhi g Hg Hxg) as Hb.
    destruct (Z.eq_dec m 0) as [->|Hm0].
    - split; [done|]. split; [apply F2Q_pack_0|done].
    - assert (e ≤ 971) as Hle.
      { destruct (Z.le_gt_cases e 971) as [?|Hgt]; [done|]. exfalso.
        pose proof (pack_overflow m e He Hn Hgt) as Hov.
        apply (Qlt_irrefl g). apply Qlt_le_trans with (pow2 1024); [done|].
        by apply Qle_trans with (dy m e). }
      destruct (F2Q_pack s m e ltac:(lia) Hle) as [H1 H2]. done. }
  assert (0 <= dy m e)%Q as Hv0 by (apply dy_nonneg; lia).
  assert (is_finite (pack s m e) = true →
          (F2Q (pack s m e) == if s then - dy m e else dy m e)%Q) as Hval.
  { destruct (Z.eq_dec m 0) as [->|Hm0]; [intros _; apply F2Q_pack_0|].
    destruct (Z.leb_spec e 971) as [Hle|Hgt]; [intros _; by apply F2Q_pack; lia|].
    unfold pack. destruct m; try lia. by rewrite (proj2 (Z.leb_gt _ _) Hgt). }
  assert (pack s m e = S754_infinity s ∨ is_finite (pack s m e) = true) as Hcls.
  { unfold pack. destruct m; try lia; [by right|]. destruct (e <=? 971); auto. }
  assert (double 0) as Hd0.
  { split; [|apply pow2_pos]. exists 0, 0. split; [lia|]. split; [lia|].
    rewrite dy_0. reflexivity. }
  destruct s.
  - (* a negative number *)
    split.
    + intros g Hg Hgx. right.
      assert (double (- g)%Q) as Hg'.
      { destruct Hg as [H1 H2]. split; by rewrite Qabs_opp. }
      destruct (Habove (- g)%Q Hg' ltac:(lra)) as (H1 & H2 & H3).
      split; [done|]. rewrite H2. lra.
    + intros g Hg Hxg. destruct (Qlt_le_dec g 0) as [Hneg|Hpos].
      * assert (double (- g)%Q) as Hg'.
        { destruct Hg as [H1 H2]. split; by rewrite Qabs_opp. }
        destruct (Hbelow (- g)%Q Hg' ltac:(lra) ltac:(lra)) as [H|(H1 & H2 & H3)];
          [by left|]. right. split; [done|]. rewrite H2. lra.
      * destruct Hcls as [H|H]; [by left|]. right. split; [done|].
        rewrite (Hval H). lra.
  - split.
    + intros g Hg Hgx. destruct (Qlt_le_dec g 0) as [Hneg|Hpos].
      * destruct Hcls as [H|H]; [by left|]. right. split; [done|].
        rewrite (Hval H). lra.
      * destruct (Hbelow g Hg Hpos Hgx) as [H|(H1 & H2 & H3)]; [by left|].
        right. split; [done|]. by rewrite H2.
    + intros g Hg Hxg. right. destruct (Habove g Hg Hxg) as (H1 & H2 & H3).
      split; [done|]. by rewrite H2.
Qed.

End Faithful.

Section Operations.

#[global] Instance faithful_proper : Proper (Qeq ==> eq ==> iff) faithful.
Proof.
  intros x y Hxy r ? <-. unfold faithful.
  split; intros (Hv & Hlo & Hhi); (split; [done|]); split; intros g Hg Hc.
  - apply Hlo; [done|]. by rewrite Hxy.
  - apply Hhi; [done|]. by rewrite Hxy.
  - apply Hlo; [done|]. by rewrite <- Hxy.
  - apply Hhi; [done|]. by rewrite <- Hxy.
Qed.

#[global] Instance rounds_proper : Proper (eq ==> Qeq ==> eq ==> iff) rounds.
Proof.
  intros s ? <- x y Hxy r ? <-. unfold rounds.
  split; intros (m & e & ? & ? & ? & ? & Hlo & Hhi); exists m, e;
    (split; [done|]; split; [done|]; split; [done|]; split; [done|]);
    split; intros g Hg Hc.
  - apply Hlo; [done|]. by rewrite Hxy.
  - apply Hhi; [done|]. by rewrite Hxy.
  - apply Hlo; [done|]. by rewrite <- Hxy.
  - apply Hhi; [done|]. by rewrite <- Hxy.
Qed.

Lemma faithful_refl r : valid r → is_finite r = true → faithful (F2Q r) r.
Proof.
  intros Hv Hf. split; [done|]. split; intros g _ Hg; right; done.
Qed.

Lemma faithful_zero x s : (x == 0)%Q → faithful x (S754_zero s).
Proof. intros ->. by apply (faithful_refl (S754_zero s)). Qed.

Lemma pos_iter_xO mx d :
  Z.pos (Pos.iter xO mx d) = Z.pos mx * 2 ^ Z.pos d ∧
  digits2_pos (Pos.iter xO mx d) = (digits2_pos mx + d)%positive.
Proof.
  induction d as [|d [IH1 IH2]] using Pos.peano_ind.
  - cbn [Pos.iter digits2_pos]. split; [lia|]. lia.
  - rewrite Pos.iter_succ. cbn [digits2_pos]. rewrite IH2, Pos2Z.inj_xO, IH1.
    rewrite Pos2Z.inj_succ, Z.pow_succ_r by lia. split; lia.
Qed.

Lemma shl_align_spec mx ex ex' :
  let '(mz, ez) := shl_align mx ex ex' in
  ez = Z.min ex ex' ∧ Z.pos mz = Z.pos mx * 2 ^ (ex - ez) ∧
  Z.pos (digits2_pos mz) + ez = Z.pos (digits2_pos mx) + ex.
Proof.
  unfold shl_align. destruct (ex' - ex) as [|d|d] eqn:Hd.
  - split; [lia|]. rewrite Z.sub_diag. split; lia.
  - split; [lia|]. rewrite Z.sub_diag. split; lia.
  - destruct (pos_iter_xO mx d) as [H1 H2]. rewrite H1, H2.
    split; [lia|]. replace (ex - ex') with (Z.pos d) by lia. split; lia.
Qed.

Lemma dy_align m ex ez : ez ≤ ex → (dy m ex == dy (m * 2 ^ (ex - ez)) ez)%Q.
Proof.
  intros H. rewrite (dy_shift m ez (ex - ez)) by lia.
  replace (ez + (ex - ez)) with ex by lia. reflexivity.
Qed.

Lemma located_exact m e : located (dy m e) m e loc_Exact.
Proof.
  split; [apply Qle_refl|]. split; [apply dy_lt; lia|]. split; reflexivity.
Qed.

Lemma binary_round_rounds s mx ex :
  rounds s (dy (Z.pos mx) ex) (binary_round Float.prec Float.emax s mx ex).
Proof.
  unfold binary_round.
  pose proof (shl_align_spec mx ex (SpecFloat.fexp Float.prec Float.emax (Z.pos (digits2_pos mx) + ex))) as Hs.
  destruct (shl_align mx ex _) as [mz ez]. destruct Hs as (Hez & Hmz & Hd).
  assert (dy (Z.pos mx) ex == dy (Z.pos mz) ez)%Q as ->.
  { rewrite Hmz. apply dy_align. lia. }
  apply binary_round_aux_rounds; [lia| |apply located_exact].
  cbn [Zdigits2]. rewrite Hd. lia.
Qed.

Lemma dy_opp m e : (dy (- m) e == - dy m e)%Q.
Proof. unfold dy. rewrite inject_Z_opp. ring. Qed.

Lemma dy_neg p e : (dy (Z.neg p) e == - dy (Z.pos p) e)%Q.
Proof. change (Z.neg p) with (- Z.pos p). apply dy_opp. Qed.

Lemma binary_normalize_faithful n e sz :
  faithful (dy n e) (binary_normalize Float.prec Float.emax n e sz).
Proof.
  destruct n as [|p|p]; cbn [binary_normalize].
  - apply faithful_zero, dy_0.
  - apply (rounds_faithful false); [apply dy_nonneg; lia|apply binary_round_rounds].
  - change (Z.neg p) with (- Z.pos p). rewrite dy_opp.
    apply (rounds_faithful true); [apply dy_nonneg; lia|apply binary_round_rounds].
Qed.

Lemma F2Q_finite s m e : F2Q (S754_finite s m e) = dy (cond_Zopp s (Z.pos m)) e.
Proof. reflexivity. Qed.

Lemma aligned_sum sx mx ex sy my ey (op : Z → Z → Z) (qop : Q → Q → Q) :
  (∀ a b k, op a b * k = op (a * k) (b * k)) →
  (∀ a b e, qop (dy a e) (dy b e) == dy (op a b) e)%Q →
  Proper (Qeq ==> Qeq ==> Qeq) qop →
  let ez := Z.min ex ey in
  (qop (F2Q (S754_finite sx mx ex)) (F2Q (S754_finite sy my ey)) ==
   dy (op (cond_Zopp sx (Z.pos (fst (shl_align mx ex ez))))
          (cond_Zopp sy (Z.pos (fst (shl_align my ey ez))))) ez)%Q.
Proof.
  intros Hop Hq Hproper ez. rewrite !F2Q_finite.
  pose proof (shl_align_spec mx ex ez) as Hx.
  pose proof (shl_align_spec my ey ez) as Hy.
  destruct (shl_align mx ex ez) as [mx' ex'], (shl_align my ey ez) as [my' ey'].
  destruct Hx as (Hex & Hmx & _), Hy as (Hey & Hmy & _). cbn [fst].
  assert (ex' = ez) as -> by lia. assert (ey' = ez) as -> by lia.
  rewrite (dy_align _ ex ez), (dy_align _ ey ez) by lia.
  rewrite Hq. apply dy_eq. rewrite Hmx, Hmy. destruct sx, sy; simpl; f_equal; lia.
Qed.

Lemma SFadd_faithful x y :
  valid x → valid y → is_finite x = true → is_finite y = true →
  faithful (F2Q x + F2Q y) (SFadd Float.prec Float.emax x y).
Proof.
  intros Hvx Hvy Hfx Hfy.
  destruct x as [sx| | |sx mx ex], y as [sy| | |sy my ey]; try done.
  - destruct sx, sy; cbn [SFadd]; apply faithful_zero; cbn [F2Q]; ring.
  - assert (F2Q (S754_zero sx) + F2Q (S754_finite sy my ey) ==
            F2Q (S754_finite sy my ey))%Q as -> by (cbn [F2Q]; ring).
    by apply faithful_refl.
  - assert (F2Q (S754_finite sx mx ex) + F2Q (S754_zero sy) ==
            F2Q (S754_finite sx mx ex))%Q as -> by (cbn [F2Q]; ring).
    by apply faithful_refl.
  - cbn [SFadd].
    rewrite (aligned_sum sx mx ex sy my ey Z.add Qplus).
    + apply binary_normalize_faithful.
    + intros. lia.
    + intros. unfold dy. rewrite inject_Z_plus. ring.
    + apply Qplus_comp.
Qed.

Lemma SFsub_faithful x y :
  valid x → valid y → is_finite x = true → is_finite y = true →
  faithful (F2Q x - F2Q y) (SFsub Float.prec Float.emax x y).
Proof.
  intros Hvx Hvy Hfx Hfy.
  destruct x as [sx| | |sx mx ex], y as [sy| | |sy my ey]; try done.
  - destruct sx, sy; cbn [SFsub]; apply faithful_zero; cbn [F2Q]; ring.
  - cbn [SFsub].
    assert (F2Q (S754_zero sx) - F2Q (S754_finite sy my ey) ==
            F2Q (S754_finite (negb sy) my ey))%Q as ->.
    { rewrite !F2Q_finite. cbn [F2Q]. destruct sy; cbn [negb cond_Zopp Z.opp];
        rewrite ?dy_opp, ?dy_neg; ring. }
    by apply faithful_refl.
  - assert (F2Q (S754_finite sx mx ex) - F2Q (S754_zero sy) ==
            F2Q (S754_finite sx mx ex))%Q as -> by (cbn [F2Q]; ring).
    by apply faithful_refl.
  - cbn [SFsub].
    rewrite (aligned_sum sx mx ex sy my ey Z.sub Qminus).
    + apply binary_normalize_faithful.
    + intros. lia.
    + intros. unfold dy, Z.sub. rewrite inject_Z_plus, inject_Z_opp. ring.
    + intros a b Hab c d Hcd. unfold Qminus. by rewrite Hab, Hcd.
Qed.

Lemma valid_finite s m e :
  valid (S754_finite s m e) →
  -1074 ≤ e ≤ 971 ∧ Z.pos m < 2 ^ 53 ∧ (2 ^ 52 ≤ Z.pos m ∨ e = -1074).
Proof.
  unfold valid, valid_binary, bounded, canonical_mantissa.
  rewrite andb_true_iff, Z.eqb_eq, Z.leb_le, fexp_eq.
  pose proof (digits2_pos_bounds m) as [H1 H2]. intros [Hc He].
  change (Float.emax - Float.prec) with 971 in He.
  assert (Z.pos (digits2_pos m) ≤ 53) as Hd by lia.
  assert (2 ^ Z.pos (digits2_pos m) ≤ 2 ^ 53) by (apply Z.pow_le_mono_r; lia).
  split; [lia|]. split; [lia|].
  destruct (Z.eq_dec e (-1074)); [by right|left].
  assert (Z.pos (digits2_pos m) = 53) as Hd53 by lia.
  rewrite Hd53 in H1. exact H1.
Qed.


Lemma new_location_exact n k : new_location n k = loc_Exact ↔ k = 0.
Proof.
  unfold new_location, new_location_even, new_location_odd.
  destruct (Z.even n), (Z.eqb_spec k 0); split; intros; try done; congruence.
Qed.

Lemma SFdiv_core_spec m1 e1 m2 e2 :
  0 < m1 → 0 < m2 →
  let '(q, e, l) := SFdiv_core_binary Float.prec Float.emax m1 e1 m2 e2 in
  0 ≤ q ∧ e ≤ SpecFloat.fexp Float.prec Float.emax (Zdigits2 q + e) ∧ located (dy m1 e1 / dy m2 e2) q e l.
Proof.
  intros H1 H2. unfold SFdiv_core_binary.
  set (d1 := Zdigits2 m1). set (d2 := Zdigits2 m2).
  set (e' := Z.min (SpecFloat.fexp Float.prec Float.emax (d1 + e1 - (d2 + e2))) (e1 - e2)).
  set (s := e1 - e2 - e').
  assert (0 ≤ s) as Hs by (subst s e'; lia).
  set (m' := match s with Z.pos _ => Z.shiftl m1 s | 0 => m1 | Z.neg _ => 0 end).
  assert (m' = m1 * 2 ^ s) as Hm'.
  { subst m'. destruct s; [lia| |lia]. by rewrite Z.shiftl_mul_pow2. }
  clearbody m'.
  pose proof (Z_div_mod m' m2 ltac:(lia)) as Hdiv.
  destruct (Z.div_eucl m' m2) as [q r]. destruct Hdiv as [Hqr Hr].
  assert (0 < 2 ^ s) as Hps by (apply Z.pow_pos_nonneg; lia).
  assert (0 ≤ q) as Hq by nia.
  split; [done|].
  assert (dy m1 e1 / dy m2 e2 == (inject_Z m' / inject_Z m2) * pow2 e')%Q as Hx.
  { rewrite Hm'. rewrite (dy_align m1 e1 (e2 + e')) by lia.
    replace (e1 - (e2 + e')) with s by lia. unfold dy.
    rewrite (pow2_add e2 e').
    assert (¬ inject_Z m2 == 0)%Q.
    { change 0%Q with (inject_Z 0). rewrite inject_Z_injective. lia. }
    pose proof (pow2_pos e2). pose proof (pow2_pos e').
    field. repeat split; first [done | lra]. }
  assert (0 < inject_Z m2)%Q as Hm2 by (change 0%Q with (inject_Z 0); by rewrite <- Zlt_Qlt).
  split.
  - rewrite fexp_eq.
    destruct (Z.le_gt_cases e' (-1074)) as [?|Hbig]; [lia|].
    pose proof (Zdigits2_bounds m1 H1) as [Hd1 _].
    pose proof (Zdigits2_bounds m2 H2) as [_ Hd2]. fold d1 in Hd1. fold d2 in Hd2.
    assert (e' ≤ d1 + e1 - (d2 + e2) - 53) as He'.
    { subst e'. rewrite fexp_eq in *. lia. }
    assert (d2 - d1 + 53 ≤ s) as Hs' by (subst s; lia).
    assert (0 < d2) by (apply Zdigits2_pos; lia).
    assert (0 < d1) by (apply Zdigits2_pos; lia).
    assert (2 ^ (d2 + 52) ≤ m').
    { rewrite Hm'. destruct (Z.le_gt_cases 0 (d2 - d1 + 53)) as [Hc|Hc].
      - replace (d2 + 52) with ((d1 - 1) + (d2 - d1 + 53)) by lia.
        rewrite Z.pow_add_r by lia.
        assert (2 ^ (d2 - d1 + 53) ≤ 2 ^ s) by (apply Z.pow_le_mono_r; lia).
        apply Z.mul_le_mono_nonneg; try lia.
      - assert (2 ^ (d2 + 52) ≤ 2 ^ (d1 - 1)) by (apply Z.pow_le_mono_r; lia).
        nia. }
    assert (2 ^ 52 ≤ q).
    { match goal with H : 2 ^ (d2 + 52) ≤ m' |- _ => rewrite Z.pow_add_r in H by lia end.
      assert (m2 * 2 ^ 52 < m2 * (q + 1)); [|nia].
      apply Z.le_lt_trans with m'; [|lia].
      apply Z.le_trans with (2 ^ d2 * 2 ^ 52); [|done].
      apply Z.mul_le_mono_nonneg_r; lia. }
    pose proof (Zdigits2_bounds q ltac:(lia)) as [_ Hdq].
    assert (52 < Zdigits2 q); [|lia].
    apply (Z.pow_lt_mono_r_iff 2); [lia|apply Zdigits2_nonneg|lia].
  - assert (dy q e' <= dy m1 e1 / dy m2 e2)%Q as Hlo.
    { rewrite Hx. unfold dy. apply Qmult_le_r; [apply pow2_pos|].
      apply Qle_shift_div_l; [done|]. rewrite <- inject_Z_mult, <- Zle_Qle. nia. }
    assert (dy m1 e1 / dy m2 e2 < dy (q + 1) e')%Q as Hhi.
    { rewrite Hx. unfold dy. apply Qmult_lt_r; [apply pow2_pos|].
      apply Qlt_shift_div_r; [done|]. rewrite <- inject_Z_mult, <- Zlt_Qlt. nia. }
    split; [done|]. split; [done|].
    rewrite new_location_exact. split.
    + intros ->. rewrite Hx. unfold dy. apply Qmult_comp; [|reflexivity].
      assert (m' = q * m2) as -> by lia. rewrite inject_Z_mult. field.
      intros H. rewrite H in Hm2. by apply Qlt_irrefl in Hm2.
    + intros Heq. rewrite Hx in Heq. unfold dy in Heq.
      apply Qmult_inj_r in Heq; [|apply Qnot_eq_sym, Qlt_not_eq, pow2_pos].
      assert (inject_Z m' == inject_Z q * inject_Z m2)%Q as Hm.
      { rewrite <- Heq. field. intros H. rewrite H in Hm2. by apply Qlt_irrefl in Hm2. }
      rewrite <- inject_Z_mult, inject_Z_injective in Hm. lia.
Qed.

Lemma SFdiv_faithful x sy my ey :
  is_finite x = true →
  faithful (F2Q x / F2Q (S754_finite sy my ey))
           (SFdiv Float.prec Float.emax x (S754_finite sy my ey)).
Proof.
  intros Hfx.
  assert (¬ F2Q (S754_finite sy my ey) == 0)%Q as Hy0.
  { rewrite F2Q_finite. unfold dy. intros H. apply Qmult_integral in H as [H|H].
    - change 0%Q with (inject_Z 0) in H. rewrite inject_Z_injective in H.
      destruct sy; simpl in H; lia.
    - pose proof (pow2_pos ey) as Hp. rewrite H in Hp. by apply Qlt_irrefl in Hp. }
  destruct x as [sx| | |sx mx ex]; try done.
  - cbn [SFdiv]. apply faithful_zero. cbn [F2Q]. by field.
  - cbn [SFdiv].
    pose proof (SFdiv_core_spec (Z.pos mx) ex (Z.pos my) ey ltac:(lia) ltac:(lia)) as Hc.
    destruct (SFdiv_core_binary _ _ _ _ _ _) as [[q e] l].
    destruct Hc as (Hq & He & Hloc).
    assert (F2Q (S754_finite sx mx ex) / F2Q (S754_finite sy my ey) ==
            if xorb sx sy then - (dy (Z.pos mx) ex / dy (Z.pos my) ey)
            else dy (Z.pos mx) ex / dy (Z.pos my) ey)%Q as ->.
    { assert (¬ dy (Z.pos my) ey == 0)%Q as Hd.
      { apply Qnot_eq_sym, Qlt_not_eq, dy_pos. lia. }
      rewrite !F2Q_finite.
      destruct sx, sy; cbn [xorb cond_Zopp Z.opp]; rewrite ?dy_opp, ?dy_neg; field;
        try done; intros H; apply Hd; lra. }
    apply rounds_faithful.
    + apply Qle_shift_div_l; [apply dy_pos; lia|]. rewrite Qmult_0_l.
      apply dy_nonneg. lia.
    + by apply binary_round_aux_rounds.
Qed.

End Operations.

(** ** Python's operations on floats *)

Section PyFloat.

#[global] Instance double_proper : Proper (Qeq ==> iff) double.
Proof. intros x y Hxy. unfold double. by rewrite Hxy. Qed.

Lemma Qabs_dy m e : (Qabs (dy m e) == dy (Z.abs m) e)%Q.
Proof.
  destruct (Z.le_gt_cases 0 m) as [H|H].
  - rewrite Z.abs_eq by done. apply Qabs_pos. by apply dy_nonneg.
  - rewrite Z.abs_neq by lia. rewrite Qabs_neg, dy_opp; [reflexivity|].
    rewrite <- (dy_0 e). apply dy_le. lia.
Qed.

Lemma dy_int n : (dy n 0 == inject_Z n)%Q.
Proof. unfold dy. change (pow2 0) with 1%Q. ring. Qed.

Lemma double_dy m e : Z.abs m < 2 ^ 53 → -1074 ≤ e ≤ 971 → double (dy m e).
Proof.
  intros Hm He. unfold double. rewrite Qabs_dy. split.
  - exists (Z.abs m), e. split; [lia|]. split; [lia|reflexivity].
  - rewrite (pow2_Z 1024) by lia. rewrite <- dy_int.
    rewrite (dy_align (Z.abs m) e (-1074)), (dy_align (2 ^ 1024) 0 (-1074)) by lia.
    apply dy_lt.
    assert (2 ^ (e - -1074) ≤ 2 ^ (971 - -1074)) by (apply Z.pow_le_mono_r; lia).
    assert (0 < 2 ^ (e - -1074)) by (apply Z.pow_pos_nonneg; lia).
    change (2 ^ 1024 * 2 ^ (0 - -1074)) with (2 ^ 53 * 2 ^ (971 - -1074)). nia.
Qed.

Lemma double_int n : Z.abs n < 2 ^ 53 → double (inject_Z n).
Proof.
  intros H. destruct (double_dy n 0 H ltac:(lia)) as [H1 H2].
  unfold double. rewrite <- dy_int. done.
Qed.

Lemma double_opp g : double g → double (- g)%Q.
Proof. intros [H1 H2]. split; by rewrite Qabs_opp. Qed.

Lemma valid_double r : valid r → is_finite r = true → double (F2Q r).
Proof.
  intros Hv Hf. destruct r as [s| | |s m e]; try done.
  - cbn [F2Q]. rewrite <- (dy_0 0). apply double_dy; simpl; lia.
  - destruct (valid_finite s m e Hv) as (He & Hm & _). rewrite F2Q_finite.
    apply double_dy; [|done]. destruct s; simpl; lia.
Qed.

Lemma faithful_valid x r : faithful x r → valid r.
Proof. by intros [H _]. Qed.

Lemma faithful_exact x r :
  faithful x r → double x → is_finite r = true ∧ (F2Q r == x)%Q.
Proof.
  intros (_ & Hlo & Hhi) Hd.
  destruct (Hlo x Hd (Qle_refl x)) as [->|[Hf Hl]].
  - destruct (Hhi x Hd (Qle_refl x)) as [?|[? _]]; done.
  - split; [done|]. destruct (Hhi x Hd (Qle_refl x)) as [->|[_ Hu]]; [done|].
    by apply Qle_antisym.
Qed.

Lemma faithful_bounds x r lo hi :
  faithful x r → double lo → double hi → (lo <= x)%Q → (x <= hi)%Q →
  is_finite r = true ∧ (lo <= F2Q r)%Q ∧ (F2Q r <= hi)%Q.
Proof.
  intros (_ & Hlo & Hhi) Hdl Hdh Hl Hh.
  destruct (Hlo lo Hdl Hl) as [->|[Hf H1]].
  - destruct (Hhi hi Hdh Hh) as [?|[? _]]; done.
  - split; [done|]. split; [done|].
    destruct (Hhi hi Hdh Hh) as [->|[_ H2]]; done.
Qed.

Lemma nearest_exact n :
  Z.abs n < 2 ^ 53 →
  valid (Float.nearest n) ∧ is_finite (Float.nearest n) = true ∧
  (F2Q (Float.nearest n) == inject_Z n)%Q.
Proof.
  intros H. pose proof (binary_normalize_faithful n 0 false) as Hf.
  fold (Float.nearest n) in Hf. rewrite dy_int in Hf.
  split; [by apply (faithful_valid (inject_Z n))|].
  apply faithful_exact; [done|]. by apply double_int.
Qed.

Lemma of_int_exact n :
  Z.abs n < 2 ^ 53 → Float.of_int n = Some (Float.nearest n).
Proof.
  intros H. destruct (nearest_exact n H) as (_ & Hf & _). unfold Float.of_int.
  by destruct (Float.nearest n).
Qed.

Lemma of_int_nearest n r : Float.of_int n = Some r → r = Float.nearest n.
Proof.
  unfold Float.of_int. destruct (Float.nearest n); intros; simplify_eq; done.
Qed.

Lemma is_zero_F2Q r :
  is_finite r = true → (Float.is_zero r = true ↔ (F2Q r == 0)%Q).
Proof.
  destruct r as [s| | |s m e]; try done; intros _.
  split; [intros [=]|]. rewrite F2Q_finite. intros H. exfalso.
    rewrite <- (dy_0 e) in H. apply dy_eq in H. destruct s; simpl in H; lia.
Qed.

Lemma truediv_Some x y : Float.is_zero y = false → Float.truediv x y = Some (SFdiv Float.prec Float.emax x y).
Proof. intros H. unfold Float.truediv. by rewrite H. Qed.




Lemma SFdiv_valid x y : valid (SFdiv Float.prec Float.emax x y).
Proof.
  destruct y as [sy| | |sy my ey]; try by destruct x.
  destruct (is_finite x) eqn:Hf.
  - by apply (faithful_valid _ _ (SFdiv_faithful x sy my ey Hf)).
  - by destruct x.
Qed.


End PyFloat.

(** ** The record assembler *)

(** Reduces the binds of the option monad once their argument is known. *)
Ltac bind_steps := cbn [mbind option_bind].


Section Packing.

Lemma range_0_8 n : Py.range 0 n 8 = (λ k, k * 8)%nat <$> seq 0 ((n + 7) / 8)%nat.
Proof.
  unfold Py.range. replace (n - 0 + 8 - 1)%nat with (n + 7)%nat by lia.
  reflexivity.
Qed.

Lemma int2_reverse l : l ≠ [] → Py.int2 (reverse l) = Some (lsb_value l).
Proof.
  intros Hl. unfold Py.int2.
  destruct (reverse l) eqn:Hr.
  - apply (f_equal length) in Hr. rewrite length_reverse in Hr.
    destruct l; [congruence | discriminate].
  - rewrite <- Hr. clear Hr Hl. f_equal.
    induction l as [|x l IH]; [reflexivity|].
    rewrite reverse_cons, fold_left_app. simpl. rewrite IH. lia.
Qed.

Lemma lsb_value_bound l : 0 ≤ lsb_value l < 2 ^ Z.of_nat (length l).
Proof.
  induction l as [|b l IH]; simpl length; simpl lsb_value; [simpl; lia|].
  rewrite Nat2Z.inj_succ, Z.pow_succ_r by lia. destruct b; simpl Z.b2z; lia.
Qed.

Lemma lsb_value_testbit l j :
  Z.testbit (lsb_value l) (Z.of_nat j) = default false (l !! j).
Proof.
  revert j. induction l as [|b l IH]; intros j; simpl lsb_value.
  - rewrite Z.bits_0. by destruct j.
  - rewrite Z.add_comm. destruct j as [|j].
    + apply Z.testbit_0_r.
    + rewrite Nat2Z.inj_succ, Z.testbit_succ_r by lia. apply IH.
Qed.

Lemma mapM_fmap_pointwise {A B C} (f : B → option C) (g : A → B) (h : A → C) l :
  (∀ x, x ∈ l → f (g x) = Some (h x)) → mapM f (g <$> l) = Some (h <$> l).
Proof.
  intros H. apply mapM_Some. induction l as [|x l IH]; simpl; constructor.
  - apply H. left.
  - apply IH. intros y Hy. apply H. by right.
Qed.


Lemma slice_8_length {A} (bs : list A) i : (i < length bs → 0 < length (Py.slice bs i (i + 8)) ≤ 8)%nat.
Proof.
  intros Hi. unfold Py.slice. rewrite length_take, length_drop. lia.
Qed.

Lemma octet_at_range bs k : 0 ≤ octet_at bs k < 256.
Proof.
  unfold octet_at. pose proof (lsb_value_bound (Py.slice bs (k * 8) (k * 8 + 8))) as H.
  assert (length (Py.slice bs (k * 8) (k * 8 + 8)) ≤ 8)%nat as Hl.
  { unfold Py.slice. rewrite length_take. lia. }
  assert (2 ^ Z.of_nat (length (Py.slice bs (k * 8) (k * 8 + 8))) ≤ 2 ^ 8).
  { apply Z.pow_le_mono_r; lia. }
  change (2 ^ 8) with 256 in *. lia.
Qed.

Lemma octet_at_testbit bs k j :
  (j < 8)%nat →
  Z.testbit (octet_at bs k) (Z.of_nat j) = default false (bs !! (8 * k + j)%nat).
Proof.
  intros Hj. unfold octet_at. rewrite lsb_value_testbit. unfold Py.slice.
  rewrite lookup_take_lt by lia. rewrite lookup_drop. do 2 f_equal. lia.
Qed.

Lemma pack_octets_spec bs :
  pack_octets bs = Some (octet_at bs <$> seq 0 ((length bs + 7) / 8)%nat).
Proof.
  unfold pack_octets. rewrite range_0_8.
  rewrite (mapM_fmap_pointwise _ _ (octet_at bs)).
  - simpl. unfold Py.bytearray.
    rewrite (proj2 (forallb_forall _ _)); [reflexivity|].
    intros x Hx. apply list_elem_of_In, list_elem_of_fmap in Hx as (k & -> & _).
    pose proof (octet_at_range bs k). lia.
  - intros k Hk. apply elem_of_seq in Hk. apply int2_reverse.
    assert (k * 8 < length bs)%nat as Hlt.
    { destruct Hk as [_ Hk].
      pose proof (Nat.div_mod_eq (length bs + 7) 8) as Hd.
      pose proof (Nat.mod_upper_bound (length bs + 7) 8) as Hm.
      revert Hk Hd Hm.
      generalize ((length bs + 7) `div` 8)%nat ((length bs + 7) `mod` 8)%nat.
      lia. }
    apply slice_8_length in Hlt. intros E. rewrite E in Hlt. simpl in Hlt. lia.
Qed.

End Packing.

Section Assembler.

Lemma report_record_is_Some octets : octets ≠ [] → is_Some (report_record octets).
Proof.
  intros Hne. unfold report_record.
  destruct octets as [|x l]; [done|]. simpl lookup. bind_steps.
  unfold Py.last_item.
  destruct (last_is_Some (x :: l)) as [_ [z Hz]]; [done|].
  rewrite Hz. bind_steps. eauto.
Qed.

Lemma report_record_nil : report_record [] = None.
Proof. reflexivity. Qed.

Lemma strip_trailing_zero_length octets :
  octets ≠ [] →
  ∃ rec, strip_trailing_zero octets = Some rec ∧
         (length octets - 1 ≤ length rec ≤ length octets)%nat ∧
         (rec = octets ∨ rec = Py.but_last octets ∧ last octets = Some 0).
Proof.
  intros Hne. unfold strip_trailing_zero, Py.last_item.
  destruct (last_is_Some octets) as [_ [z Hz]]; [done|].
  rewrite Hz. bind_steps.
  destruct (Z.eqb_spec z 0) as [->|Hz0]; eexists; split; try reflexivity.
  - unfold Py.but_last. rewrite length_take. split; [lia|]. right. done.
  - split; [lia|]. by left.
Qed.


Lemma packed_length_ge nbits : (48 ≤ nbits → 6 ≤ packed_length nbits)%nat.
Proof.
  intros H. unfold packed_length.
  pose proof (Nat.div_mod_eq (nbits + 7) 8) as Hd.
  pose proof (Nat.mod_upper_bound (nbits + 7) 8) as Hm.
  revert Hd Hm. generalize ((nbits + 7) `div` 8)%nat ((nbits + 7) `mod` 8)%nat.
  lia.
Qed.

Lemma pack_octets_length bs octets :
  pack_octets bs = Some octets → length octets = packed_length (length bs).
Proof.
  rewrite pack_octets_spec. intros [= <-]. by rewrite length_fmap, length_seq.
Qed.

Lemma add_record_short nbr self :
  (length (bits self) < 48)%nat →
  add_record nbr self = Some (mkTape (tbit self) [] (records self) (nbr_priv self)).
Proof.
  intros H. unfold add_record. by rewrite (proj2 (Nat.ltb_lt _ _) H).
Qed.

Lemma add_record_long nbr self :
  (48 ≤ length (bits self))%nat →
  ∃ octets rec,
    pack_octets (bits self) = Some octets ∧
    strip_trailing_zero octets = Some rec ∧
    (length octets - 1 ≤ length rec ≤ length octets)%nat ∧
    is_Some (report_record rec) ∧
    add_record nbr self =
      Some (mkTape (tbit self) [] (records self ++ [rec]) (nbr_priv self)).
Proof.
  intros H. unfold add_record. rewrite (proj2 (Nat.ltb_ge _ _) H).
  destruct (pack_octets (bits self)) as [octets|] eqn:Hp;
    [|by rewrite pack_octets_spec in Hp].
  pose proof (pack_octets_length _ _ Hp) as Hlen.
  pose proof (packed_length_ge _ H) as H6.
  destruct (strip_trailing_zero_length octets) as (rec & Hs & Hl & _).
  { intros ->. simpl in Hlen. lia. }
  assert (is_Some (report_record rec)) as [text Ht].
  { apply report_record_is_Some. intros ->. simpl in Hl. lia. }
  exists octets, rec. bind_steps. rewrite Hs. bind_steps.
  rewrite Ht. bind_steps. eauto 10.
Qed.

End Assembler.

Section Session.


Lemma add_record_reportable nbr self :
  ∃ self', add_record nbr self = Some self' ∧
           (Forall reportable (records self) → Forall reportable (records self')).
Proof.
  destruct (Nat.lt_ge_cases (length (bits self)) 48) as [Hlt|Hge].
  - rewrite add_record_short by done. eauto.
  - destruct (add_record_long nbr self Hge)
      as (octets & rec & Hp & _ & Hl & Hr & ->).
    eexists; split; [done|]. simpl. intros Hall.
    apply Forall_app; split; [done|]. apply Forall_singleton. split; [|done].
    apply pack_octets_length in Hp. pose proof (packed_length_ge _ Hge). lia.
Qed.

(** What one pass of the loop body can do to the tape, whatever the bit
    time: finalise, and restart on a rising edge; nothing; or append one
    bit. *)
Lemma analyze_edge_shape rate self nbr sign self' :
  analyze_edge rate self (nbr, sign) = Some self' →
  (∃ fin, add_record nbr self = Some fin ∧
          (self' = fin ∨ ∃ seed, self' = mkTape seed [false] (records fin) nbr)) ∨
  self' = self ∨
  (∃ t, self' = mkTape t (bits self ++ [bit_of_sign sign]) (records self) nbr).
Proof.
  unfold analyze_edge.
  destruct (Float.int_mul 4 (tbit self)) as [limit|]; bind_steps; [|done].
  destruct (Float.int_gt _ limit).
  - destruct (add_record nbr self) as [fin|]; bind_steps; [|done].
    intros H. left. exists fin. split; [done|].
    destruct (sign =? 1);
      destruct (Float.int_truediv 0 (tbit fin)); bind_steps; try done.
    + destruct (seed_tbit rate) as [seed|]; bind_steps; [|done].
      injection H as <-. eauto.
    + injection H as <-. by left.
  - destruct (_ && _).
    + destruct (Float.int_truediv _ _); bind_steps; [|done].
      intros [= <-]. auto.
    + destruct (Float.int_truediv _ _); bind_steps; [|done].
      destruct (Float.int_sub _ _); bind_steps; [|done].
      destruct (Float.truediv_int _ _); bind_steps; [|done].
      intros [= <-]. right. right. eauto.
Qed.

Lemma analyze_edge_reportable rate self edge self' :
  analyze_edge rate self edge = Some self' →
  Forall reportable (records self) → Forall reportable (records self').
Proof.
  destruct edge as [nbr sign]. intros H Hall.
  apply analyze_edge_shape in H as [(fin & Hfin & H)|[->|(t & ->)]]; try done.
  destruct (add_record_reportable nbr self) as (fin' & Hfin' & Hr).
  rewrite Hfin in Hfin'. injection Hfin' as <-.
  destruct H as [->|(seed & ->)]; by apply Hr.
Qed.

Lemma analyze_loop_reportable rate track : ∀ self self',
  analyze_loop rate self track = Some self' →
  Forall reportable (records self) → Forall reportable (records self').
Proof.
  induction track as [|edge track IH]; intros self self'; cbn [analyze_loop].
  - by intros [= <-].
  - destruct (analyze_edge rate self edge) as [s1|] eqn:H1; bind_steps; [|done].
    intros Hrun Hall. apply (IH s1 self' Hrun).
    by apply (analyze_edge_reportable rate self edge).
Qed.

Lemma analyze_reportable rate track self :
  analyze rate track = Some self → Forall reportable (records self).
Proof.
  unfold analyze.
  destruct (initial rate) as [s0|] eqn:H0; bind_steps; [|done].
  destruct (analyze_loop rate s0 track) as [s1|] eqn:H1; bind_steps; [|done].
  intros Hfin.
  destruct (add_record_reportable (default 0 (last (fst <$> track))) s1)
    as (s2 & Hs2 & Hr).
  rewrite Hfin in Hs2. injection Hs2 as <-. apply Hr.
  apply (analyze_loop_reportable rate track s0 s1 H1).
  unfold initial in H0. destruct (seed_tbit rate); bind_steps; [|done].
  injection H0 as <-. constructor.
Qed.

End Session.

(** Counterexample to claim C1 as stated: a buffer of 49 one-bits is packed
    into 7 octets, not into floor(49/8) = 6; the 49th bit is not discarded,
    it is the final octet 0x01 of the record that [add_record] appends. *)
Lemma C1_leftover_bits_are_packed :
  (48 ≤ length (replicate 49 true))%nat ∧
  pack_octets (replicate 49 true) = Some [255; 255; 255; 255; 255; 255; 1] ∧
  length [255; 255; 255; 255; 255; 255; 1] ≠ (length (replicate 49 true) / 8)%nat ∧
  add_record 0 (mkTape seed_44100 (replicate 49 true) [] 0) =
    Some (mkTape seed_44100 [] [[255; 255; 255; 255; 255; 255; 1]] 0).
Proof. vm_compute. repeat split; (lia || discriminate). Qed.

(** Claim C1, as amended: a finalised buffer of N >= 48 bits is packed,
    before the trailing zero octet is stripped, into exactly ceil(N/8)
    octets; octet k holds the bits 8k .. 8k+7 of the buffer, the first
    collected bit lowest; the N mod 8 leftover bits are not dropped, they
    are the low bits of one more octet whose missing high bits are 0; the
    record appended is that octet list after stripping. *)
Theorem C1_packing_rounds_up nbr self :
  (48 ≤ length (bits self))%nat →
  ∃ octets rec,
    pack_octets (bits self) = Some octets ∧
    strip_trailing_zero octets = Some rec ∧
    add_record nbr self =
      Some (mkTape (tbit self) [] (records self ++ [rec]) (nbr_priv self)) ∧
    length octets = ((length (bits self) + 7) / 8)%nat ∧
    ∀ k, (k < length octets)%nat →
      ∃ v, octets !! k = Some v ∧ 0 ≤ v < 256 ∧
           ∀ j, (j < 8)%nat →
             Z.testbit v (Z.of_nat j) = default false (bits self !! (8 * k + j)%nat).
Proof.
  intros H48.
  destruct (add_record_long nbr self H48) as (octets & rec & Hp & Hs & _ & _ & Ha).
  exists octets, rec. repeat split; try done.
  - by apply pack_octets_length.
  - intros k Hk. rewrite pack_octets_spec in Hp. injection Hp as <-.
    rewrite length_fmap, length_seq in Hk.
    exists (octet_at (bits self) k). split; [|split].
    + rewrite list_lookup_fmap, lookup_seq_lt by done. reflexivity.
    + apply octet_at_range.
    + intros j Hj. by apply octet_at_testbit.
Qed.

(** The amended claim C1 at a buffer of 49 bits. *)
Lemma C1_packing_rounds_up_witness :
  (48 ≤ length (bits (mkTape seed_44100 (replicate 49 true) [] 0)))%nat ∧
  ∃ octets rec,
    pack_octets (bits (mkTape seed_44100 (replicate 49 true) [] 0)) = Some octets ∧
    strip_trailing_zero octets = Some rec ∧
    add_record 7 (mkTape seed_44100 (replicate 49 true) [] 0) =
      Some (mkTape seed_44100 [] ([] ++ [rec]) 0) ∧
    length octets = ((length (bits (mkTape seed_44100 (replicate 49 true) [] 0)) + 7) / 8)%nat ∧
    ∀ k, (k < length octets)%nat →
      ∃ v, octets !! k = Some v ∧ 0 ≤ v < 256 ∧
           ∀ j, (j < 8)%nat →
             Z.testbit v (Z.of_nat j) =
               default false (bits (mkTape seed_44100 (replicate 49 true) [] 0) !! (8 * k + j)%nat).
Proof.
  assert (48 ≤ length (bits (mkTape seed_44100 (replicate 49 true) [] 0)))%nat as H
    by (vm_compute; lia).
  split; [exact H|].
  exact (C1_packing_rounds_up 7 (mkTape seed_44100 (replicate 49 true) [] 0) H).
Defined.

(** Claim C2: [add_record] succeeds on every buffer and clears it; it
    appends one record exactly when the buffer holds at least 48 bits and
    leaves the record list alone exactly when it holds fewer; 47 bits give
    no record, 48 bits give one record of at most 6 octets. *)
Theorem C2_add_record_threshold nbr self :
  ∃ self',
    add_record nbr self = Some self' ∧
    bits self' = [] ∧ tbit self' = tbit self ∧ nbr_priv self' = nbr_priv self ∧
    ((48 ≤ length (bits self))%nat ↔ ∃ rec, records self' = records self ++ [rec]) ∧
    ((length (bits self) < 48)%nat ↔ records self' = records self) ∧
    (length (bits self) = 47%nat → records self' = records self) ∧
    (length (bits self) = 48%nat →
       ∃ rec, records self' = records self ++ [rec] ∧ (length rec ≤ 6)%nat).
Proof.
  destruct (Nat.lt_ge_cases (length (bits self)) 48) as [Hlt|Hge].
  - rewrite add_record_short by done. eexists; split; [done|]. simpl.
    repeat split; try done; try lia.
    intros [rec Hrec]. apply (f_equal length) in Hrec.
    rewrite length_app in Hrec. simpl in Hrec. lia.
  - destruct (add_record_long nbr self Hge) as (octets & rec & Hp & _ & Hl & _ & ->).
    eexists; split; [done|]. simpl. repeat split; try done; try lia; eauto.
    + intros Hrec. apply (f_equal length) in Hrec.
      rewrite length_app in Hrec. simpl in Hrec. lia.
    + intros H48. exists rec. split; [done|].
      apply pack_octets_length in Hp. rewrite H48 in Hp. change (packed_length 48) with 6%nat in Hp. lia.
Qed.

(** ** The bit synchroniser *)

Section Synchroniser.

Lemma two_eq : two = S754_finite false 4503599627370496 (-51).
Proof. reflexivity. Qed.

Lemma four_eq : four = S754_finite false 4503599627370496 (-50).
Proof. reflexivity. Qed.

Lemma BPS_eq : BPS = S754_finite false 7916483719987200 (-45).
Proof. reflexivity. Qed.

Lemma F2Q_two : (F2Q two == 2)%Q.
Proof. apply (nearest_exact 2). simpl. lia. Qed.


Lemma F2Q_BPS : (F2Q BPS == 225)%Q.
Proof.
  rewrite BPS_eq, F2Q_finite. cbn [cond_Zopp].
  change 7916483719987200 with (225 * 2 ^ 45).
  rewrite (dy_shift 225 (-45) 45) by lia. apply dy_int.
Qed.



Lemma int_mul_4 t : Float.int_mul 4 t = Some (Float.mul four t).
Proof. unfold Float.int_mul. by rewrite of_int_exact by (simpl; lia). Qed.

(** The quotient [pulse_width / self.tbit] of a debug line is defined when
    the width has a double of its own and the bit time is not zero. *)
Lemma int_truediv_is_Some w t :
  Z.abs w < 2 ^ 53 → Float.is_zero t = false → is_Some (Float.int_truediv w t).
Proof.
  intros Hw Hz. unfold Float.int_truediv. rewrite of_int_exact by done. bind_steps.
  by rewrite truediv_Some.
Qed.

Lemma int_truediv_zero w t : Float.is_zero t = true → Float.int_truediv w t = None.
Proof.
  intros Hz. unfold Float.int_truediv, Float.truediv.
  destruct (Float.of_int w); bind_steps; [by rewrite Hz|done].
Qed.

Lemma seed_tbit_eq rate :
  Z.abs rate < 2 ^ 53 →
  seed_tbit rate = Some (SFdiv Float.prec Float.emax (Float.nearest rate) BPS).
Proof.
  intros H. unfold seed_tbit, Float.int_truediv. rewrite of_int_exact by done.
  bind_steps. by rewrite truediv_Some.
Qed.


Lemma seed_44100_eq : seed_tbit 44100 = Some seed_44100.
Proof. reflexivity. Qed.

Lemma analyze_edge_boundary rate self nbr sign :
  classify self nbr = Boundary →
  analyze_edge rate self (nbr, sign) =
    fin ← add_record nbr self;
    _ ← Float.int_truediv 0 (tbit fin);
    if sign =? 1 then
      seed ← seed_tbit rate;
      Some (mkTape seed [false] (records fin) nbr)
    else Some fin.
Proof.
  unfold classify, analyze_edge, pulse_width. rewrite int_mul_4. bind_steps.
  destruct (Float.int_gt _ _).
  - intros _. destruct (add_record nbr self); bind_steps; [|done]. by destruct (sign =? 1).
  - by destruct (_ && _).
Qed.

Lemma analyze_edge_glitch rate self nbr sign :
  classify self nbr = Glitch →
  analyze_edge rate self (nbr, sign) =
    _ ← Float.int_truediv (pulse_width self nbr) (tbit self); Some self.
Proof.
  unfold classify, analyze_edge, pulse_width. rewrite int_mul_4. bind_steps.
  destruct (Float.int_gt _ _); [done|]. by destruct (_ && _).
Qed.

Lemma analyze_edge_data rate self nbr sign :
  classify self nbr = Data →
  analyze_edge rate self (nbr, sign) =
    _ ← Float.int_truediv (pulse_width self nbr) (tbit self);
    diff ← Float.int_sub (pulse_width self nbr) (tbit self);
    step ← Float.truediv_int diff AVG;
    Some (mkTape (Float.add (tbit self) step) (bits self ++ [bit_of_sign sign])
                 (records self) nbr).
Proof.
  unfold classify, analyze_edge, pulse_width. rewrite int_mul_4. bind_steps.
  destruct (Float.int_gt _ _); [done|]. by destruct (_ && _).
Qed.

(** The data case on a width that has a double and a bit time that is not
    zero. *)
Lemma analyze_edge_update rate self nbr sign :
  classify self nbr = Data →
  Z.abs (pulse_width self nbr) < 2 ^ 53 → Float.is_zero (tbit self) = false →
  analyze_edge rate self (nbr, sign) =
    Some (mkTape (update (tbit self) (pulse_width self nbr))
                 (bits self ++ [bit_of_sign sign]) (records self) nbr).
Proof.
  intros Hc Hw Hz. rewrite analyze_edge_data by done.
  destruct (int_truediv_is_Some _ _ Hw Hz) as [q ->]. bind_steps.
  unfold Float.int_sub. rewrite of_int_exact by done. bind_steps.
  unfold Float.truediv_int, AVG. rewrite of_int_exact by (simpl; lia). bind_steps.
  by rewrite truediv_Some.
Qed.

Lemma assembled_spec bs octets rec :
  pack_octets bs = Some octets → strip_trailing_zero octets = Some rec →
  rec = assembled bs.
Proof.
  rewrite pack_octets_spec. intros [= <-]. unfold strip_trailing_zero, assembled.
  unfold Py.last_item, packed_length.
  destruct (last _) as [z|]; bind_steps; [|done]. intros [= <-].
  destruct (Z.eqb_spec z 0) as [->|Hz]; [done|]. by destruct z.
Qed.

Lemma add_record_finalized nbr self :
  add_record nbr self =
    Some (mkTape (tbit self) [] (records self ++ finalized (bits self)) (nbr_priv self)).
Proof.
  unfold finalized. destruct (Nat.ltb_spec (length (bits self)) 48) as [Hlt|Hge].
  - rewrite add_record_short by done. by rewrite app_nil_r.
  - destruct (add_record_long nbr self Hge) as (octets & rec & Hp & Hs & _ & _ & ->).
    by rewrite (assembled_spec _ _ _ Hp Hs).
Qed.

Lemma add_record_fields nbr self self' :
  add_record nbr self = Some self' →
  tbit self' = tbit self ∧ nbr_priv self' = nbr_priv self ∧ bits self' = [].
Proof. rewrite add_record_finalized. by intros [= <-]. Qed.

Lemma analyze_edge_nbr_priv rate self nbr sign self' :
  analyze_edge rate self (nbr, sign) = Some self' →
  nbr_priv self' = nbr_priv self ∨ nbr_priv self' = nbr.
Proof.
  intros H. apply analyze_edge_shape in H as [(fin & Hfin & H)|[->|(t & ->)]]; auto.
  apply add_record_fields in Hfin as (_ & Hn & _).
  destruct H as [->|(seed & ->)]; auto.
Qed.






Lemma initial_fields rate s0 :
  initial rate = Some s0 → bits s0 = [] ∧ records s0 = [] ∧ nbr_priv s0 = 0.
Proof.
  unfold initial. destruct (seed_tbit rate); bind_steps; [|done]. by intros [= <-].
Qed.

(** The three steps of [analyze]. *)
Lemma analyze_steps rate track self :
  analyze rate track = Some self →
  ∃ s0 s1,
    initial rate = Some s0 ∧ analyze_loop rate s0 track = Some s1 ∧
    add_record (default 0 (last (fst <$> track))) s1 = Some self.
Proof.
  unfold analyze.
  destruct (initial rate) as [s0|]; bind_steps; [|done].
  destruct (analyze_loop rate s0 track) as [s1|] eqn:H1; bind_steps; [|done].
  intros Hfin. by exists s0, s1.
Qed.



End Synchroniser.





(** ** The smoothing of the bit time *)

Section Smoothing.

Lemma dy_half m e : (dy m e / 2 == dy m (e - 1))%Q.
Proof.
  unfold dy. replace (e - 1) with (e + -1) by lia. rewrite pow2_add.
  assert (pow2 (-1) == 1 / 2)%Q as -> by reflexivity. field.
Qed.

Lemma dy_add a b e : (dy a e + dy b e == dy (a + b) e)%Q.
Proof. unfold dy. rewrite inject_Z_plus. ring. Qed.

Lemma dy_sub a b e : (dy a e - dy b e == dy (a - b) e)%Q.
Proof. unfold dy, Z.sub. rewrite inject_Z_plus, inject_Z_opp. ring. Qed.

Lemma int_as_dy w k : 0 ≤ k → (inject_Z w == dy (w * 2 ^ k) (- k))%Q.
Proof.
  intros Hk. rewrite <- dy_int. rewrite (dy_align w 0 (- k)) by lia.
  by replace (0 - - k) with k by lia.
Qed.

(** While the average of the bit time [a / 2^k] and the width [w] has a
    double of its own, the three operations of the update round nothing
    and the new bit time is that average. *)
Lemma update_exact t w a k :
  valid t → is_finite t = true → (F2Q t == dy a (- k))%Q →
  0 ≤ k ≤ 1073 → Z.abs a < 2 ^ 52 → Z.abs w * 2 ^ k < 2 ^ 52 →
  valid (update t w) ∧ is_finite (update t w) = true ∧
  (F2Q (update t w) == dy (a + w * 2 ^ k) (- (k + 1)))%Q.
Proof.
  intros Hv Hf Ht Hk Ha Hw.
  assert (0 < 2 ^ k) as Hpk by (apply Z.pow_pos_nonneg; lia).
  assert (Z.abs w < 2 ^ 53) as Hw53 by nia.
  destruct (nearest_exact w Hw53) as (Hvp & Hfp & Hp).
  pose proof (SFsub_faithful (Float.nearest w) t Hvp Hv Hfp Hf) as Hdiff.
  fold (Float.sub (Float.nearest w) t) in Hdiff.
  set (diff := Float.sub (Float.nearest w) t) in *.
  assert (F2Q (Float.nearest w) - F2Q t == dy (w * 2 ^ k - a) (- k))%Q as Hx1.
  { rewrite Hp, Ht, (int_as_dy w k) by lia. apply dy_sub. }
  rewrite Hx1 in Hdiff.
  apply faithful_exact in Hdiff as [Hfd Hd]; [|apply double_dy; lia].
  pose proof (SFdiv_faithful diff false 4503599627370496 (-51) Hfd) as Hstep.
  rewrite <- two_eq in Hstep.
  set (step := SFdiv Float.prec Float.emax diff two) in *.
  assert (F2Q diff / F2Q two == dy (w * 2 ^ k - a) (- (k + 1)))%Q as Hx2.
  { rewrite Hd, F2Q_two, dy_half. by replace (- k - 1) with (- (k + 1)) by lia. }
  rewrite Hx2 in Hstep.
  pose proof (SFdiv_valid diff two) as Hvs. fold step in Hvs.
  apply faithful_exact in Hstep as [Hfs Hs]; [|apply double_dy; lia].
  pose proof (SFadd_faithful t step Hv Hvs Hf Hfs) as Hsum.
  fold (Float.add t step) in Hsum. fold (update t w) in Hsum.
  assert (F2Q t + F2Q step == dy (a + w * 2 ^ k) (- (k + 1)))%Q as Hx3.
  { rewrite Ht, Hs. rewrite (dy_align a (- k) (- (k + 1))) by lia.
    replace (- k - - (k + 1)) with 1 by lia. rewrite dy_add. apply dy_eq.
    change (2 ^ 1) with 2. lia. }
  rewrite Hx3 in Hsum.
  split; [by apply (faithful_valid _ _ Hsum)|].
  apply faithful_exact; [done|]. apply double_dy; lia.
Qed.

Lemma update_halves t w a k :
  (F2Q t == dy a (- k))%Q → 0 ≤ k →
  (F2Q (update t w) == dy (a + w * 2 ^ k) (- (k + 1)))%Q →
  ((F2Q (update t w) - inject_Z w) * 2 == F2Q t - inject_Z w)%Q.
Proof.
  intros Ht Hk Hu. rewrite Hu, Ht.
  rewrite (int_as_dy w (k + 1)) by lia.
  rewrite (dy_align a (- k) (- (k + 1))) by lia.
  replace (- k - - (k + 1)) with 1 by lia. rewrite !dy_sub.
  assert (∀ m e, dy m e * 2 == dy (m * 2) e)%Q as Hdbl.
  { intros m e. unfold dy. rewrite inject_Z_mult.
    assert (inject_Z 2 == 2)%Q as -> by reflexivity. ring. }
  rewrite Hdbl. apply dy_eq.
  rewrite Z.pow_add_r by lia. change (2 ^ 1) with 2. lia.
Qed.

Lemma steady_exact rate T track : ∀ self a k B,
  steady rate T self track = true →
  valid (tbit self) → is_finite (tbit self) = true →
  (F2Q (tbit self) == dy a (- k))%Q → 0 ≤ k →
  k + Z.of_nat (length (accepted rate self track)) ≤ 1074 →
  Z.abs a ≤ B → Z.abs T * 2 ^ k ≤ B →
  B * 2 ^ Z.of_nat (length (accepted rate self track)) ≤ 2 ^ 52 →
  ∃ self',
    analyze_loop rate self track = Some self' ∧
    bits self' = bits self ++ (bit_of_sign <$> accepted rate self track) ∧
    records self' = records self ∧
    tbit self' =
      Nat.iter (length (accepted rate self track)) (λ t, update t T) (tbit self) ∧
    valid (tbit self') ∧ is_finite (tbit self') = true ∧
    ((F2Q (tbit self') - inject_Z T)
       * inject_Z (2 ^ Z.of_nat (length (accepted rate self track)))
     == F2Q (tbit self) - inject_Z T)%Q.
Proof.
  induction track as [|[nbr sign] track IH]; intros self a k B Hst Hv Hf Ht Hk Hkn Ha HT HB.
  - exists self. cbn [analyze_loop accepted fmap list_fmap length Nat.iter].
    rewrite app_nil_r. repeat split; try done.
    change (inject_Z (2 ^ Z.of_nat 0)) with 1%Q. ring.
  - cbn [steady accepted analyze_loop] in *.
    destruct (classify self nbr) eqn:Hc; [done| |];
      destruct (analyze_edge rate self (nbr, sign)) as [s1|] eqn:H1; try done;
      bind_steps.
    + (* glitch *)
      assert (s1 = self) as ->.
      { rewrite analyze_edge_glitch in H1 by done.
        destruct (Float.int_truediv _ _); bind_steps; [|done]. by injection H1. }
      by apply (IH self a k B).
    + (* data *)
      apply andb_true_iff in Hst as [HTw Hst]. apply Z.eqb_eq in HTw.
      cbn [length] in Hkn, HB. rewrite Nat2Z.inj_succ in Hkn, HB.
      rewrite Z.pow_succ_r in HB by lia.
      set (n := Z.of_nat (length (accepted rate s1 track))) in *.
      assert (0 ≤ n) as Hn0 by (subst n; lia).
      assert (0 < 2 ^ k) as Hpk by (apply Z.pow_pos_nonneg; lia).
      assert (0 < 2 ^ n) as Hpn by (apply Z.pow_pos_nonneg; lia).
      assert (B < 2 ^ 52) as HB52 by nia.
      assert (Float.is_zero (tbit self) = false) as Hz.
      { destruct (Float.is_zero (tbit self)) eqn:Hz; [|done].
        rewrite analyze_edge_data in H1 by done.
        by rewrite (int_truediv_zero _ _ Hz) in H1. }
      rewrite analyze_edge_update in H1 by (try done; rewrite HTw; nia).
      rewrite HTw in H1.
      assert (tbit s1 = update (tbit self) T ∧
              bits s1 = bits self ++ [bit_of_sign sign] ∧
              records s1 = records self) as (Hts & Hbs & Hrs)
        by (by injection H1 as <-).
      destruct (update_exact (tbit self) T a k Hv Hf Ht ltac:(lia) ltac:(lia) ltac:(lia))
        as (Hv' & Hf' & Ht').
      rewrite <- Hts in Hv', Hf'.
      assert (F2Q (tbit s1) == dy (a + T * 2 ^ k) (- (k + 1)))%Q as Ht1
        by (by rewrite Hts).
      assert (Z.abs T * 2 ^ (k + 1) ≤ 2 * B) as HT'.
      { rewrite Z.pow_add_r by lia. change (2 ^ 1) with 2. lia. }
      assert (2 * B * 2 ^ n ≤ 2 ^ 52) as HB' by lia.
      assert (Z.abs (a + T * 2 ^ k) ≤ 2 * B) as Ha'.
      { pose proof (Z.abs_triangle a (T * 2 ^ k)) as Htri.
        rewrite Z.abs_mul, (Z.abs_eq (2 ^ k)) in Htri by lia. lia. }
      assert (0 ≤ k + 1) as Hk' by lia.
      assert (k + 1 + n ≤ 1074) as Hkn' by lia.
      destruct (IH s1 (a + T * 2 ^ k) (k + 1) (2 * B) Hst Hv' Hf' Ht1 Hk' Hkn' Ha' HT' HB')
        as (self' & Hrun & Hb & Hr & Hit & Hv'' & Hf'' & Hdist).
      exists self'. split; [done|].
      split; [by rewrite Hb, Hbs, <- app_assoc|]. split; [by rewrite Hr|].
      cbn [length].
      split; [by rewrite Nat.iter_succ_r, Hit, Hts|]. split; [done|]. split; [done|].
      rewrite Nat2Z.inj_succ, Z.pow_succ_r by lia. fold n.
      rewrite inject_Z_mult.
      rewrite <- (update_halves (tbit self) T a k Ht ltac:(lia) Ht'), <- Hts, <- Hdist.
      subst n. assert (inject_Z 2 == 2)%Q as -> by reflexivity. ring.
Qed.

End Smoothing.

(** Counterexample to claim C9 as stated: on edges 100 samples apart at
    44100 samples per second every edge is accepted as data, and after 51
    of them the bit time is 3 units of 2^-46 above 100; the 52nd update
    rounds, the bit time is then 2 units above 100: the distance is not
    halved, and the new bit time is not the average of the old one and the
    width. *)
Lemma C9_rounding_stops_the_halving :
  ∃ self0 self51 self52,
    initial 44100 = Some self0 ∧
    analyze_loop 44100 self0 (pulse_train 100 51) = Some self51 ∧
    steady 44100 100 self0 (pulse_train 100 52) = true ∧
    length (accepted 44100 self0 (pulse_train 100 52)) = 52%nat ∧
    classify self51 5200 = Data ∧ pulse_width self51 5200 = 100 ∧
    analyze_edge 44100 self51 (5200, -1) = Some self52 ∧
    (Qabs (F2Q (tbit self51) - 100) == 3 * pow2 (-46))%Q ∧
    (Qabs (F2Q (tbit self52) - 100) == 2 * pow2 (-46))%Q ∧
    ¬ (F2Q (tbit self52) == (F2Q (tbit self51) + 100) / 2)%Q.
Proof.
  exists (mkTape seed_44100 [] [] 0).
  eexists. eexists. split; [reflexivity|].
  split; [vm_compute; reflexivity|].
  split; [vm_compute; reflexivity|]. split; [vm_compute; reflexivity|].
  split; [vm_compute; reflexivity|]. split; [vm_compute; reflexivity|].
  split; [vm_compute; reflexivity|].
  split; [vm_compute; reflexivity|]. split; [vm_compute; reflexivity|].
  vm_compute. intros H. discriminate H.
Qed.

(** Claim C9, for the doubles that the program computes with: in the data
    case the new bit time is [update], the sum [tbit + (pulse_width - tbit)
    / 2] with each of its three operations rounded. Over a stream without
    boundary edges whose accepted pulse widths all equal [T], run from a
    bit time [a / 2^k], the updates round nothing as long as
    [max (|a|, |T| 2^k) * 2^n <= 2^52] for the number [n] of accepted
    edges: then each accepted edge appends its bit and halves the distance
    of the bit time to [T], which after the [n] edges is the initial
    distance divided by [2^n]. *)
Theorem C9_estimate_halves_towards_pulse_width rate T track self a k :
  steady rate T self track = true →
  valid (tbit self) → is_finite (tbit self) = true →
  (F2Q (tbit self) == dy a (- k))%Q → 0 ≤ k →
  k + Z.of_nat (length (accepted rate self track)) ≤ 1074 →
  Z.max (Z.abs a) (Z.abs T * 2 ^ k)
    * 2 ^ Z.of_nat (length (accepted rate self track)) ≤ 2 ^ 52 →
  (∀ s nbr sign,
     classify s nbr = Data →
     Z.abs (pulse_width s nbr) < 2 ^ 53 → Float.is_zero (tbit s) = false →
     analyze_edge rate s (nbr, sign) =
       Some (mkTape (update (tbit s) (pulse_width s nbr))
                    (bits s ++ [bit_of_sign sign]) (records s) nbr)) ∧
  ∃ self',
    analyze_loop rate self track = Some self' ∧
    bits self' = bits self ++ (bit_of_sign <$> accepted rate self track) ∧
    tbit self' =
      Nat.iter (length (accepted rate self track)) (λ t, update t T) (tbit self) ∧
    is_finite (tbit self') = true ∧
    ((F2Q (tbit self') - inject_Z T)
       * inject_Z (2 ^ Z.of_nat (length (accepted rate self track)))
     == F2Q (tbit self) - inject_Z T)%Q ∧
    (Qabs (F2Q (tbit self') - inject_Z T)
       * inject_Z (2 ^ Z.of_nat (length (accepted rate self track)))
     == Qabs (F2Q (tbit self) - inject_Z T))%Q.
Proof.
  intros Hst Hv Hf Ht Hk Hkn HB. split.
  - intros s nbr sign. apply analyze_edge_update.
  - destruct (steady_exact rate T track self a k _ Hst Hv Hf Ht Hk Hkn
                (Z.le_max_l _ _) (Z.le_max_r _ _) HB)
      as (self' & Hrun & Hb & _ & Hit & _ & Hf' & Hdist).
    exists self'. repeat (split; [done|]).
    rewrite <- Hdist, Qabs_Qmult. apply Qmult_comp; [reflexivity|].
    symmetry. apply Qabs_pos. change 0%Q with (inject_Z 0). rewrite <- Zle_Qle.
    apply Z.pow_nonneg. lia.
Qed.

(** Claim C9 on 20 edges 100 samples apart, from the seed 196 of 44100
    samples per second. *)
Lemma C9_estimate_halves_towards_pulse_width_witness :
  steady 44100 100 (mkTape seed_44100 [] [] 0) (pulse_train 100 20) = true ∧
  valid seed_44100 ∧ is_finite seed_44100 = true ∧
  (F2Q seed_44100 == dy 196 (- 0))%Q ∧ 0 ≤ 0 ∧
  0 + Z.of_nat (length (accepted 44100 (mkTape seed_44100 [] [] 0) (pulse_train 100 20)))
    ≤ 1074 ∧
  Z.max (Z.abs 196) (Z.abs 100 * 2 ^ 0)
    * 2 ^ Z.of_nat (length (accepted 44100 (mkTape seed_44100 [] [] 0) (pulse_train 100 20)))
    ≤ 2 ^ 52 ∧
  ∃ self',
    analyze_loop 44100 (mkTape seed_44100 [] [] 0) (pulse_train 100 20) = Some self' ∧
    length (bits self') = 20%nat ∧
    ((F2Q (tbit self') - 100) * inject_Z (2 ^ 20) == 196 - 100)%Q.
Proof.
  assert (steady 44100 100 (mkTape seed_44100 [] [] 0) (pulse_train 100 20) = true)
    as H1 by (vm_compute; reflexivity).
  assert (valid seed_44100) as H2 by reflexivity.
  assert (is_finite seed_44100 = true) as H3 by reflexivity.
  assert (F2Q seed_44100 == dy 196 (- 0))%Q as H4 by (vm_compute; reflexivity).
  assert (0 ≤ 0) as H5 by lia.
  assert (length (accepted 44100 (mkTape seed_44100 [] [] 0) (pulse_train 100 20)) = 20%nat)
    as Hn by (vm_compute; reflexivity).
  assert (0 + Z.of_nat (length (accepted 44100 (mkTape seed_44100 [] [] 0)
                                  (pulse_train 100 20))) ≤ 1074)
    as H6 by (rewrite Hn; simpl; lia).
  assert (Z.max (Z.abs 196) (Z.abs 100 * 2 ^ 0)
            * 2 ^ Z.of_nat (length (accepted 44100 (mkTape seed_44100 [] [] 0)
                                      (pulse_train 100 20))) ≤ 2 ^ 52)
    as H7 by (rewrite Hn; vm_compute; discriminate).
  split; [exact H1|]. split; [exact H2|]. split; [exact H3|]. split; [exact H4|].
  split; [exact H5|]. split; [exact H6|]. split; [exact H7|].
  destruct (C9_estimate_halves_towards_pulse_width 44100 100 (pulse_train 100 20)
              (mkTape seed_44100 [] [] 0) 196 0 H1 H2 H3 H4 H5 H6 H7)
    as (_ & self' & Hrun & Hb & _ & _ & Hd & _).
  exists self'. split; [exact Hrun|]. split.
  - rewrite Hb, length_app, length_fmap, Hn. reflexivity.
  - rewrite Hn in Hd. cbn [tbit] in Hd. rewrite Hd.
    assert (F2Q seed_44100 == 196)%Q as -> by (vm_compute; reflexivity). reflexivity.
Defined.

(** ** The bit time stays a positive double *)

Section BitTime.
Import CometTape.

Lemma double_pow2 e : -1074 ≤ e ≤ 971 → double (pow2 e).
Proof.
  intros He. assert (pow2 e == dy 1 e)%Q as -> by (unfold dy; ring).
  apply double_dy; [simpl; lia|done].
Qed.

Lemma double_0 : double 0.
Proof. apply (double_int 0). simpl. lia. Qed.

Lemma Qle_0_inject n : 0 ≤ n → (0 <= inject_Z n)%Q.
Proof. intros H. change 0%Q with (inject_Z 0). by rewrite <- Zle_Qle. Qed.

Lemma half_double t :
  valid t → is_finite t = true → (pow2 (-9) <= F2Q t)%Q → double (F2Q t / 2).
Proof.
  intros Hv Hf Hlo. pose proof (pow2_pos (-9)) as Hp.
  destruct t as [s| | |s m e]; try done.
  destruct (valid_finite s m e Hv) as (He & Hm & _).
  rewrite F2Q_finite in Hlo |- *. rewrite dy_half.
  destruct s.
  { exfalso. cbn [cond_Zopp] in Hlo. rewrite dy_opp in Hlo.
    pose proof (dy_pos (Z.pos m) e ltac:(lia)). lra. }
  cbn [cond_Zopp] in *. apply double_dy; [simpl; lia|].
  destruct (Z.eq_dec e (-1074)) as [->|?]; [|lia]. exfalso.
  assert (pow2 (-9) == dy 1 (-9))%Q as Hp9 by (unfold dy; ring).
  rewrite Hp9, (dy_align 1 (-9) (-1074)) in Hlo by lia.
  apply dy_le in Hlo.
  assert (2 ^ 53 < 2 ^ (-9 - -1074)) by (apply Z.pow_lt_mono_r; lia). lia.
Qed.

Lemma sane_not_zero t : sane t → Float.is_zero t = false.
Proof.
  intros (_ & Hf & Hlo & _). destruct (Float.is_zero t) eqn:Hz; [|done].
  apply (is_zero_F2Q t Hf) in Hz. pose proof (pow2_pos (-9)). lra.
Qed.

(** The seed of the bit time for a rate that has a double. *)
Lemma seed_sane rate :
  0 < rate < 2 ^ 53 →
  ∃ seed, seed_tbit rate = Some seed ∧ sane seed ∧ (pow2 (-8) <= F2Q seed)%Q.
Proof.
  intros Hr. rewrite seed_tbit_eq by lia. eexists. split; [done|].
  destruct (nearest_exact rate ltac:(lia)) as (_ & Hfr & Hvr).
  pose proof (SFdiv_faithful (Float.nearest rate) false 7916483719987200 (-45) Hfr) as Hf.
  rewrite <- BPS_eq in Hf. rewrite Hvr, F2Q_BPS in Hf.
  assert (1 <= inject_Z rate)%Q as H1 by (change 1%Q with (inject_Z 1); rewrite <- Zle_Qle; lia).
  assert (inject_Z rate <= inject_Z (2 ^ 53))%Q as H2 by (rewrite <- Zle_Qle; lia).
  assert (pow2 (-8) == 1 # 256)%Q as Hp8 by reflexivity.
  assert (pow2 (-9) == 1 # 512)%Q as Hp9 by reflexivity.
  assert (pow2 46 == inject_Z (2 ^ 46))%Q as Hp46 by (apply pow2_Z; lia).
  assert (pow2 54 == inject_Z (2 ^ 54))%Q as Hp54 by (apply pow2_Z; lia).
  assert (inject_Z (2 ^ 53) == 128 * inject_Z (2 ^ 46))%Q as H53.
  { assert (128 == inject_Z 128)%Q as -> by reflexivity.
    rewrite <- inject_Z_mult. reflexivity. }
  assert (inject_Z (2 ^ 54) == 256 * inject_Z (2 ^ 46))%Q as H54.
  { assert (256 == inject_Z 256)%Q as -> by reflexivity.
    rewrite <- inject_Z_mult. reflexivity. }
  assert (0 < inject_Z (2 ^ 46))%Q as H46 by (change 0%Q with (inject_Z 0); by rewrite <- Zlt_Qlt).
  destruct (faithful_bounds _ _ (pow2 (-8)) (pow2 46) Hf) as (Hfin & Hlo & Hhi).
  - apply double_pow2. lia.
  - apply double_pow2. lia.
  - rewrite Hp8. apply Qle_shift_div_l; [reflexivity|]. lra.
  - rewrite Hp46. apply Qle_shift_div_r; [reflexivity|]. lra.
  - split; [|done]. split; [apply SFdiv_valid|]. split; [done|].
    rewrite Hp9, Hp54. rewrite Hp8 in Hlo. rewrite Hp46 in Hhi. split; lra.
Qed.

(** The update of the data case keeps the bit time sane: the new bit time
    is not below the old one when the width is not, and not below half the
    old one otherwise; it is at most the larger of the old one and twice
    the width. *)
Lemma update_sane t w :
  sane t → 0 ≤ w < 2 ^ 53 → (w = 0 → (pow2 (-8) <= F2Q t)%Q) → sane (update t w).
Proof.
  intros (Hv & Hf & Hlo & Hhi) Hw Hw0.
  assert (pow2 (-8) == 1 # 256)%Q as Hp8 by reflexivity.
  assert (pow2 (-9) == 1 # 512)%Q as Hp9 by reflexivity.
  assert (pow2 54 == inject_Z (2 ^ 54))%Q as Hp54 by (apply pow2_Z; lia).
  assert (0 <= inject_Z w)%Q as Hw' by (apply Qle_0_inject; lia).
  assert (2 * inject_Z w <= inject_Z (2 ^ 54))%Q as Hw2.
  { assert (2 == inject_Z 2)%Q as -> by reflexivity.
    rewrite <- inject_Z_mult, <- Zle_Qle. change (2 ^ 54) with (2 * 2 ^ 53). lia. }
  destruct (nearest_exact w ltac:(lia)) as (Hvp & Hfp & Hp).
  pose proof (SFsub_faithful (Float.nearest w) t Hvp Hv Hfp Hf) as Hdiff.
  fold (Float.sub (Float.nearest w) t) in Hdiff. rewrite Hp in Hdiff.
  set (diff := Float.sub (Float.nearest w) t) in *.
  pose proof (valid_double t Hv Hf) as Hdt.
  pose proof (double_int w ltac:(lia)) as Hdw.
  pose proof double_0 as Hd0.
  assert (∀ x, x / 2 == x * (1 # 2))%Q as Hhalf by (intros x; field).
  assert (∀ lo hi, double lo → double hi → (0 <= hi)%Q →
            (lo <= inject_Z w - F2Q t)%Q → (inject_Z w - F2Q t <= hi)%Q →
            double (lo * (1 # 2)) →
            ∃ step, update t w = Float.add t step ∧
                    (lo * (1 # 2) <= F2Q step)%Q ∧ (F2Q step <= hi)%Q ∧
                    faithful (F2Q t + F2Q step) (Float.add t step)) as Hgen.
  { intros lo hi Hdlo Hdhi Hhi0 Hl Hh Hdl2.
    destruct (faithful_bounds _ _ lo hi Hdiff Hdlo Hdhi Hl Hh) as (Hfd & Hd1 & Hd2).
    pose proof (SFdiv_faithful diff false 4503599627370496 (-51) Hfd) as Hstep.
    rewrite <- two_eq in Hstep. rewrite F2Q_two, Hhalf in Hstep.
    exists (SFdiv Float.prec Float.emax diff two).
    pose proof (SFdiv_valid diff two) as Hvs.
    destruct (faithful_bounds _ _ (lo * (1 # 2)) hi Hstep Hdl2 Hdhi) as (Hfs & Hs1 & Hs2);
      [lra|lra|].
    split; [done|]. split; [done|]. split; [done|]. by apply SFadd_faithful. }
  destruct (Qlt_le_dec (inject_Z w) (F2Q t)) as [Hlt|Hge].
  - (* the width is below the bit time *)
    pose proof (half_double t Hv Hf Hlo) as Hdh. rewrite Hhalf in Hdh.
    destruct (Hgen (- F2Q t)%Q 0%Q) as (step & -> & Hs1 & Hs2 & Hsum); try done.
    + by apply double_opp.
    + lra.
    + lra.
    + assert (- F2Q t * (1 # 2) == - (F2Q t * (1 # 2)))%Q as -> by ring.
      by apply double_opp.
    + destruct (faithful_bounds _ _ (F2Q t * (1 # 2)) (F2Q t) Hsum Hdh Hdt)
        as (Hft & Ht1 & Ht2); [lra|lra|].
      split; [by apply (faithful_valid _ _ Hsum)|]. split; [done|].
      split; [|lra].
      destruct (Z.eq_dec w 0) as [->|Hnz].
      * specialize (Hw0 eq_refl). lra.
      * assert (1 <= inject_Z w)%Q
          by (change 1%Q with (inject_Z 1); rewrite <- Zle_Qle; lia). lra.
  - (* the width is at least the bit time *)
    pose proof (pow2_pos (-9)) as Hp9pos.
    destruct (Hgen 0%Q (inject_Z w)) as (step & -> & Hs1 & Hs2 & Hsum); try done.
    + lra.
    + lra.
    + assert (0 * (1 # 2) == 0)%Q as -> by reflexivity. done.
    + assert (double (pow2 54)) as Hd54 by (apply double_pow2; lia).
      destruct (faithful_bounds _ _ (F2Q t) (pow2 54) Hsum Hdt Hd54) as (Hft & Ht1 & Ht2).
      * lra.
      * rewrite Hp54. lra.
      * split; [by apply (faithful_valid _ _ Hsum)|]. split; [done|]. split; lra.
Qed.

Lemma in_step_edge rate self lo nbr sign :
  0 < rate < 2 ^ 53 → in_step lo self → lo ≤ nbr < 2 ^ 53 →
  ∃ self', analyze_edge rate self (nbr, sign) = Some self' ∧ in_step (nbr + 1) self'.
Proof.
  intros Hrate (Hsane & Hn & Hfirst) Hnbr.
  pose proof (sane_not_zero _ Hsane) as Hz.
  assert (0 ≤ pulse_width self nbr < 2 ^ 53) as Hw by (unfold pulse_width; lia).
  assert (Z.abs (pulse_width self nbr) < 2 ^ 53) as Hw' by lia.
  destruct (classify self nbr) eqn:Hc.
  - rewrite analyze_edge_boundary, add_record_finalized by done. bind_steps.
    cbn [tbit records].
    destruct (int_truediv_is_Some 0 (tbit self) ltac:(simpl; lia) Hz) as [q ->].
    bind_steps. destruct (seed_sane rate Hrate) as (seed & -> & Hs & Hs8). bind_steps.
    destruct (sign =? 1); eexists; (split; [done|]); split; cbn [tbit nbr_priv];
      try done; (split; [lia|intros ?; lia]).
  - rewrite analyze_edge_glitch by done.
    destruct (int_truediv_is_Some (pulse_width self nbr) (tbit self) Hw' Hz) as [q ->].
    bind_steps. exists self. split; [done|]. split; [done|].
    split; [lia|intros ?; lia].
  - rewrite analyze_edge_update by done.
    eexists. split; [done|]. split; cbn [tbit nbr_priv]; [|split; [lia|intros ?; lia]].
    apply update_sane; [done|done|]. unfold pulse_width. intros H0.
    apply Hfirst. lia.
Qed.

Lemma in_step_loop rate track : ∀ lo self,
  0 < rate < 2 ^ 53 → in_step lo self →
  ascending_from lo track → positions_below (2 ^ 53) track →
  ∃ self', analyze_loop rate self track = Some self' ∧
           sane (tbit self') ∧ 0 ≤ nbr_priv self'.
Proof.
  induction track as [|[p sg] track IH]; intros lo self Hrate Hin Hasc Hpos;
    cbn [analyze_loop].
  - exists self. destruct Hin as (? & ? & _). split; [done|]. split; [done|lia].
  - destruct Hasc as [Hp Hasc]. apply Forall_cons in Hpos as [Hp53 Hpos]. cbn in Hp53.
    destruct (in_step_edge rate self lo p sg Hrate Hin ltac:(lia)) as (s1 & -> & H1).
    bind_steps. by apply (IH (p + 1)).
Qed.

(** [analyze] returns on every track of edges in increasing position below
    2^53, at a positive rate below 2^53: no quotient of a debug line
    divides by zero and no integer is too large for a double. *)
Lemma analyze_total rate track :
  0 < rate < 2 ^ 53 → ascending_from 0 track → positions_below (2 ^ 53) track →
  ∃ self, analyze rate track = Some self ∧ sane (tbit self) ∧ bits self = [].
Proof.
  intros Hrate Hasc Hpos. unfold analyze, initial.
  destruct (seed_sane rate Hrate) as (seed & -> & Hs & Hs8). bind_steps.
  destruct (in_step_loop rate track 0 (mkTape seed [] [] 0) Hrate) as (s1 & -> & H1 & _);
    try done.
  bind_steps. rewrite add_record_finalized. eexists. split; [done|]. done.
Qed.

End BitTime.

(** ** The records of a run *)

(** Claim C10: [report_record] fails on the empty record only, and every
    record that [add_record] appends, hence every record of the list that
    [analyze] returns, has at least 5 octets and is accepted by
    [report_record]: its accesses to the first octet, the last octet and
    the slice between them are in range. [analyze] does return on the
    edges of a track, in increasing position below 2^53 at a positive rate
    below 2^53. *)
Theorem C10_records_are_reportable :
  report_record [] = None ∧
  (∀ nbr self, ∃ self',
     add_record nbr self = Some self' ∧
     ∀ rec, rec ∈ records self' →
       rec ∈ records self ∨ ((5 ≤ length rec)%nat ∧ is_Some (report_record rec))) ∧
  (∀ rate track self,
     analyze rate track = Some self →
     Forall (λ rec, (5 ≤ length rec)%nat ∧ is_Some (report_record rec)) (records self)) ∧
  (∀ rate track,
     0 < rate < 2 ^ 53 → ascending_from 0 track → positions_below (2 ^ 53) track →
     ∃ self,
       analyze rate track = Some self ∧
       Forall (λ rec, (5 ≤ length rec)%nat ∧ is_Some (report_record rec)) (records self)).
Proof.
  split; [reflexivity|]. split; [|split].
  - intros nbr self.
    destruct (Nat.lt_ge_cases (length (bits self)) 48) as [Hlt|Hge].
    + rewrite add_record_short by done. eexists; split; [done|]. simpl. auto.
    + destruct (add_record_long nbr self Hge)
        as (octets & rec & Hp & _ & Hl & Hr & ->).
      eexists; split; [done|]. simpl. intros r Hin.
      apply elem_of_app in Hin as [Hin|Hin]; [by left|right].
      apply list_elem_of_singleton in Hin as ->. split; [|done].
      apply pack_octets_length in Hp. pose proof (packed_length_ge _ Hge). lia.
  - intros rate track self. apply analyze_reportable.
  - intros rate track Hrate Hasc Hpos.
    destruct (analyze_total rate track Hrate Hasc Hpos) as (self & Hrun & _).
    exists self. split; [done|]. by apply (analyze_reportable rate track).
Qed.

(** ** The edge detector *)

Section EdgeDetector.
Import WAVTrack.

Lemma seq_increasing (f : nat → nat) len : ∀ start lo,
  (∀ k, f k < f (S k))%nat → (lo ≤ f start)%nat →
  increasing_from lo (f <$> seq start len).
Proof.
  induction len as [|len IH]; intros start lo Hf Hlo; simpl; [done|].
  split; [done|]. apply IH; [done|]. apply Hf.
Qed.

Lemma range_increasing start stop step :
  (0 < step)%nat → increasing_from start (Py.range start stop step).
Proof.
  intros Hstep. unfold Py.range. apply seq_increasing; intros; lia.
Qed.

Lemma ascending_from_weaken lo lo' track :
  lo ≤ lo' → ascending_from lo' track → ascending_from lo track.
Proof. destruct track as [|[p s] track]; simpl; [done|]. intros ? [? ?]. split; [lia|done]. Qed.

Lemma ascending_from_sorted track : ∀ lo,
  ascending_from lo track →
  Forall (λ e, lo ≤ e.1) track ∧ StronglySorted Z.lt (fst <$> track).
Proof.
  induction track as [|[p s] track IH]; intros lo; simpl.
  - intros _. split; constructor.
  - intros [Hlo Hasc]. destruct (IH _ Hasc) as [Hall Hsorted]. split.
    + constructor; [done|]. eapply Forall_impl; [exact Hall|]. simpl. intros; lia.
    + constructor; [done|]. apply Forall_fmap. eapply Forall_impl; [exact Hall|].
      simpl. intros; lia.
Qed.

Lemma iter_loop_ascending snd positions : ∀ lo sign prev_sign,
  increasing_from lo positions →
  ascending_from (Z.of_nat lo) (iter_loop snd sign prev_sign positions).1.
Proof.
  induction positions as [|nbr positions IH]; intros lo sign prev_sign; simpl; [done|].
  intros [Hlo Hinc]. destruct (sample snd nbr) as [samp|]; simpl; [|done].
  specialize (IH (S nbr) (next_sign sign samp) (next_sign sign samp) Hinc).
  destruct (iter_loop snd _ _ positions) as [evs fin]. simpl in *.
  destruct (_ =? _); simpl.
  - eapply ascending_from_weaken; [|exact IH]. lia.
  - split; [lia|]. eapply ascending_from_weaken; [|exact IH]. lia.
Qed.

Lemma next_sign_hysteresis sign samp :
  next_sign sign samp = hysteresis CometTape.THRESHOLD sign samp.
Proof.
  unfold next_sign, hysteresis. rewrite Z.gtb_ltb. reflexivity.
Qed.

Lemma iter_loop_detect snd positions : ∀ sign,
  (iter_loop snd sign sign positions).1 =
    detect CometTape.THRESHOLD sign sign (samples_read snd positions).
Proof.
  induction positions as [|nbr positions IH]; intros sign; simpl; [done|].
  destruct (sample snd nbr) as [samp|]; simpl; [|done].
  rewrite <- next_sign_hysteresis. specialize (IH (next_sign sign samp)).
  destruct (iter_loop snd _ _ positions) as [evs fin]. simpl in *.
  destruct (Z.eqb_spec (next_sign sign samp) sign) as [Heq|Hne]; rewrite IH.
  - by rewrite Heq.
  - done.
Qed.

Lemma iter_loop_out_of_band snd positions : ∀ sign,
  Forall (λ ev, ∃ nbr samp,
            ev.1 = Z.of_nat nbr ∧ nbr ∈ positions ∧ sample snd nbr = Some samp ∧
            (CometTape.THRESHOLD < samp ∧ ev.2 = 1 ∨
             samp < - CometTape.THRESHOLD ∧ ev.2 = -1))
         (iter_loop snd sign sign positions).1.
Proof.
  induction positions as [|nbr positions IH]; intros sign; simpl; [constructor|].
  destruct (sample snd nbr) as [samp|] eqn:Hs; simpl; [|constructor].
  specialize (IH (next_sign sign samp)).
  destruct (iter_loop snd _ _ positions) as [evs fin]. simpl in *.
  assert (Forall (λ ev, ∃ nbr0 samp0,
            ev.1 = Z.of_nat nbr0 ∧ nbr0 ∈ nbr :: positions ∧
            sample snd nbr0 = Some samp0 ∧
            (CometTape.THRESHOLD < samp0 ∧ ev.2 = 1 ∨
             samp0 < - CometTape.THRESHOLD ∧ ev.2 = -1)) evs) as Hevs.
  { eapply Forall_impl; [exact IH|]. simpl.
    intros ev (n & a & ? & ? & ? & ?). exists n, a. repeat split; try done. by right. }
  destruct (Z.eqb_spec (next_sign sign samp) sign) as [Heq|Hne]; [done|].
  constructor; [|done]. exists nbr, samp. simpl. repeat split; try done; [left|].
  unfold next_sign in *.
  destruct (Z.ltb_spec CometTape.THRESHOLD samp); [by left|].
  destruct (Z.ltb_spec samp (- CometTape.THRESHOLD)); [by right|]. done.
Qed.

End EdgeDetector.

(** Claim C8: the events that [__iter__] yields have strictly increasing
    positions; they are the events of [detect], which emits at a sample
    exactly when the sign after hysteresis differs from the sign of the
    event emitted before (0 before any event); and every event sits on a
    sample outside the threshold band, with the sign of that sample. *)
Theorem C8_edge_detector_events t :
  let events := (WAVTrack.iter t).1 in
  StronglySorted Z.lt (fst <$> events) ∧
  ascending_from 0 events ∧
  events =
    (if (WAVTrack.span t =? 0)%nat then []
     else detect 2500 0 0
            (samples_read (WAVTrack.sound t)
               (Py.range (WAVTrack.offset t) (length (WAVTrack.sound t))
                         (WAVTrack.span t)))) ∧
  Forall (λ ev, ∃ nbr samp,
            ev.1 = Z.of_nat nbr ∧ WAVTrack.sample (WAVTrack.sound t) nbr = Some samp ∧
            (2500 < samp ∧ ev.2 = 1 ∨ samp < -2500 ∧ ev.2 = -1)) events.
Proof.
  intros events. subst events. unfold WAVTrack.iter.
  destruct (Nat.eqb_spec (WAVTrack.span t) 0) as [Hz|Hnz]; simpl.
  - repeat split; constructor.
  - assert (ascending_from 0
      (WAVTrack.iter_loop (WAVTrack.sound t) 0 0
         (Py.range (WAVTrack.offset t) (length (WAVTrack.sound t)) (WAVTrack.span t))).1)
      as Hasc.
    { eapply ascending_from_weaken; [|apply iter_loop_ascending, range_increasing; lia].
      lia. }
    split; [by apply (ascending_from_sorted _ 0)|]. split; [done|].
    split; [apply iter_loop_detect|].
    eapply Forall_impl; [apply iter_loop_out_of_band|]. simpl.
    intros ev (n & a & ? & ? & ? & ?). by exists n, a.
Qed.

(** ** The tape-image writer *)

Section Writer.

Lemma pack_L_le32 n : 0 ≤ n < 2 ^ 32 → Py.pack_L n = Some (le32 n).
Proof.
  intros [H0 H1]. unfold Py.pack_L, le32.
  rewrite (proj2 (Z.leb_le _ _) H0), (proj2 (Z.ltb_lt _ _) H1). simpl andb. cbv iota.
  change 255 with (Z.ones 8). rewrite !Z.land_ones, !Z.shiftr_div_pow2 by lia.
  reflexivity.
Qed.

Lemma le32_value n :
  0 ≤ n < 2 ^ 32 →
  ∃ b0 b1 b2 b3,
    le32 n = [b0; b1; b2; b3] ∧
    Forall (λ b, 0 ≤ b < 256) [b0; b1; b2; b3] ∧
    n = b0 + 256 * b1 + 65536 * b2 + 16777216 * b3.
Proof.
  intros Hn. unfold le32. do 4 eexists. split; [reflexivity|]. split.
  - repeat constructor; apply Z.mod_pos_bound; lia.
  - change (2 ^ 32) with 4294967296 in Hn.
    pose proof (Z.div_mod n 256). pose proof (Z.div_mod (n / 256) 256).
    pose proof (Z.div_mod (n / 65536) 256).
    assert (n / 65536 = n / 256 / 256) as E1 by (rewrite Z.div_div; lia || done).
    assert (n / 16777216 = n / 65536 / 256) as E2 by (rewrite Z.div_div; lia || done).
    assert (0 ≤ n / 16777216 < 256) as Hhi.
    { split; [apply Z.div_pos; lia | apply Z.div_lt_upper_bound; lia]. }
    rewrite (Z.mod_small (n / 16777216) 256) by done. lia.
Qed.

Lemma land_1_odd n : (Z.land n 1 =? 0) = negb (Z.odd n).
Proof.
  change 1 with (Z.ones 1) at 1. rewrite Z.land_ones by lia.
  change (2 ^ 1) with 2. rewrite Zmod_odd. by destruct (Z.odd n).
Qed.

Lemma write_records_blocks recs : ∀ tap,
  Forall (λ rec, Z.of_nat (length rec) < 2 ^ 32) recs →
  write_records tap recs = Some (tap ++ concat (tap_block <$> recs)).
Proof.
  induction recs as [|rec recs IH]; intros tap Hall; simpl.
  - by rewrite app_nil_r.
  - apply Forall_cons in Hall as [Hrec Hall].
    rewrite pack_L_le32 by lia. bind_steps.
    rewrite IH by done. f_equal. unfold tap_block. rewrite land_1_odd.
    destruct (Z.odd _); simpl negb; cbv iota; by rewrite <- ?app_assoc.
Qed.

End Writer.

(** Claim C7: for records whose lengths fit the 32-bit length field,
    [write_tapfile] writes, for each record in order, its length as four
    little-endian bytes, the record, one zero byte exactly when the length
    is odd, and the length again, then the marker 0xFFFFFFFF, and nothing
    else. *)
Theorem C7_tap_image_layout recs :
  Forall (λ rec, Z.of_nat (length rec) < 2 ^ 32) recs →
  write_tapfile recs = Some (concat (tap_block <$> recs) ++ le32 0xFFFFFFFF) ∧
  le32 0xFFFFFFFF = [0xff; 0xff; 0xff; 0xff] ∧
  ∀ rec, rec ∈ recs →
    ∃ b0 b1 b2 b3,
      Forall (λ b, 0 ≤ b < 256) [b0; b1; b2; b3] ∧
      Z.of_nat (length rec) = b0 + 256 * b1 + 65536 * b2 + 16777216 * b3 ∧
      tap_block rec =
        [b0; b1; b2; b3] ++ rec
          ++ (if Z.odd (Z.of_nat (length rec)) then [0] else [])
          ++ [b0; b1; b2; b3].
Proof.
  intros Hall. split; [|split; [reflexivity|]].
  - unfold write_tapfile. by rewrite write_records_blocks.
  - intros rec Hin. rewrite Forall_forall in Hall. specialize (Hall rec Hin).
    destruct (le32_value (Z.of_nat (length rec))) as (b0 & b1 & b2 & b3 & Hle & Hb & Hv);
      [lia|].
    exists b0, b1, b2, b3. split; [done|]. split; [done|].
    unfold tap_block. by rewrite Hle.
Qed.

(** Claim C7 at a record of 3 octets followed by one of 2. *)
Lemma C7_tap_image_layout_witness :
  Forall (λ rec, Z.of_nat (length rec) < 2 ^ 32) [[0xaa; 1; 0xaa]; [5; 6]] ∧
  write_tapfile [[0xaa; 1; 0xaa]; [5; 6]] =
    Some (concat (tap_block <$> [[0xaa; 1; 0xaa]; [5; 6]]) ++ le32 0xFFFFFFFF) ∧
  le32 0xFFFFFFFF = [0xff; 0xff; 0xff; 0xff] ∧
  ∀ rec, rec ∈ [[0xaa; 1; 0xaa]; [5; 6]] →
    ∃ b0 b1 b2 b3,
      Forall (λ b, 0 ≤ b < 256) [b0; b1; b2; b3] ∧
      Z.of_nat (length rec) = b0 + 256 * b1 + 65536 * b2 + 16777216 * b3 ∧
      tap_block rec =
        [b0; b1; b2; b3] ++ rec
          ++ (if Z.odd (Z.of_nat (length rec)) then [0] else [])
          ++ [b0; b1; b2; b3].
Proof.
  assert (Forall (λ rec, Z.of_nat (length rec) < 2 ^ 32) [[0xaa; 1; 0xaa]; [5; 6]]) as H.
  { repeat constructor. }
  split; [exact H|]. exact (C7_tap_image_layout [[0xaa; 1; 0xaa]; [5; 6]] H).
Defined.

(** ** The record reporter *)

Section Reporter.

Lemma string_app_assoc (a b c : string) : ((a ++ b) ++ c = a ++ (b ++ c))%string.
Proof. induction a as [|x a IH]; simpl; [done|]. by rewrite IH. Qed.

Lemma string_app_empty_r (a : string) : (a ++ "" = a)%string.
Proof. induction a as [|x a IH]; simpl; [done|]. by rewrite IH. Qed.

Lemma lacks_app c a b : lacks c (a ++ b) = lacks c a && lacks c b.
Proof.
  induction a as [|x a IH]; simpl; [done|]. rewrite IH. by rewrite andb_assoc.
Qed.

Lemma has_infix_skip c needle head text :
  lacks c head = true →
  has_infix (String c needle) (head ++ text) = has_infix (String c needle) text.
Proof.
  induction head as [|x head IH]; simpl; [done|].
  intros [Hx Hh]%andb_true_iff. rewrite IH by done.
  destruct (ascii_dec c x) as [->|Hne].
  - by rewrite Ascii.eqb_refl in Hx.
  - destruct text; done.
Qed.

Lemma lacks_B_uint d : lacks "B" (NilEmpty.string_of_uint d) = true.
Proof. induction d; simpl; done. Qed.

Lemma lacks_B_str_of_nat n : lacks "B" (Py.str_of_nat n) = true.
Proof.
  unfold Py.str_of_nat, NilZero.string_of_uint.
  destruct (Nat.to_uint n) eqn:E; try (rewrite <- E; apply lacks_B_uint). done.
Qed.

Lemma lacks_B_rjust w s : lacks "B" s = true → lacks "B" (Py.rjust w s) = true.
Proof.
  intros Hs. unfold Py.rjust. rewrite lacks_app, Hs, andb_true_r.
  induction (w - String.length s)%nat as [|n IH]; [done|].
  simpl. destruct (repeat _ n); simpl in *; done.
Qed.

Lemma lacks_B_hexdigit d : 0 ≤ d < 16 → Ascii.eqb "B" (Py.hexdigit d) = false.
Proof.
  intros Hd.
  assert (d = 0 ∨ d = 1 ∨ d = 2 ∨ d = 3 ∨ d = 4 ∨ d = 5 ∨ d = 6 ∨ d = 7 ∨
          d = 8 ∨ d = 9 ∨ d = 10 ∨ d = 11 ∨ d = 12 ∨ d = 13 ∨ d = 14 ∨ d = 15)
    as Hcases by lia.
  repeat (destruct Hcases as [->|Hcases]; [reflexivity|]). by subst.
Qed.

Lemma lacks_B_hex l :
  Forall (λ b, 0 ≤ b < 256) l → lacks "B" (Py.hex l) = true.
Proof.
  induction 1 as [|b l Hb _ IH]; [done|].
  cbn [Py.hex lacks]. rewrite IH, !lacks_B_hexdigit; [done| |].
  - apply Z.mod_pos_bound. lia.
  - split; [apply Z.div_pos; lia | apply Z.div_lt_upper_bound; lia].
Qed.

Lemma lacks_B_summary_head octets :
  Forall (λ b, 0 ≤ b < 256) octets → lacks "B" (summary_head octets) = true.
Proof.
  intros Hb. unfold summary_head, hexdump.
  rewrite !lacks_app, lacks_B_rjust by apply lacks_B_str_of_nat.
  destruct (_ <=? _)%nat; rewrite ?lacks_app, !lacks_B_hex; try done.
  - by apply Forall_drop.
  - by apply Forall_take.
Qed.

Lemma report_record_text octets first final :
  octets !! 0%nat = Some first → last octets = Some final →
  report_record octets =
    Some (summary_head octets
            ++ flags_text (negb (first =? 0xaa)%Z) (negb (final =? 0xaa)%Z)
                 (negb (crcfunc (Py.slice octets 1 (length octets - 1)) =? 0)%Z))%string.
Proof.
  intros Hfirst Hfinal. unfold report_record, Py.last_item.
  rewrite Hfirst, Hfinal. bind_steps. f_equal.
  unfold summary_head, flags_text.
  destruct (first =? 170), (final =? 170), (crcfunc _ =? 0); cbn [negb];
    rewrite ?string_app_assoc, ?string_app_empty_r; reflexivity.
Qed.

Lemma flags_text_infix preamble postamble crc :
  has_infix "Bad_preamble" (flags_text preamble postamble crc) = preamble ∧
  has_infix "Bad_postamble" (flags_text preamble postamble crc) = postamble ∧
  has_infix "Bad_CRC" (flags_text preamble postamble crc) = crc.
Proof. destruct preamble, postamble, crc; vm_compute; done. Qed.

Lemma interior_slice (first final : Z) middle :
  Py.slice (first :: middle ++ [final]) 1 (length (first :: middle ++ [final]) - 1) = middle.
Proof.
  unfold Py.slice. cbn [length drop]. rewrite length_app. cbn [length].
  replace (S (length middle + 1) - 1 - 1)%nat with (length middle) by lia.
  apply take_app_length.
Qed.

End Reporter.

(** Claim C5: the summary of a non-empty record of octets is the head
    (count and dump, which holds no flag) followed by the flags in the
    order preamble, postamble, CRC; [Bad_preamble] occurs in it exactly
    when the first octet is not 0xAA, [Bad_postamble] exactly when the last
    octet is not 0xAA, and [Bad_CRC] exactly when the CRC-16/ARC of the
    octets between the first and the last is not 0. *)
Theorem C5_summary_flags octets :
  octets ≠ [] →
  Forall (λ b, 0 ≤ b < 256) octets →
  ∃ first final interior text,
    octets !! 0%nat = Some first ∧ last octets = Some final ∧
    (octets = [first] ∧ final = first ∧ interior = [] ∨
     octets = first :: interior ++ [final]) ∧
    report_record octets = Some text ∧
    text = (summary_head octets
              ++ flags_text (negb (first =? 0xaa)%Z) (negb (final =? 0xaa)%Z)
                   (negb (crcfunc interior =? 0)%Z))%string ∧
    has_infix "Bad_" (summary_head octets) = false ∧
    (has_infix "Bad_preamble" text = true ↔ first ≠ 0xaa) ∧
    (has_infix "Bad_postamble" text = true ↔ final ≠ 0xaa) ∧
    (has_infix "Bad_CRC" text = true ↔ crcfunc interior ≠ 0).
Proof.
  intros Hne Hbytes.
  assert (∃ first final interior,
            octets !! 0%nat = Some first ∧ last octets = Some final ∧
            (octets = [first] ∧ final = first ∧ interior = [] ∨
             octets = first :: interior ++ [final]) ∧
            Py.slice octets 1 (length octets - 1) = interior)
    as (first & final & interior & Hfirst & Hfinal & Hshape & Hint).
  { destruct octets as [|first rest]; [done|].
    destruct rest as [|x rest _] using rev_ind.
    - exists first, first, []. repeat split; auto.
    - exists first, x, rest. split; [done|]. split.
      + rewrite app_comm_cons. apply last_snoc.
      + split; [by right|]. apply interior_slice. }
  pose proof (lacks_B_summary_head octets Hbytes) as Hhead.
  exists first, final, interior. eexists.
  split; [done|]. split; [done|]. split; [done|].
  rewrite (report_record_text octets first final Hfirst Hfinal), Hint.
  split; [reflexivity|]. split; [reflexivity|]. split.
  { rewrite <- (string_app_empty_r (summary_head octets)).
    by rewrite (has_infix_skip "B" "ad_" _ "" Hhead). }
  rewrite (has_infix_skip "B" "ad_preamble" _ _ Hhead),
          (has_infix_skip "B" "ad_postamble" _ _ Hhead),
          (has_infix_skip "B" "ad_CRC" _ _ Hhead).
  destruct (flags_text_infix (negb (first =? 0xaa)) (negb (final =? 0xaa))
              (negb (crcfunc interior =? 0))) as (-> & -> & ->).
  rewrite !negb_true_iff, !Z.eqb_neq. done.
Qed.

(** Claim C5 at the record 00 31 32 AA. *)
Lemma C5_summary_flags_witness :
  [0; 0x31; 0x32; 0xaa] ≠ [] ∧
  Forall (λ b, 0 ≤ b < 256) [0; 0x31; 0x32; 0xaa] ∧
  ∃ first final interior text,
    [0; 0x31; 0x32; 0xaa] !! 0%nat = Some first ∧
    last [0; 0x31; 0x32; 0xaa] = Some final ∧
    ([0; 0x31; 0x32; 0xaa] = [first] ∧ final = first ∧ interior = [] ∨
     [0; 0x31; 0x32; 0xaa] = first :: interior ++ [final]) ∧
    report_record [0; 0x31; 0x32; 0xaa] = Some text ∧
    text = (summary_head [0; 0x31; 0x32; 0xaa]
              ++ flags_text (negb (first =? 0xaa)%Z) (negb (final =? 0xaa)%Z)
                   (negb (crcfunc interior =? 0)%Z))%string ∧
    has_infix "Bad_" (summary_head [0; 0x31; 0x32; 0xaa]) = false ∧
    (has_infix "Bad_preamble" text = true ↔ first ≠ 0xaa) ∧
    (has_infix "Bad_postamble" text = true ↔ final ≠ 0xaa) ∧
    (has_infix "Bad_CRC" text = true ↔ crcfunc interior ≠ 0).
Proof.
  assert ([0; 0x31; 0x32; 0xaa] ≠ []) as H1 by discriminate.
  assert (Forall (λ b, 0 ≤ b < 256) [0; 0x31; 0x32; 0xaa]) as H2
    by (repeat constructor; lia).
  split; [exact H1|]. split; [exact H2|].
  exact (C5_summary_flags [0; 0x31; 0x32; 0xaa] H1 H2).
Defined.

(** ** The tape header *)

Section Header.
Import Gen.

Lemma decode_from_ascii l : ∀ position,
  Forall (λ b, b < 128) l → Py.decode_from position l = Py.Decoded (ascii_text l).
Proof.
  induction l as [|b l IH]; intros position Hall; [done|].
  apply Forall_cons in Hall as [Hb Hall]. cbn [Py.decode_from].
  rewrite (proj2 (Z.ltb_lt _ _) Hb), IH by done. done.
Qed.

Lemma decode_from_error l : ∀ position byte q,
  Py.decode_from position l = Py.UnicodeDecodeError byte q → byte ∈ l ∧ 128 ≤ byte.
Proof.
  induction l as [|b l IH]; intros position byte q; cbn [Py.decode_from]; [done|].
  destruct (Z.ltb_spec b 128).
  - destruct (Py.decode_from (S position) l) eqn:E; [done|].
    intros [= <- <-]. apply IH in E as [? ?]. split; [by right|done].
  - intros [= <- <-]. split; [left|done].
Qed.

Lemma decode_from_decoded l : ∀ position s,
  Py.decode_from position l = Py.Decoded s → Forall (λ b, b < 128) l ∧ s = ascii_text l.
Proof.
  induction l as [|b l IH]; intros position s; cbn [Py.decode_from].
  - intros [= <-]. split; [constructor|done].
  - destruct (Z.ltb_spec b 128); [|done].
    destruct (Py.decode_from (S position) l) eqn:E; [|done].
    intros [= <-]. apply IH in E as [? ->]. split; [by constructor|done].
Qed.

Lemma slice_13_split {A} (l : list A) i :
  Py.slice l i (i + 13) = Py.slice l i (i + 10) ++ Py.slice l (i + 10) (i + 13).
Proof.
  unfold Py.slice.
  replace (i + 13 - i)%nat with (10 + 3)%nat by lia.
  replace (i + 10 - i)%nat with 10%nat by lia.
  replace (i + 13 - (i + 10))%nat with 3%nat by lia.
  rewrite <- take_take_drop, drop_drop. done.
Qed.

Lemma slot_starts_S index n :
  slot_starts index (S n) = index :: slot_starts (index + 26) n.
Proof.
  unfold slot_starts. cbn [seq fmap list_fmap]. f_equal; [lia|].
  rewrite <- fmap_S_seq, <- list_fmap_compose. apply list_fmap_ext.
  intros _ k _. simpl. lia.
Qed.

(** Fuel beyond [len(head) - index] is never used. *)
Lemma file_list_fuel fuel1 : ∀ fuel2 head index,
  (length head ≤ index + fuel1)%nat → (length head ≤ index + fuel2)%nat →
  file_list fuel1 head index = file_list fuel2 head index.
Proof.
  induction fuel1 as [|fuel1 IH]; intros fuel2 head index H1 H2.
  - destruct fuel2; cbn [file_list];
      by rewrite (proj2 (lookup_ge_None head index)) by lia.
  - destruct fuel2 as [|fuel2].
    + cbn [file_list]. by rewrite (proj2 (lookup_ge_None head index)) by lia.
    + cbn [file_list]. destruct (head !! index) as [b|]; [|done].
      destruct (_ && _ && (index + 29 <=? length head)%nat) eqn:Hcond; [|done].
      apply andb_true_iff in Hcond as [_ H3%Nat.leb_le].
      destruct (Py.decode_ascii _); [|done].
      destruct (Py.decode_ascii _); [|done].
      rewrite (IH fuel2) by lia. done.
Qed.

Lemma file_list_listing fuel : ∀ head index,
  (index < length head)%nat → (length head ≤ index + fuel)%nat →
  ∃ n stop,
    file_list fuel head index =
      ((Yield ∘ slot_entry head <$> slot_starts index n) ++ stop, Some tt) ∧
    (∀ i, i ∈ slot_starts index n → slot_open 29 head i ∧ slot_ascii head i) ∧
    (¬ slot_open 29 head (index + 26 * n)%nat ∧ stop = [] ∨
     slot_open 29 head (index + 26 * n)%nat ∧ ¬ slot_ascii head (index + 26 * n)%nat ∧
     ∃ byte position,
       byte ∈ Py.slice head (index + 26 * n) (index + 26 * n + 13) ∧ 128 ≤ byte ∧
       stop = [Print ("Börk " ++ Py.decode_error_str byte position)%string;
               Print (Py.hex (Py.slice head (index + 26 * n) (index + 26 * n + 26)))]).
Proof.
  induction fuel as [|fuel IH]; intros head index Hlt Hfuel; [lia|].
  destruct (lookup_lt_is_Some_2 head index Hlt) as [b Hb].
  cbn [file_list]. rewrite Hb.
  destruct ((32 <? b) && (b <? 110) && (index + 29 <=? length head)%nat) eqn:Hcond.
  - apply andb_true_iff in Hcond as [[H1 H2]%andb_true_iff H3].
    apply Z.ltb_lt in H1, H2. apply Nat.leb_le in H3.
    assert (slot_open 29 head index) as Hopen by (exists b; auto).
    assert (∀ byte position,
      byte ∈ Py.slice head index (index + 13) → 128 ≤ byte →
      ∃ n stop,
        (print ("Börk " ++ Py.decode_error_str byte position)%string;;;
         print (Py.hex (Py.slice head index (index + 26)));;; ret tt) =
          ((Yield ∘ slot_entry head <$> slot_starts index n) ++ stop, Some tt) ∧
        (∀ i, i ∈ slot_starts index n → slot_open 29 head i ∧ slot_ascii head i) ∧
        (¬ slot_open 29 head (index + 26 * n)%nat ∧ stop = [] ∨
         slot_open 29 head (index + 26 * n)%nat ∧
         ¬ slot_ascii head (index + 26 * n)%nat ∧
         ∃ byte position,
           byte ∈ Py.slice head (index + 26 * n) (index + 26 * n + 13) ∧ 128 ≤ byte ∧
           stop = [Print ("Börk " ++ Py.decode_error_str byte position)%string;
                   Print (Py.hex (Py.slice head (index + 26 * n) (index + 26 * n + 26)))]))
      as Hbork.
    { intros byte position Hin Hbyte. exists 0%nat. eexists. split; [reflexivity|].
      split; [intros i Hi; inversion Hi|]. right.
      replace (index + 26 * 0)%nat with index by lia. split; [done|]. split.
      - intros Hascii. unfold slot_ascii in Hascii. rewrite Forall_forall in Hascii.
        specialize (Hascii byte Hin). lia.
      - eauto. }
    unfold Py.decode_ascii.
    destruct (Py.decode_from 0 (Py.slice head index (index + 10))) as [name|byte q] eqn:Hname.
    + destruct (Py.decode_from 0 (Py.slice head (index + 10) (index + 13)))
        as [ext|byte q] eqn:Hext.
      * apply decode_from_decoded in Hname as [Hn ->].
        apply decode_from_decoded in Hext as [He ->].
        destruct (IH head (index + 26)%nat) as (n & stop & Hrun & Hall & Hstop); [lia..|].
        exists (S n), stop. rewrite slot_starts_S. split; [|split].
        -- unfold bind, yield. rewrite Hrun. reflexivity.
        -- intros i [->|Hi]%elem_of_cons; [|by apply Hall].
           split; [done|]. unfold slot_ascii. rewrite slice_13_split.
           by apply Forall_app.
        -- replace (index + 26 * S n)%nat with (index + 26 + 26 * n)%nat by lia. done.
      * apply decode_from_error in Hext as [Hin Hbyte]. apply Hbork; [|done].
        rewrite slice_13_split. apply elem_of_app. by right.
    + apply decode_from_error in Hname as [Hin Hbyte]. apply Hbork; [|done].
      rewrite slice_13_split. apply elem_of_app. by left.
  - exists 0%nat, []. split; [reflexivity|]. split; [intros i Hi; inversion Hi|]. left.
    replace (index + 26 * 0)%nat with index by lia. split; [|done].
    intros (b' & Hb' & Hr & Hl). rewrite Hb in Hb'. injection Hb' as <-.
    apply andb_false_iff in Hcond as [[H|H]%andb_false_iff|H].
    + apply Z.ltb_ge in H. lia.
    + apply Z.ltb_ge in H. lia.
    + apply Nat.leb_gt in H. lia.
Qed.

End Header.

(** A recognised header shorter than 68 octets: [head[index]] is read
    before the length is compared, and raises. *)
Example header_short_record_raises :
  interpret_tape_header [[0xaa; 0; 0; 1; 65; 66]] =
    ([Gen.Yield "Tape label:"; Gen.Yield (Py.TAB ++ "AB"); Gen.Yield "File list:"], None).
Proof. reflexivity. Qed.

(** A label octet that is not ASCII: the label is decoded outside the
    [try], and raises before anything is yielded. *)
Example header_label_not_ascii_raises :
  interpret_tape_header [[0xaa; 0; 0; 1; 65; 200] ++ replicate 100 32] = ([], None).
Proof. reflexivity. Qed.

(** A slot with a non-ASCII name after one good slot. *)
Example header_bad_slot_stops_listing :
  interpret_tape_header [header_with_bad_slot] =
    ([Gen.Yield "Tape label:"; Gen.Yield (Py.TAB ++ "HELLO"); Gen.Yield "File list:";
      Gen.Yield (Py.TAB ++ "ABC.TXT");
      Gen.Print "Börk 'ascii' codec can't decode byte 0xc8 in position 1: ordinal not in range(128)";
      Gen.Print "44c8462020202020202042494e00000000000000000000000000"],
     Some tt).
Proof. reflexivity. Qed.

(** Counterexample to claim C6 as stated: the header of
    [header_with_one_slot] is recognised, a complete 26-byte slot with an
    ASCII name and a first byte strictly between 0x20 and 0x6E remains at
    offset 67, and the listing has no entry for it. *)
Lemma C6_full_slot_is_not_listed :
  length header_with_one_slot = 93%nat ∧
  header_with_one_slot !! 0%nat = Some 0xaa ∧
  header_with_one_slot !! 1%nat = Some 0 ∧
  header_with_one_slot !! 2%nat = Some 0 ∧
  slot_open 26 header_with_one_slot 67 ∧
  slot_ascii header_with_one_slot 67 ∧
  slot_entry header_with_one_slot 67 = (Py.TAB ++ "ABC.TXT")%string ∧
  interpret_tape_header [header_with_one_slot] =
    ([Gen.Yield "Tape label:"; Gen.Yield (Py.TAB ++ "HELLO"); Gen.Yield "File list:"],
     Some tt).
Proof.
  split; [reflexivity|]. do 3 (split; [reflexivity|]). split.
  { exists 65. split; [reflexivity|]. split; [lia|]. vm_compute. lia. }
  split; [|split; reflexivity].
  unfold slot_ascii. vm_compute. repeat constructor.
Qed.

(** Claim C6, as amended: for a first record of at least 3 octets, no
    header field is produced when octet 0 is not 0xAA or octet 1 or 2 is
    not 0; otherwise, when the record has at least 68 octets and its 50
    label octets are ASCII, the header yields the label lines and lists the
    26-byte slots from offset 67 on while the first octet of the slot lies
    strictly between 0x20 and 0x6E and at least 29 octets remain from its
    start; at the first such slot whose 13 name and extension octets are
    not all ASCII it prints the failure and the hex of the 26-byte slot and
    ends the listing; in both cases it ends without an exception. *)
Theorem C6_header_listing recs head :
  recs !! 0%nat = Some head →
  (3 ≤ length head)%nat →
  (head !! 0%nat ≠ Some 0xaa ∨ head !! 1%nat ≠ Some 0 ∨ head !! 2%nat ≠ Some 0 →
   interpret_tape_header recs = ([], Some tt)) ∧
  (head !! 0%nat = Some 0xaa → head !! 1%nat = Some 0 → head !! 2%nat = Some 0 →
   (68 ≤ length head)%nat →
   Forall (λ b, b < 128) (Py.slice head 4 54) →
   ∃ n stop,
     interpret_tape_header recs =
       ([Gen.Yield "Tape label:";
         Gen.Yield (Py.TAB ++ Py.rstrip (ascii_text (Py.slice head 4 54)))%string;
         Gen.Yield "File list:"]
          ++ (Gen.Yield ∘ slot_entry head <$> slot_starts 67 n) ++ stop,
        Some tt) ∧
     (∀ i, i ∈ slot_starts 67 n → slot_open 29 head i ∧ slot_ascii head i) ∧
     (¬ slot_open 29 head (67 + 26 * n)%nat ∧ stop = [] ∨
      slot_open 29 head (67 + 26 * n)%nat ∧ ¬ slot_ascii head (67 + 26 * n)%nat ∧
      ∃ byte position,
        byte ∈ Py.slice head (67 + 26 * n) (67 + 26 * n + 13) ∧ 128 ≤ byte ∧
        stop = [Gen.Print ("Börk " ++ Py.decode_error_str byte position)%string;
                Gen.Print (Py.hex (Py.slice head (67 + 26 * n) (67 + 26 * n + 26)))])).
Proof.
  intros Hhead Hlen. unfold interpret_tape_header. rewrite Hhead.
  destruct (lookup_lt_is_Some_2 head 0) as [h0 H0]; [lia|].
  destruct (lookup_lt_is_Some_2 head 1) as [h1 H1]; [lia|].
  destruct (lookup_lt_is_Some_2 head 2) as [h2 H2]; [lia|].
  rewrite H0, H1, H2. split.
  - intros Hdiff.
    destruct (Z.eqb_spec h0 0xaa) as [->|?]; [|done]. cbn [negb].
    destruct (Z.eqb_spec h1 0) as [->|?]; [|done]. cbn [negb].
    destruct (Z.eqb_spec h2 0) as [->|?]; [|done]. cbn [negb].
    destruct Hdiff as [?|[?|?]]; done.
  - intros [= ->] [= ->] [= ->] Hlong Hlabel.
    change (negb (170 =? 170)) with false. change (negb (0 =? 0)) with false. cbv iota.
    unfold Py.decode_ascii.
    change (4 + 50)%nat with 54%nat. rewrite (decode_from_ascii _ 0%nat Hlabel).
    destruct (file_list_listing (length head - 67) head 67) as (n & stop & Hrun & Hall & Hstop);
      [lia..|].
    exists n, stop. split; [|done].
    unfold Gen.bind, Gen.yield. change (54 + 13)%nat with 67%nat.
    rewrite Hrun. reflexivity.
Qed.

(** The amended claim C6 at [header_with_bad_slot]. *)
Lemma C6_header_listing_witness :
  [header_with_bad_slot] !! 0%nat = Some header_with_bad_slot ∧
  (3 ≤ length header_with_bad_slot)%nat ∧
  (header_with_bad_slot !! 0%nat ≠ Some 0xaa ∨ header_with_bad_slot !! 1%nat ≠ Some 0
     ∨ header_with_bad_slot !! 2%nat ≠ Some 0 →
   interpret_tape_header [header_with_bad_slot] = ([], Some tt)) ∧
  (header_with_bad_slot !! 0%nat = Some 0xaa → header_with_bad_slot !! 1%nat = Some 0 →
   header_with_bad_slot !! 2%nat = Some 0 →
   (68 ≤ length header_with_bad_slot)%nat →
   Forall (λ b, b < 128) (Py.slice header_with_bad_slot 4 54) →
   ∃ n stop,
     interpret_tape_header [header_with_bad_slot] =
       ([Gen.Yield "Tape label:";
         Gen.Yield (Py.TAB ++ Py.rstrip (ascii_text (Py.slice header_with_bad_slot 4 54)))%string;
         Gen.Yield "File list:"]
          ++ (Gen.Yield ∘ slot_entry header_with_bad_slot <$> slot_starts 67 n) ++ stop,
        Some tt) ∧
     (∀ i, i ∈ slot_starts 67 n →
           slot_open 29 header_with_bad_slot i ∧ slot_ascii header_with_bad_slot i) ∧
     (¬ slot_open 29 header_with_bad_slot (67 + 26 * n)%nat ∧ stop = [] ∨
      slot_open 29 header_with_bad_slot (67 + 26 * n)%nat ∧
      ¬ slot_ascii header_with_bad_slot (67 + 26 * n)%nat ∧
      ∃ byte position,
        byte ∈ Py.slice header_with_bad_slot (67 + 26 * n) (67 + 26 * n + 13) ∧
        128 ≤ byte ∧
        stop = [Gen.Print ("Börk " ++ Py.decode_error_str byte position)%string;
                Gen.Print (Py.hex (Py.slice header_with_bad_slot (67 + 26 * n)
                                            (67 + 26 * n + 26)))])).
Proof.
  assert ([header_with_bad_slot] !! 0%nat = Some header_with_bad_slot) as H1
    by reflexivity.
  assert (3 ≤ length header_with_bad_slot)%nat as H2 by (vm_compute; lia).
  split; [exact H1|]. split; [exact H2|].
  exact (C6_header_listing [header_with_bad_slot] header_with_bad_slot H1 H2).
Defined.

(** ** More on the record assembler *)

Section PackingRoundTrip.

Lemma octet_bits_octet_at bs k :
  octet_bits (octet_at bs k) =
    (λ j, default false (bs !! (8 * k + j)%nat)) <$> seq 0 8.
Proof.
  unfold octet_bits. apply list_eq. intros j.
  rewrite !list_lookup_fmap.
  destruct (decide (j < 8)%nat) as [Hj|Hj].
  - rewrite lookup_seq_lt by done. simpl. f_equal. by apply octet_at_testbit.
  - by rewrite lookup_seq_ge by lia.
Qed.

Lemma unpack_octets_length octets : length (unpack_octets octets) = (8 * length octets)%nat.
Proof.
  unfold unpack_octets. induction octets as [|v octets IH]; [done|].
  cbn [mbind list_bind]. rewrite length_app, IH.
  unfold octet_bits. rewrite length_fmap, length_seq. cbn [length]. lia.
Qed.

Lemma unpack_octets_lookup bs n i :
  (i < 8 * n)%nat →
  unpack_octets (octet_at bs <$> seq 0 n) !! i = Some (default false (bs !! i)).
Proof.
  revert i. induction n as [|n IH] using nat_ind; intros i Hi; [lia|].
  rewrite seq_S, fmap_app. unfold unpack_octets in *. rewrite bind_app.
  assert (length ((octet_at bs <$> seq 0 n) ≫= octet_bits) = 8 * n)%nat as Hlen.
  { pose proof (unpack_octets_length (octet_at bs <$> seq 0 n)) as Hl.
    unfold unpack_octets in Hl. by rewrite Hl, length_fmap, length_seq. }
  destruct (decide (i < 8 * n)%nat) as [Hlt|Hge].
  - rewrite lookup_app_l by lia. by apply IH.
  - rewrite lookup_app_r by lia. rewrite Hlen. cbn [fmap list_fmap mbind list_bind].
    rewrite app_nil_r.
    rewrite octet_bits_octet_at, list_lookup_fmap, lookup_seq_lt by lia.
    simpl. do 3 f_equal. lia.
Qed.

Lemma unpack_pack bs octets :
  pack_octets bs = Some octets →
  unpack_octets octets = bs ++ replicate (8 * length octets - length bs) false.
Proof.
  intros Hp. pose proof (pack_octets_length _ _ Hp) as Hlen.
  rewrite pack_octets_spec in Hp. injection Hp as <-.
  rewrite length_fmap, length_seq in *.
  assert (length bs ≤ 8 * packed_length (length bs))%nat as Hle.
  { unfold packed_length.
    pose proof (Nat.div_mod_eq (length bs + 7) 8) as Hd.
    pose proof (Nat.mod_upper_bound (length bs + 7) 8) as Hm.
    revert Hd Hm. generalize ((length bs + 7) `div` 8)%nat ((length bs + 7) `mod` 8)%nat.
    lia. }
  apply list_eq. intros i.
  destruct (decide (i < 8 * packed_length (length bs))%nat) as [Hi|Hi].
  - unfold packed_length in *. rewrite unpack_octets_lookup by done.
    destruct (decide (i < length bs)%nat) as [Hb|Hb].
    + rewrite lookup_app_l by done.
      destruct (lookup_lt_is_Some_2 bs i Hb) as [b ->]. done.
    + rewrite lookup_app_r by lia. rewrite (proj2 (lookup_ge_None bs i)) by lia.
      simpl. symmetry. apply lookup_replicate_2. lia.
  - rewrite !(proj2 (lookup_ge_None _ _)); [done| |].
    + rewrite length_app, length_replicate. lia.
    + rewrite unpack_octets_length, length_fmap, length_seq. unfold packed_length in *. lia.
Qed.

End PackingRoundTrip.

(** The bit buffer can be read back from the record that [add_record]
    appends: unpacking the record lowest bit first, and making up for a
    stripped zero octet with eight zero bits, starts with the buffer. *)
Theorem add_record_bits_recoverable nbr self :
  (48 ≤ length (bits self))%nat →
  ∃ rec,
    add_record nbr self =
      Some (mkTape (tbit self) [] (records self ++ [rec]) (nbr_priv self)) ∧
    take (length (bits self)) (unpack_octets rec ++ replicate 8 false) = bits self.
Proof.
  intros H48.
  destruct (add_record_long nbr self H48) as (octets & rec & Hp & Hs & _ & _ & Ha).
  exists rec. split; [done|].
  pose proof (unpack_pack _ _ Hp) as Hu.
  assert (octets ≠ []) as Hne.
  { intros ->. apply pack_octets_length in Hp. pose proof (packed_length_ge _ H48).
    simpl in Hp. lia. }
  destruct (strip_trailing_zero_length octets Hne) as (rec' & Hs' & _ & Hcase).
  rewrite Hs in Hs'. injection Hs' as <-.
  destruct Hcase as [->|[-> Hlast]].
  - rewrite Hu, <- app_assoc. by rewrite take_app_length.
  - apply last_Some in Hlast as [front ->].
    unfold Py.but_last. rewrite length_app. cbn [length].
    replace (length front + 1 - 1)%nat with (length front) by lia.
    rewrite take_app_length.
    assert (unpack_octets (front ++ [0]) = unpack_octets front ++ replicate 8 false) as E.
    { unfold unpack_octets. rewrite bind_app. f_equal. }
    rewrite <- E, Hu. by rewrite take_app_length.
Qed.

(** The round trip at a buffer of 56 zero bits. *)
Lemma add_record_bits_recoverable_witness :
  (48 ≤ length (bits (mkTape seed_44100 (replicate 56 false) [] 0)))%nat ∧
  ∃ rec,
    add_record 0 (mkTape seed_44100 (replicate 56 false) [] 0) =
      Some (mkTape seed_44100 [] ([] ++ [rec]) 0) ∧
    take (length (bits (mkTape seed_44100 (replicate 56 false) [] 0)))
         (unpack_octets rec ++ replicate 8 false) =
      bits (mkTape seed_44100 (replicate 56 false) [] 0).
Proof.
  assert (48 ≤ length (bits (mkTape seed_44100 (replicate 56 false) [] 0)))%nat as H
    by (vm_compute; lia).
  split; [exact H|].
  exact (add_record_bits_recoverable 0 (mkTape seed_44100 (replicate 56 false) [] 0) H).
Defined.

(** ** More on the bit synchroniser *)

Section EdgeBudget.

Lemma add_record_budget nbr self self' :
  add_record nbr self = Some self' →
  (48 * length (records self') + length (bits self')
     ≤ 48 * length (records self) + length (bits self))%nat.
Proof.
  destruct (Nat.lt_ge_cases (length (bits self)) 48) as [Hlt|Hge].
  - rewrite add_record_short by done. intros [= <-]. simpl. lia.
  - destruct (add_record_long nbr self Hge) as (octets & rec & _ & _ & _ & _ & ->).
    intros [= <-]. simpl. rewrite length_app. simpl. lia.
Qed.

Lemma analyze_edge_budget rate self edge self' :
  analyze_edge rate self edge = Some self' →
  (48 * length (records self') + length (bits self')
     ≤ S (48 * length (records self) + length (bits self)))%nat.
Proof.
  destruct edge as [nbr sign]. intros H.
  apply analyze_edge_shape in H as [(fin & Hfin & H)|[->|(t & ->)]].
  - pose proof (add_record_budget _ _ _ Hfin) as Hbudget.
    apply add_record_fields in Hfin as (_ & _ & Hb). rewrite Hb in Hbudget.
    destruct H as [->|(seed & ->)]; simpl in *; rewrite ?Hb; simpl; lia.
  - lia.
  - simpl. rewrite length_app. simpl. lia.
Qed.

Lemma analyze_loop_budget rate track : ∀ self self',
  analyze_loop rate self track = Some self' →
  (48 * length (records self') + length (bits self')
     ≤ length track + (48 * length (records self) + length (bits self)))%nat.
Proof.
  induction track as [|edge track IH]; intros self self'; cbn [analyze_loop].
  - intros [= <-]. simpl. lia.
  - destruct (analyze_edge rate self edge) as [s1|] eqn:H1; bind_steps; [|done].
    intros Hrun. apply IH in Hrun. apply analyze_edge_budget in H1.
    cbn [length]. lia.
Qed.

End EdgeBudget.

(** Every record costs at least 48 edges: [analyze] returns at most
    [len(track) / 48] records, and none for fewer than 48 edges. *)
Theorem analyze_needs_48_edges_per_record rate track self :
  analyze rate track = Some self →
  (48 * length (records self) ≤ length track)%nat ∧
  ((length track < 48)%nat → records self = []).
Proof.
  intros Hrun. apply analyze_steps in Hrun as (s0 & s1 & H0 & H1 & Hfin).
  apply initial_fields in H0 as (Hb0 & Hr0 & _).
  apply analyze_loop_budget in H1. apply add_record_budget in Hfin.
  rewrite Hb0, Hr0 in H1. simpl in H1.
  assert (48 * length (records self) ≤ length track)%nat as Hle by lia.
  split; [done|]. intros Hshort. destruct (records self); [done|].
  simpl in Hle. lia.
Qed.

(** The edge budget on [two_record_track], 112 edges for two records. *)
Lemma analyze_needs_48_edges_per_record_witness :
  analyze 44100 two_record_track =
    Some two_record_tape ∧
  (48 * length (records two_record_tape)
     ≤ length two_record_track)%nat ∧
  ((length two_record_track < 48)%nat →
   records two_record_tape = []).
Proof.
  assert (analyze 44100 two_record_track =
            Some two_record_tape) as H
    by (vm_compute; reflexivity).
  split; [exact H|].
  exact (analyze_needs_48_edges_per_record 44100 two_record_track _ H).
Defined.

Section PositiveBitTime.

Lemma analyze_loop_nbr_priv_elem rate track : ∀ s s',
  analyze_loop rate s track = Some s' →
  nbr_priv s' ∈ nbr_priv s :: (fst <$> track).
Proof.
  induction track as [|[p sg] track IH]; intros s s'; cbn [analyze_loop].
  - intros [= <-]. left.
  - destruct (analyze_edge rate s (p, sg)) as [s2|] eqn:H2; bind_steps; [|done].
    intros Hrun. apply analyze_edge_nbr_priv in H2.
    apply (IH s2) in Hrun.
    cbn [fmap list_fmap fst]. destruct H2 as [E|E]; rewrite E in Hrun.
    + apply elem_of_cons in Hrun as [->|Hin]; [left|]. right. by right.
    + right. apply elem_of_cons in Hrun as [->|Hin]; [left|by right].
Qed.

End PositiveBitTime.

(** On the edges of a track, in increasing position below 2^53, at a
    positive rate below 2^53, [analyze] returns: no quotient of a debug
    line divides by zero and no integer is too large for a double. The bit
    time that it ends with is a double between 2^-9 and 2^54, so not zero;
    the bit buffer is empty and [nbr_priv] is 0 or the position of an edge
    of the track. *)
Theorem analyze_keeps_bit_time_positive rate track :
  0 < rate < 2 ^ 53 →
  ascending_from 0 track →
  positions_below (2 ^ 53) track →
  ∃ self,
    analyze rate track = Some self ∧
    is_finite (tbit self) = true ∧
    (pow2 (-9) <= F2Q (tbit self))%Q ∧ (F2Q (tbit self) <= pow2 54)%Q ∧
    Float.is_zero (tbit self) = false ∧
    bits self = [] ∧
    (nbr_priv self = 0 ∨ nbr_priv self ∈ fst <$> track).
Proof.
  intros Hrate Hasc Hpos.
  destruct (analyze_total rate track Hrate Hasc Hpos) as (self & Hrun & Hsane & Hb).
  exists self. split; [done|]. pose proof (sane_not_zero _ Hsane) as Hz.
  destruct Hsane as (_ & Hf & Hlo & Hhi). repeat (split; [done|]).
  apply analyze_steps in Hrun as (s0 & s1 & H0 & H1 & Hfin).
  apply initial_fields in H0 as (_ & _ & Hn0).
  apply add_record_fields in Hfin as (_ & Hn & _). rewrite Hn.
  pose proof (analyze_loop_nbr_priv_elem rate track s0 s1 H1) as Hin.
  rewrite Hn0 in Hin. apply elem_of_cons in Hin as [->|Hin]; [by left|by right].
Qed.

(** The run over [glitch_demo_track] at 44100 samples per second. *)
Lemma analyze_keeps_bit_time_positive_witness :
  0 < 44100 < 2 ^ 53 ∧
  ascending_from 0 glitch_demo_track ∧
  positions_below (2 ^ 53) glitch_demo_track ∧
  ∃ self,
    analyze 44100 glitch_demo_track = Some self ∧
    is_finite (tbit self) = true ∧
    (pow2 (-9) <= F2Q (tbit self))%Q ∧ (F2Q (tbit self) <= pow2 54)%Q ∧
    Float.is_zero (tbit self) = false ∧
    bits self = [] ∧
    (nbr_priv self = 0 ∨ nbr_priv self ∈ fst <$> glitch_demo_track).
Proof.
  assert (0 < 44100 < 2 ^ 53) as H1 by (split; reflexivity).
  assert (ascending_from 0 glitch_demo_track) as H2 by (simpl; lia).
  assert (positions_below (2 ^ 53) glitch_demo_track) as H3
    by (repeat constructor).
  split; [exact H1|]. split; [exact H2|]. split; [exact H3|].
  exact (analyze_keeps_bit_time_positive 44100 glitch_demo_track H1 H2 H3).
Defined.

(** ** More on the edge detector and the tracks of a file *)

Section DetectorMore.
Import WAVTrack.

Lemma next_sign_cases sign samp :
  next_sign sign samp = 1 ∨ next_sign sign samp = -1 ∨ next_sign sign samp = sign.
Proof.
  unfold next_sign. destruct (_ <? samp); [by left|].
  destruct (samp <? _); [right; by left | right; by right].
Qed.

Lemma iter_loop_alternating snd positions : ∀ sign,
  alternating sign (iter_loop snd sign sign positions).1.
Proof.
  induction positions as [|nbr positions IH]; intros sign; simpl; [done|].
  destruct (sample snd nbr) as [samp|]; simpl; [|done].
  specialize (IH (next_sign sign samp)).
  destruct (iter_loop snd _ _ positions) as [evs fin]. simpl in *.
  destruct (Z.eqb_spec (next_sign sign samp) sign) as [Heq|Hne].
  - by rewrite <- Heq.
  - simpl. split; [|done].
    destruct (next_sign_cases sign samp) as [?|[?|?]]; [by left|by right|done].
Qed.

Lemma iter_loop_finished snd positions : ∀ sign prev_sign,
  Forall (λ nbr, nbr + 1 < length snd)%nat positions →
  (iter_loop snd sign prev_sign positions).2 = true.
Proof.
  induction positions as [|nbr positions IH]; intros sign prev_sign Hall; simpl; [done|].
  apply Forall_cons in Hall as [Hnbr Hall]. unfold sample.
  destruct (lookup_lt_is_Some_2 snd nbr) as [lo ->]; [lia|].
  destruct (lookup_lt_is_Some_2 snd (nbr + 1)) as [hi ->]; [lia|].
  bind_steps.
  specialize (IH (next_sign sign (if 32767 <? lo + hi * 256 then lo + hi * 256 - 65536
                                  else lo + hi * 256))
                 (next_sign sign (if 32767 <? lo + hi * 256 then lo + hi * 256 - 65536
                                  else lo + hi * 256)) Hall).
  destruct (iter_loop snd _ _ positions) as [evs fin]. done.
Qed.

Lemma iter_loop_ext snd1 snd2 positions : ∀ sign prev_sign,
  Forall (λ nbr, sample snd1 nbr = sample snd2 nbr) positions →
  iter_loop snd1 sign prev_sign positions = iter_loop snd2 sign prev_sign positions.
Proof.
  induction positions as [|nbr positions IH]; intros sign prev_sign Hall; simpl; [done|].
  apply Forall_cons in Hall as [-> Hall].
  destruct (sample snd2 nbr) as [samp|]; [|done]. by rewrite IH.
Qed.

Lemma range_elem start stop step nbr :
  nbr ∈ Py.range start stop step →
  ∃ k, nbr = (start + k * step)%nat ∧ (0 < step → nbr < stop)%nat.
Proof.
  unfold Py.range. intros (k & -> & Hk)%list_elem_of_fmap. exists k. split; [done|].
  intros Hstep. apply elem_of_seq in Hk as [_ Hk]. simpl in Hk.
  pose proof (Nat.div_mod_eq (stop - start + step - 1) step) as Hd.
  pose proof (Nat.mod_upper_bound (stop - start + step - 1) step) as Hm.
  revert Hk Hd Hm.
  generalize ((stop - start + step - 1) `div` step)%nat
             ((stop - start + step - 1) `mod` step)%nat.
  intros q r Hk Hd Hm.
  assert (S k ≤ q)%nat as Hq by lia.
  apply (Nat.mul_le_mono_l _ _ step) in Hq. nia.
Qed.

End DetectorMore.

(** The events of a track carry the signs 1 and -1 only, and the signs of
    consecutive events differ: rising and falling edges alternate. *)
Theorem edge_signs_alternate t :
  alternating 0 (WAVTrack.iter t).1.
Proof.
  unfold WAVTrack.iter. destruct (_ =? _)%nat; [done|]. apply iter_loop_alternating.
Qed.

(** A sample is the signed 16-bit number whose two's complement has the low
    byte at [nbr] and the high byte at [nbr + 1]; past the end of the sound
    there is no sample. *)
Theorem sample_is_signed_16_bit snd nbr :
  Forall (λ b, 0 ≤ b < 256) snd →
  match WAVTrack.sample snd nbr with
  | Some samp =>
      ∃ lo hi, snd !! nbr = Some lo ∧ snd !! (nbr + 1)%nat = Some hi ∧
               -32768 ≤ samp ≤ 32767 ∧ samp mod 65536 = lo + 256 * hi
  | None => (length snd ≤ nbr + 1)%nat
  end.
Proof.
  intros Hbytes. unfold WAVTrack.sample.
  destruct (snd !! nbr) as [lo|] eqn:Hlo; bind_steps.
  - destruct (snd !! (nbr + 1)%nat) as [hi|] eqn:Hhi; bind_steps.
    + rewrite Forall_lookup in Hbytes.
      pose proof (Hbytes _ _ Hlo). pose proof (Hbytes _ _ Hhi).
      exists lo, hi. split; [done|]. split; [done|].
      destruct (Z.ltb_spec 32767 (lo + hi * 256)).
      * split; [lia|].
        replace (lo + hi * 256 - 65536) with (lo + 256 * hi + (-1) * 65536) by lia.
        rewrite Z.mod_add by lia. apply Z.mod_small. lia.
      * split; [lia|]. rewrite Z.mod_small by lia. lia.
    + apply lookup_ge_None in Hhi. lia.
  - apply lookup_ge_None in Hlo. lia.
Qed.

(** The sample of the bytes 00 F0, which is -4096. *)
Lemma sample_is_signed_16_bit_witness :
  Forall (λ b, 0 ≤ b < 256) three_bytes ∧
  match WAVTrack.sample three_bytes 0%nat with
  | Some samp =>
      ∃ lo hi, three_bytes !! 0%nat = Some lo ∧ three_bytes !! (0 + 1)%nat = Some hi ∧
               -32768 ≤ samp ≤ 32767 ∧ samp mod 65536 = lo + 256 * hi
  | None => (length three_bytes ≤ 0 + 1)%nat
  end.
Proof.
  assert (Forall (λ b, 0 ≤ b < 256) three_bytes) as H by (repeat constructor; lia).
  split; [exact H|]. exact (sample_is_signed_16_bit three_bytes 0%nat H).
Defined.

(** When the sound is a whole number of frames, the iteration over every
    track of the file runs to its end: no sample is read past the sound. *)
Theorem tracks_of_whole_frames_finish w frames :
  length (WAVFile.sound w) = (frames * (WAVFile.nchannels w * 2))%nat →
  Forall (λ t, (WAVTrack.iter t).2 = true) (WAVFile.iter w).
Proof.
  intros Hlen. unfold WAVFile.iter. apply Forall_fmap, Forall_forall.
  intros chan [_ Hchan]%elem_of_seq. simpl in Hchan. simpl.
  unfold WAVTrack.iter. cbn [WAVTrack.span WAVTrack.sound WAVTrack.offset].
  destruct (Nat.eqb_spec (WAVFile.nchannels w * 2) 0) as [Hz|Hnz]; [lia|].
  apply iter_loop_finished, Forall_forall. intros nbr Hin.
  apply range_elem in Hin as (k & -> & Hstop). specialize (Hstop ltac:(lia)).
  rewrite Hlen in *.
  assert (k < frames)%nat as Hk by nia. nia.
Qed.

(** Both tracks of [stereo_demo], two frames of two channels. *)
Lemma tracks_of_whole_frames_finish_witness :
  length (WAVFile.sound stereo_demo) = (2 * (WAVFile.nchannels stereo_demo * 2))%nat ∧
  Forall (λ t, (WAVTrack.iter t).2 = true) (WAVFile.iter stereo_demo).
Proof.
  assert (length (WAVFile.sound stereo_demo) =
            (2 * (WAVFile.nchannels stereo_demo * 2))%nat) as H by reflexivity.
  split; [exact H|].
  exact (tracks_of_whole_frames_finish stereo_demo 2%nat H).
Defined.

(** A track reads the two bytes at each of its own positions and nothing
    else: sounds of one length that agree there give the same events. *)
Theorem track_reads_its_own_bytes track_no snd1 snd2 offset span rate :
  length snd1 = length snd2 →
  (∀ nbr, nbr ∈ Py.range offset (length snd1) span →
          snd1 !! nbr = snd2 !! nbr ∧ snd1 !! (nbr + 1)%nat = snd2 !! (nbr + 1)%nat) →
  WAVTrack.iter (WAVTrack.mkTrack track_no snd1 offset span rate) =
    WAVTrack.iter (WAVTrack.mkTrack track_no snd2 offset span rate).
Proof.
  intros Hlen Hsame. unfold WAVTrack.iter.
  cbn [WAVTrack.span WAVTrack.sound WAVTrack.offset].
  destruct (span =? 0)%nat; [done|]. rewrite <- Hlen.
  apply iter_loop_ext, Forall_forall. intros nbr Hin.
  destruct (Hsame nbr Hin) as [H0 H1]. unfold WAVTrack.sample. by rewrite H0, H1.
Qed.

(** Two stereo sounds that differ in the second channel only, read on the first. *)
Lemma track_reads_its_own_bytes_witness :
  length stereo_sound_a = length stereo_sound_b ∧
  (∀ nbr, nbr ∈ Py.range 0 (length stereo_sound_a) 4 →
          stereo_sound_a !! nbr = stereo_sound_b !! nbr ∧
          stereo_sound_a !! (nbr + 1)%nat =
            stereo_sound_b !! (nbr + 1)%nat) ∧
  WAVTrack.iter (WAVTrack.mkTrack 0 stereo_sound_a 0 4 44100) =
    WAVTrack.iter (WAVTrack.mkTrack 0 stereo_sound_b 0 4 44100).
Proof.
  assert (length stereo_sound_a = length stereo_sound_b)
    as H1 by reflexivity.
  assert (∀ nbr, nbr ∈ Py.range 0 (length stereo_sound_a) 4 →
          stereo_sound_a !! nbr = stereo_sound_b !! nbr ∧
          stereo_sound_a !! (nbr + 1)%nat =
            stereo_sound_b !! (nbr + 1)%nat) as H2.
  { intros nbr Hin. change (Py.range 0 _ 4) with [0; 4]%nat in Hin.
    apply elem_of_cons in Hin as [->|Hin]; [split; reflexivity|].
    apply elem_of_cons in Hin as [->|Hin]; [split; reflexivity|]. inversion Hin. }
  split; [exact H1|]. split; [exact H2|].
  exact (track_reads_its_own_bytes 0%nat _ _ 0%nat 4%nat 44100 H1 H2).
Defined.

(** ** More on the tape header *)

(** On a first record of at least 3 octets the header interpreter raises
    exactly when the header is recognised (AA 00 00) and either a label
    octet is not ASCII, in which case nothing was yielded, or the record is
    shorter than 68 octets, in which case the three label lines were. *)
Theorem header_raises_exactly_when recs head :
  recs !! 0%nat = Some head →
  (3 ≤ length head)%nat →
  ((interpret_tape_header recs).2 = None ↔
     head !! 0%nat = Some 0xaa ∧ head !! 1%nat = Some 0 ∧ head !! 2%nat = Some 0 ∧
     (¬ Forall (λ b, b < 128) (Py.slice head 4 54) ∨ (length head < 68)%nat)) ∧
  (head !! 0%nat = Some 0xaa → head !! 1%nat = Some 0 → head !! 2%nat = Some 0 →
   ¬ Forall (λ b, b < 128) (Py.slice head 4 54) →
   interpret_tape_header recs = ([], None)) ∧
  (head !! 0%nat = Some 0xaa → head !! 1%nat = Some 0 → head !! 2%nat = Some 0 →
   Forall (λ b, b < 128) (Py.slice head 4 54) → (length head < 68)%nat →
   interpret_tape_header recs =
     ([Gen.Yield "Tape label:";
       Gen.Yield (Py.TAB ++ Py.rstrip (ascii_text (Py.slice head 4 54)))%string;
       Gen.Yield "File list:"], None)).
Proof.
  intros Hhead Hlen. unfold interpret_tape_header. rewrite Hhead.
  destruct (lookup_lt_is_Some_2 head 0) as [h0 H0]; [lia|].
  destruct (lookup_lt_is_Some_2 head 1) as [h1 H1]; [lia|].
  destruct (lookup_lt_is_Some_2 head 2) as [h2 H2]; [lia|].
  rewrite H0, H1, H2.
  destruct (Z.eqb_spec h0 0xaa) as [->|?]; cbn [negb];
    [|split; [split; [done|intros ([=] & _); done]|split; intros [=]; done]].
  destruct (Z.eqb_spec h1 0) as [->|?]; cbn [negb];
    [|split; [split; [done|intros (_ & [=] & _); done]|split; intros _ [=]; done]].
  destruct (Z.eqb_spec h2 0) as [->|?]; cbn [negb];
    [|split; [split; [done|intros (_ & _ & [=] & _); done]|split; intros _ _ [=]; done]].
  unfold Py.decode_ascii. change (4 + 50)%nat with 54%nat.
  destruct (Py.decode_from 0 (Py.slice head 4 54)) as [label|byte q] eqn:Hlabel.
  - apply decode_from_decoded in Hlabel as [Hascii ->].
    unfold Gen.bind, Gen.yield. change (54 + 13)%nat with 67%nat.
    destruct (decide (length head < 68)%nat) as [Hshort|Hlong].
    + assert (file_list (length head - 67) head 67 = Gen.raise) as ->.
      { destruct (length head - 67)%nat; cbn [file_list];
          by rewrite (proj2 (lookup_ge_None head 67)) by lia. }
      cbn. split; [split; [intros _; auto 10|done]|]. split; [done|]. done.
    + destruct (file_list_listing (length head - 67) head 67)
        as (n & stop & -> & _ & _); [lia..|].
      cbn. split; [|split; [done|intros; lia]].
      split; [done|]. intros (_ & _ & _ & [?|?]); [done|lia].
  - apply decode_from_error in Hlabel as [Hin Hbyte].
    assert (¬ Forall (λ b, b < 128) (Py.slice head 4 54)) as Hnot.
    { intros Hall. rewrite Forall_forall in Hall. specialize (Hall _ Hin). lia. }
    cbn. split; [split; [intros _; auto 10|done]|]. split; [done|]. done.
Qed.

(** The characterisation at [short_header]. *)
Lemma header_raises_exactly_when_witness :
  [short_header] !! 0%nat = Some short_header ∧
  (3 ≤ length short_header)%nat ∧
  ((interpret_tape_header [short_header]).2 = None ↔
     short_header !! 0%nat = Some 0xaa ∧
     short_header !! 1%nat = Some 0 ∧
     short_header !! 2%nat = Some 0 ∧
     (¬ Forall (λ b, b < 128) (Py.slice short_header 4 54) ∨
      (length short_header < 68)%nat)) ∧
  (short_header !! 0%nat = Some 0xaa →
   short_header !! 1%nat = Some 0 →
   short_header !! 2%nat = Some 0 →
   ¬ Forall (λ b, b < 128) (Py.slice short_header 4 54) →
   interpret_tape_header [short_header] = ([], None)) ∧
  (short_header !! 0%nat = Some 0xaa →
   short_header !! 1%nat = Some 0 →
   short_header !! 2%nat = Some 0 →
   Forall (λ b, b < 128) (Py.slice short_header 4 54) →
   (length short_header < 68)%nat →
   interpret_tape_header [short_header] =
     ([Gen.Yield "Tape label:";
       Gen.Yield (Py.TAB ++ Py.rstrip (ascii_text (Py.slice short_header 4 54)))%string;
       Gen.Yield "File list:"], None)).
Proof.
  assert ([short_header] !! 0%nat = Some short_header) as H1
    by reflexivity.
  assert (3 ≤ length short_header)%nat as H2 by (vm_compute; lia).
  split; [exact H1|]. split; [exact H2|].
  exact (header_raises_exactly_when [short_header] short_header H1 H2).
Defined.

(** ** The DS2089 character set *)

Section DS2089.

Lemma replace_app old new a b :
  Py.replace old new (a ++ b) = (Py.replace old new a ++ Py.replace old new b)%string.
Proof.
  induction a as [|c a IH]; [done|]. cbn [String.append Py.replace].
  rewrite IH. destruct (Ascii.eqb c old); [|done]. by rewrite string_app_assoc.
Qed.

Lemma ds2089_app a b : ds2089 (a ++ b) = (ds2089 a ++ ds2089 b)%string.
Proof. unfold ds2089. cbn. by rewrite !replace_app. Qed.

Lemma ds2089_single c : ds2089 (String c EmptyString) = ds2089_char c.
Proof. destruct c as [[] [] [] [] [] [] [] []]; reflexivity. Qed.

Lemma ds2089_cons c text : ds2089 (String c text) = (ds2089_char c ++ ds2089 text)%string.
Proof.
  change (String c text) with (String c EmptyString ++ text)%string.
  by rewrite ds2089_app, ds2089_single.
Qed.

Lemma occurs_app c a b : Py.occurs c (a ++ b) = Py.occurs c a || Py.occurs c b.
Proof. induction a as [|x a IH]; [done|]. simpl. by rewrite IH, orb_assoc. Qed.

Lemma ds2089_char_clean c x :
  ds2089_replaced x = true → Py.occurs x (ds2089_char c) = false.
Proof.
  unfold ds2089_replaced. cbn [Py.occurs]. intros H.
  repeat (apply orb_true_iff in H as [H|H]); try discriminate;
    apply Ascii.eqb_eq in H as <-;
    destruct c as [[] [] [] [] [] [] [] []]; reflexivity.
Qed.

Lemma ds2089_char_keeps c :
  ds2089_replaced c = false → ds2089_char c = String c EmptyString.
Proof. destruct c as [[] [] [] [] [] [] [] []]; (discriminate || reflexivity). Qed.

End DS2089.

(** [ds2089] works character by character: it distributes over
    concatenation, its result holds none of the six characters [ \ ] { | },
    it leaves every other character in place, and a second pass changes
    nothing. *)
Theorem ds2089_replaces_the_six_characters :
  (∀ a b, ds2089 (a ++ b) = (ds2089 a ++ ds2089 b)%string) ∧
  (∀ text x, ds2089_replaced x = true → Py.occurs x (ds2089 text) = false) ∧
  (∀ c text, ds2089_replaced c = false →
             ds2089 (String c text) = String c (ds2089 text)) ∧
  (∀ text, ds2089 (ds2089 text) = ds2089 text).
Proof.
  assert (∀ text x, ds2089_replaced x = true → Py.occurs x (ds2089 text) = false)
    as Hclean.
  { intros text x Hx. induction text as [|c text IH]; [done|].
    by rewrite ds2089_cons, occurs_app, IH, ds2089_char_clean. }
  assert (∀ c text, ds2089_replaced c = false →
                    ds2089 (String c text) = String c (ds2089 text)) as Hkeep.
  { intros c text Hc. by rewrite ds2089_cons, ds2089_char_keeps. }
  split; [apply ds2089_app|]. split; [done|]. split; [done|].
  intros text.
  assert (∀ s, (∀ x, ds2089_replaced x = true → Py.occurs x s = false) → ds2089 s = s)
    as Hfix.
  { induction s as [|c s IH]; intros Hs; [done|].
    destruct (ds2089_replaced c) eqn:Hc.
    - specialize (Hs c Hc). cbn [Py.occurs] in Hs. by rewrite Ascii.eqb_refl in Hs.
    - rewrite Hkeep by done. f_equal. apply IH. intros x Hx.
      specialize (Hs x Hx). cbn [Py.occurs] in Hs. by apply orb_false_iff in Hs as [_ ?]. }
  apply Hfix. intros x Hx. by apply Hclean.
Qed.

(** ** The metadata file *)

Section Metafile.

Lemma header_writes_tab outs : Forall tab_line (header_writes outs).
Proof.
  induction outs as [|[s|s] outs IH]; cbn; [constructor| |done].
  constructor; [|done]. by eexists.
Qed.

Lemma record_writes_tab recs : Forall tab_line (record_writes recs).1.
Proof.
  induction recs as [|rec recs IH]; cbn [record_writes]; [constructor|].
  destruct (report_record rec) as [text|]; [|constructor].
  destruct (record_writes recs) as [writes ok]. cbn in *.
  constructor; [|done]. by eexists.
Qed.

Lemma record_writes_ok recs :
  (record_writes recs).2 = true ↔ Forall (λ rec, rec ≠ []) recs.
Proof.
  induction recs as [|rec recs IH]; cbn [record_writes]; [by split; [constructor|]|].
  destruct rec as [|x rec].
  - rewrite report_record_nil. cbn. split; [done|]. by intros [? _]%Forall_cons.
  - destruct (report_record_is_Some (x :: rec)) as [text ->]; [done|].
    destruct (record_writes recs) as [writes ok]. cbn in *. rewrite IH.
    split; [by constructor | by intros [_ ?]%Forall_cons].
Qed.

Lemma record_writes_length recs :
  (record_writes recs).2 = true → length (record_writes recs).1 = length recs.
Proof.
  induction recs as [|rec recs IH]; cbn [record_writes]; [done|].
  destruct (report_record rec) as [text|]; [|done].
  destruct (record_writes recs) as [writes ok]. cbn in *. intros Hok. by rewrite IH.
Qed.

Lemma tab_line_not_end l :
  Forall tab_line l → Forall (λ s, s ≠ ("*END*" ++ Py.NL)%string) l.
Proof. intros H. eapply Forall_impl; [exact H|]. intros s [t ->]. discriminate. Qed.

Lemma meta_preamble_not_end filename :
  Forall (λ s, s ≠ ("*END*" ++ Py.NL)%string) (meta_preamble filename).
Proof. unfold meta_preamble, meta_field. cbn. repeat constructor; discriminate. Qed.

Lemma last_not_end l :
  Forall (λ s, s ≠ ("*END*" ++ Py.NL)%string) l →
  last l ≠ Some ("*END*" ++ Py.NL)%string.
Proof.
  intros Hall Hlast. apply last_Some_elem_of in Hlast.
  rewrite Forall_forall in Hall. by apply (Hall _ Hlast).
Qed.

End Metafile.

(** [write_metafile] always writes the fixed fields first; it returns
    exactly when the header interpreter does not raise and no record is
    empty, and exactly then the last thing written is the [*END*] line, with
    one line for each record before it. *)
Theorem metafile_is_complete_exactly_when filename recs :
  ∃ rest,
    (write_metafile filename recs).1.1 = meta_preamble filename ++ rest ∧
    ((write_metafile filename recs).2 = true ↔
       (interpret_tape_header recs).2 = Some tt ∧ Forall (λ rec, rec ≠ []) recs) ∧
    ((write_metafile filename recs).2 = true ↔
       last (write_metafile filename recs).1.1 = Some ("*END*" ++ Py.NL)%string) ∧
    ((write_metafile filename recs).2 = true →
       ∃ lines,
         length lines = length recs ∧
         rest = header_writes (interpret_tape_header recs).1
                  ++ [(Py.TAB ++ "Tape Records:" ++ Py.NL)%string] ++ lines
                  ++ [Py.NL; ("*END*" ++ Py.NL)%string]).
Proof.
  unfold write_metafile.
  pose proof (meta_preamble_not_end filename) as Hpre.
  destruct (interpret_tape_header recs) as [outs [[]|]] eqn:Hhead; cbn [fst snd].
  - pose proof (record_writes_ok recs) as Hok.
    pose proof (tab_line_not_end _ (record_writes_tab recs)) as Htab.
    pose proof (record_writes_length recs) as Hlen.
    destruct (record_writes recs) as [writes [|]]; cbn [fst snd] in *.
    + eexists. split; [by rewrite <- !app_assoc|].
      split; [split; [intros _; split; [done|by apply Hok]|done]|].
      split.
      * split; [intros _|done]. rewrite !last_app. reflexivity.
      * intros _. exists writes. split; [by apply Hlen|]. done.
    + eexists. split; [by rewrite <- !app_assoc|].
      split; [split; [done|intros [_ H]; by apply Hok in H]|].
      split; [|done]. split; [done|]. intros Hlast. exfalso.
      revert Hlast. apply last_not_end.
      apply Forall_app; split; [|exact Htab].
      apply Forall_app; split; [|repeat constructor; discriminate].
      apply Forall_app; split; [exact Hpre|].
      apply tab_line_not_end, header_writes_tab.
  - eexists. split; [done|].
    split; [split; [done|by intros [? _]]|].
    split; [|done]. split; [done|]. intros Hlast. exfalso.
    revert Hlast. apply last_not_end. apply Forall_app. split; [done|].
    apply tab_line_not_end, header_writes_tab.
Qed.

(** ** Record sizes, the constructor and the program *)

Section RecordSizes.

Lemma within_edges_mono n m self : (n ≤ m)%nat → within_edges n self → within_edges m self.
Proof.
  intros Hnm [Hb Hr]. split; [lia|]. eapply Forall_impl; [exact Hr|]. simpl. intros; lia.
Qed.

Lemma packed_length_le nbits : (8 * packed_length nbits ≤ nbits + 7)%nat.
Proof.
  unfold packed_length.
  pose proof (Nat.div_mod_eq (nbits + 7) 8) as Hd.
  revert Hd. generalize ((nbits + 7) `div` 8)%nat ((nbits + 7) `mod` 8)%nat. lia.
Qed.

Lemma add_record_within n nbr self self' :
  within_edges n self → add_record nbr self = Some self' → within_edges n self'.
Proof.
  intros [Hb Hr]. destruct (Nat.lt_ge_cases (length (bits self)) 48) as [Hlt|Hge].
  - rewrite add_record_short by done. intros [= <-]. split; [simpl; lia|done].
  - destruct (add_record_long nbr self Hge) as (octets & rec & Hp & _ & Hl & _ & ->).
    intros [= <-]. split; [simpl; lia|]. simpl.
    apply Forall_app. split; [done|]. apply Forall_singleton.
    apply pack_octets_length in Hp. pose proof (packed_length_le (length (bits self))). lia.
Qed.

Lemma analyze_edge_within n rate self edge self' :
  within_edges n self → analyze_edge rate self edge = Some self' →
  within_edges (S n) self'.
Proof.
  intros Hin. destruct edge as [nbr sign]. intros H.
  apply analyze_edge_shape in H as [(fin & Hfin & H)|[->|(t & ->)]].
  - apply (add_record_within n) in Hfin; [|done].
    destruct H as [->|(seed & ->)].
    + by apply (within_edges_mono n); [lia|].
    + destruct Hfin as [_ Hr]. split; [simpl; lia|]. simpl.
      eapply Forall_impl; [exact Hr|]. simpl. intros; lia.
  - by apply (within_edges_mono n); [lia|].
  - destruct Hin as [Hb Hr].
    split; [simpl; rewrite length_app; simpl; lia|]. simpl.
    eapply Forall_impl; [exact Hr|]. simpl. intros; lia.
Qed.

Lemma analyze_loop_within rate track : ∀ n self self',
  within_edges n self → analyze_loop rate self track = Some self' →
  within_edges (n + length track) self'.
Proof.
  induction track as [|edge track IH]; intros n self self' Hin; cbn [analyze_loop].
  - intros [= <-]. by rewrite Nat.add_0_r.
  - destruct (analyze_edge rate self edge) as [s1|] eqn:H1; bind_steps; [|done].
    intros Hrun. apply (analyze_edge_within n) in H1; [|done].
    apply (IH (S n)) in Hrun; [|done]. cbn [length].
    by replace (n + S (length track))%nat with (S n + length track)%nat by lia.
Qed.

Lemma iter_loop_length snd positions : ∀ sign prev_sign,
  (length (WAVTrack.iter_loop snd sign prev_sign positions).1 ≤ length positions)%nat.
Proof.
  induction positions as [|nbr positions IH]; intros sign prev_sign; simpl; [done|].
  destruct (WAVTrack.sample snd nbr) as [samp|]; simpl; [|lia].
  specialize (IH (WAVTrack.next_sign sign samp) (WAVTrack.next_sign sign samp)).
  destruct (WAVTrack.iter_loop snd _ _ positions) as [evs fin]. simpl in *.
  destruct (_ =? _); simpl; lia.
Qed.

Lemma range_length start stop step :
  (0 < step)%nat → (length (Py.range start stop step) ≤ stop)%nat.
Proof.
  intros Hstep. unfold Py.range. rewrite length_fmap, length_seq.
  destruct stop as [|stop].
  - rewrite Nat.div_small; lia.
  - apply Nat.Div0.div_le_upper_bound.
    assert (S stop - start ≤ S stop)%nat by lia. nia.
Qed.

Lemma iter_length t : (length (WAVTrack.iter t).1 ≤ length (WAVTrack.sound t))%nat.
Proof.
  unfold WAVTrack.iter. destruct (Nat.eqb_spec (WAVTrack.span t) 0); [simpl; lia|].
  etrans; [apply iter_loop_length|]. apply range_length. lia.
Qed.

Lemma analyze_within rate track self :
  analyze rate track = Some self → within_edges (length track) self.
Proof.
  intros Hrun. apply analyze_steps in Hrun as (s0 & s1 & H0 & H1 & Hfin).
  apply initial_fields in H0 as (Hb0 & Hr0 & _).
  apply (analyze_loop_within rate track 0) in H1;
    [|split; [rewrite Hb0; simpl; lia|rewrite Hr0; constructor]].
  by apply (add_record_within (0 + length track)) in Hfin.
Qed.

Lemma iter_ascending t : ascending_from 0 (WAVTrack.iter t).1.
Proof.
  unfold WAVTrack.iter. destruct (Nat.eqb_spec (WAVTrack.span t) 0); [done|].
  apply (ascending_from_weaken 0 (Z.of_nat (WAVTrack.offset t))); [lia|].
  apply iter_loop_ascending, range_increasing. lia.
Qed.

Lemma iter_loop_positions snd positions : ∀ sign prev_sign,
  positions_below (Z.of_nat (length snd)) (WAVTrack.iter_loop snd sign prev_sign positions).1.
Proof.
  induction positions as [|nbr positions IH]; intros sign prev_sign; simpl;
    [constructor|].
  destruct (WAVTrack.sample snd nbr) as [samp|] eqn:Hs; simpl; [|constructor].
  specialize (IH (WAVTrack.next_sign sign samp) (WAVTrack.next_sign sign samp)).
  destruct (WAVTrack.iter_loop snd _ _ positions) as [evs fin]. simpl in *.
  destruct (_ =? _); simpl; [done|]. constructor; [|done]. simpl.
  unfold WAVTrack.sample in Hs. destruct (snd !! nbr) eqn:Hl; [|done].
  apply lookup_lt_Some in Hl. lia.
Qed.

Lemma iter_positions t :
  positions_below (Z.of_nat (length (WAVTrack.sound t))) (WAVTrack.iter t).1.
Proof.
  unfold WAVTrack.iter. destruct (Nat.eqb_spec (WAVTrack.span t) 0); [constructor|].
  apply iter_loop_positions.
Qed.

Lemma positions_below_mono a b track :
  a ≤ b → positions_below a track → positions_below b track.
Proof.
  intros Hab H. eapply Forall_impl; [exact H|]. simpl. intros; lia.
Qed.

Lemma write_tapfile_within n recs :
  Z.of_nat n < 2 ^ 32 →
  Forall (λ rec, 8 * length rec ≤ n + 7)%nat recs →
  write_tapfile recs = Some (concat (tap_block <$> recs) ++ [0xff; 0xff; 0xff; 0xff]).
Proof.
  intros Hsmall Hr. unfold write_tapfile. rewrite write_records_blocks; [done|].
  eapply Forall_impl; [exact Hr|]. simpl. intros rec Hrec. lia.
Qed.

Lemma write_metafile_returns filename recs :
  Forall reportable recs →
  (write_metafile filename recs).2 = (bool_decide ((interpret_tape_header recs).2 = Some tt)).
Proof.
  intros Hrep. unfold write_metafile.
  destruct (interpret_tape_header recs) as [outs [[]|]]; cbn [fst snd]; [|done].
  pose proof (proj2 (record_writes_ok recs)) as Hok.
  destruct (record_writes recs) as [writes [|]]; cbn [fst snd] in *; [done|].
  exfalso. assert (false = true); [|done]. apply Hok.
  eapply Forall_impl; [exact Hrep|]. intros rec [Hlen _] ->. simpl in Hlen. lia.
Qed.

End RecordSizes.

(** A record has at most one octet for every 8 edges of the track, rounded
    up; so on a track of fewer than 2^32 edges [write_tapfile] packs every
    length and returns. *)
Theorem records_fit_the_length_field rate track self :
  analyze rate track = Some self →
  Forall (λ rec, 8 * length rec ≤ length track + 7)%nat (records self) ∧
  (Z.of_nat (length track) < 2 ^ 32 → is_Some (write_tapfile (records self))).
Proof.
  intros Hrun. apply analyze_within in Hrun as [_ Hr]. split; [done|].
  intros Hsmall. rewrite (write_tapfile_within (length track)) by done. by eexists.
Qed.

(** The size bound on [two_record_track]. *)
Lemma records_fit_the_length_field_witness :
  analyze 44100 two_record_track = Some two_record_tape ∧
  Forall (λ rec, 8 * length rec ≤ length two_record_track + 7)%nat
         (records two_record_tape) ∧
  (Z.of_nat (length two_record_track) < 2 ^ 32 →
   is_Some (write_tapfile (records two_record_tape))).
Proof.
  assert (analyze 44100 two_record_track = Some two_record_tape) as H
    by (vm_compute; reflexivity).
  split; [exact H|].
  exact (records_fit_the_length_field 44100 two_record_track two_record_tape H).
Defined.

(** On a track whose iteration finishes, over a sound of less than 2^32
    bytes and at a positive rate below 2^53, the constructor always gets
    its tape from [analyze]; it writes no file when there is no record;
    otherwise it writes the whole [.TAP] file and starts the metadata file,
    and it returns exactly when the header interpreter does not raise. *)
Theorem constructor_raises_only_in_the_header filename t :
  (WAVTrack.iter t).2 = true →
  Z.of_nat (length (WAVTrack.sound t)) < 2 ^ 32 →
  0 < WAVTrack.rate t < 2 ^ 53 →
  ∃ self,
    analyze (WAVTrack.rate t) (WAVTrack.iter t).1 = Some self ∧
    Main.tape (Main.CometTape_init filename t) = Some self ∧
    (records self = [] →
       Main.CometTape_init filename t = Main.mkSession (Some self) None None true) ∧
    (records self ≠ [] →
       Main.tapfile (Main.CometTape_init filename t) =
         Some (concat (tap_block <$> records self) ++ [0xff; 0xff; 0xff; 0xff]) ∧
       Main.metafile (Main.CometTape_init filename t) =
         Some (write_metafile filename (records self)).1.1 ∧
       (Main.returned (Main.CometTape_init filename t) = true ↔
          (interpret_tape_header (records self)).2 = Some tt)).
Proof.
  intros Hfin Hsmall Hrate.
  destruct (analyze_total (WAVTrack.rate t) (WAVTrack.iter t).1 Hrate (iter_ascending t))
    as (self & Hrun & _).
  { apply (positions_below_mono (Z.of_nat (length (WAVTrack.sound t)))); [lia|].
    apply iter_positions. }
  pose proof (analyze_reportable _ _ _ Hrun) as Hrep.
  pose proof (analyze_within _ _ _ Hrun) as [_ Hr].
  pose proof (iter_length t) as Hlen.
  exists self. split; [done|]. unfold Main.CometTape_init.
  destruct (WAVTrack.iter t) as [edges fin]. cbn [fst snd] in *. subst fin. cbn [negb].
  rewrite Hrun.
  destruct (records self) as [|rec recs] eqn:Hrecs.
  - split; [done|]. split; [done|]. done.
  - rewrite (write_tapfile_within (length edges)) by (done || lia).
    pose proof (write_metafile_returns filename (rec :: recs) Hrep) as Hret.
    destruct (write_metafile filename (rec :: recs)) as [[meta prints] ok].
    cbn [fst snd] in *. split; [done|]. split; [done|]. intros _.
    split; [done|]. split; [done|]. rewrite Hret. apply bool_decide_eq_true.
Qed.

(** The constructor on [square_track]: 56 edges, one record of 7 octets
    0xAA, both files written; the record is no tape header, so the header
    interpreter yields nothing and the constructor returns. *)
Lemma constructor_raises_only_in_the_header_witness :
  (WAVTrack.iter square_track).2 = true ∧
  Z.of_nat (length (WAVTrack.sound square_track)) < 2 ^ 32 ∧
  0 < WAVTrack.rate square_track < 2 ^ 53 ∧
  ∃ self,
    analyze (WAVTrack.rate square_track) (WAVTrack.iter square_track).1 = Some self ∧
    records self = [replicate 7 0xaa] ∧
    Main.tape (Main.CometTape_init "t.wav" square_track) = Some self ∧
    Main.tapfile (Main.CometTape_init "t.wav" square_track) =
      Some (concat (tap_block <$> records self) ++ [0xff; 0xff; 0xff; 0xff]) ∧
    Main.metafile (Main.CometTape_init "t.wav" square_track) =
      Some (write_metafile "t.wav" (records self)).1.1 ∧
    (Main.returned (Main.CometTape_init "t.wav" square_track) = true ↔
       (interpret_tape_header (records self)).2 = Some tt) ∧
    Main.returned (Main.CometTape_init "t.wav" square_track) = true.
Proof.
  assert ((WAVTrack.iter square_track).2 = true) as H1 by reflexivity.
  assert (Z.of_nat (length (WAVTrack.sound square_track)) < 2 ^ 32) as H2
    by (vm_compute; reflexivity).
  assert (0 < WAVTrack.rate square_track < 2 ^ 53) as H3 by (split; reflexivity).
  split; [exact H1|]. split; [exact H2|]. split; [exact H3|].
  destruct (constructor_raises_only_in_the_header "t.wav" square_track H1 H2 H3)
    as (self & Hrun & Htape & _ & Hfiles).
  assert (records <$> analyze (WAVTrack.rate square_track) (WAVTrack.iter square_track).1 =
          Some [replicate 7 0xaa]) as Hval by (vm_compute; reflexivity).
  assert (records self = [replicate 7 0xaa]) as Hrecs.
  { rewrite Hrun in Hval. by injection Hval. }
  assert (records self ≠ []) as Hne by (rewrite Hrecs; discriminate).
  destruct (Hfiles Hne) as (Htap & Hmeta & Hret).
  exists self. split; [exact Hrun|]. split; [exact Hrecs|]. split; [exact Htape|].
  split; [exact Htap|]. split; [exact Hmeta|]. split; [exact Hret|].
  apply Hret. rewrite Hrecs. reflexivity.
Defined.

Section Program.

Lemma init_quiet filename t :
  Main.returned (Main.CometTape_init filename t) = true →
  Main.has_records (Main.CometTape_init filename t) = false →
  Main.tapfile (Main.CometTape_init filename t) = None ∧
  Main.metafile (Main.CometTape_init filename t) = None.
Proof.
  unfold Main.CometTape_init.
  destruct (WAVTrack.iter t) as [edges [|]]; cbn [negb]; [|done].
  destruct (analyze (WAVTrack.rate t) edges) as [self|]; [|done].
  destruct (records self) as [|rec recs] eqn:Hrecs; [done|].
  destruct (write_tapfile (rec :: recs)); [|done].
  destruct (write_metafile filename (rec :: recs)) as [[meta prints] ok].
  unfold Main.has_records. cbn. rewrite Hrecs. done.
Qed.

Lemma do_tracks_sessions filename tracks : ∀ i s,
  Main.do_tracks filename tracks !! i = Some s →
  (∃ t, tracks !! i = Some t ∧ s = Main.CometTape_init filename t) ∧
  (S i < length (Main.do_tracks filename tracks) →
   Main.returned s = true ∧ Main.has_records s = false)%nat.
Proof.
  induction tracks as [|t tracks IH]; intros i s; cbn [Main.do_tracks]; [done|].
  destruct (negb (Main.returned (Main.CometTape_init filename t))
            || Main.has_records (Main.CometTape_init filename t)) eqn:Hstop.
  - destruct i; [|done]. intros [= <-]. split; [by exists t|]. simpl. lia.
  - destruct i as [|i].
    + intros [= <-]. split; [by exists t|]. intros _.
      apply orb_false_iff in Hstop as [Hr Hh]. by apply negb_false_iff in Hr.
    + cbn [lookup list_lookup length]. intros Hs. destruct (IH i s Hs) as [Ht Hq].
      split; [done|]. intros Hlt. apply Hq. lia.
Qed.

Lemma do_tracks_stops filename tracks :
  (length (Main.do_tracks filename tracks) ≤ length tracks)%nat ∧
  ((length (Main.do_tracks filename tracks) < length tracks)%nat →
   ∃ s, last (Main.do_tracks filename tracks) = Some s ∧
        (Main.returned s = false ∨ Main.has_records s = true)).
Proof.
  induction tracks as [|t tracks [IH1 IH2]]; cbn [Main.do_tracks]; [split; [done|simpl; lia]|].
  destruct (negb (Main.returned (Main.CometTape_init filename t))
            || Main.has_records (Main.CometTape_init filename t)) eqn:Hstop.
  - split; [simpl; lia|]. intros _. eexists. split; [done|].
    apply orb_true_iff in Hstop as [Hr|Hh]; [left|by right]. by apply negb_true_iff in Hr.
  - cbn [length]. split; [lia|]. intros Hlt.
    destruct IH2 as (s & Hlast & Hs); [lia|]. exists s. split; [|done].
    destruct (Main.do_tracks filename tracks); [done|]. done.
Qed.

End Program.

(** [do_wavfile] refuses a file unless the sample width is 2 and the rate
    44100. Otherwise it builds the tapes of the channels in order, channel
    [i] from offset [2 i] with a stride of twice the channel count, and
    stops after the first tape that has records or whose constructor
    raised: every tape before the last one returned, has no records and
    wrote no file. *)
Theorem do_wavfile_stops_at_first_records filename w :
  (Main.do_wavfile filename w = None ↔
     WAVFile.sampwidth w ≠ 2 ∨ WAVFile.framerate w ≠ 44100) ∧
  ∀ sessions,
    Main.do_wavfile filename w = Some sessions →
    (length sessions ≤ WAVFile.nchannels w)%nat ∧
    (∀ i s, sessions !! i = Some s →
       s = Main.CometTape_init filename
             (WAVTrack.mkTrack i (WAVFile.sound w) (i * 2) (WAVFile.nchannels w * 2) 44100) ∧
       ((S i < length sessions)%nat →
        Main.returned s = true ∧ Main.has_records s = false ∧
        Main.tapfile s = None ∧ Main.metafile s = None)) ∧
    ((length sessions < WAVFile.nchannels w)%nat →
     ∃ s, last sessions = Some s ∧
          (Main.returned s = false ∨ Main.has_records s = true)).
Proof.
  unfold Main.do_wavfile, WAVFile.init.
  destruct (Z.eqb_spec (WAVFile.sampwidth w) 2) as [Hw|Hw];
    destruct (Z.eqb_spec (WAVFile.framerate w) 44100) as [Hr|Hr]; cbn;
    try (split; [split; [intros _; auto|done]|done]).
  split; [split; [done|intros [?|?]; done]|].
  intros sessions [= <-].
  pose proof (do_tracks_stops filename (WAVFile.iter w)) as [Hlen Hlast].
  assert (length (WAVFile.iter w) = WAVFile.nchannels w) as E
    by (unfold WAVFile.iter; by rewrite length_fmap, length_seq).
  rewrite E in Hlen, Hlast.
  split; [done|]. split; [|done].
  intros i s Hs. destruct (do_tracks_sessions _ _ _ _ Hs) as [(t & Ht & ->) Hq].
  unfold WAVFile.iter in Ht. rewrite list_lookup_fmap in Ht.
  destruct (seq 0 (WAVFile.nchannels w) !! i) as [chan|] eqn:Hchan; [|done].
  apply lookup_seq in Hchan as [-> _]. cbn in Ht. injection Ht as <-. rewrite Hr.
  split; [done|]. intros Hlt. destruct (Hq Hlt) as [H1 H2].
  rewrite Hr in H1, H2. split; [done|]. split; [done|]. by apply init_quiet.
Qed.

(** ** More on the tape image *)

Section ImageDecoding.

Lemma le32_inj a b :
  0 ≤ a < 2 ^ 32 → 0 ≤ b < 2 ^ 32 → le32 a = le32 b → a = b.
Proof.
  intros Ha Hb Heq.
  destruct (le32_value a Ha) as (a0 & a1 & a2 & a3 & Ea & _ & ->).
  destruct (le32_value b Hb) as (b0 & b1 & b2 & b3 & Eb & _ & ->).
  rewrite Ea, Eb in Heq. by injection Heq as -> -> -> ->.
Qed.

Lemma le32_length n : length (le32 n) = 4%nat.
Proof. reflexivity. Qed.

Lemma tap_block_inj rec1 rec2 rest1 rest2 :
  Z.of_nat (length rec1) < 2 ^ 32 → Z.of_nat (length rec2) < 2 ^ 32 →
  tap_block rec1 ++ rest1 = tap_block rec2 ++ rest2 →
  rec1 = rec2 ∧ rest1 = rest2.
Proof.
  intros H1 H2. unfold tap_block. rewrite <- !app_assoc. intros Heq.
  apply app_inj_1 in Heq as [Hlen Heq]; [|by rewrite !le32_length].
  apply le32_inj in Hlen; [|lia..]. apply Nat2Z.inj in Hlen.
  apply app_inj_1 in Heq as [-> Heq]; [|done]. split; [done|].
  apply app_inj_1 in Heq as [_ Heq]; [|done].
  by apply app_inj_1 in Heq as [_ Heq].
Qed.

Lemma tap_blocks_inj recs1 : ∀ recs2,
  Forall (λ rec, Z.of_nat (length rec) < 2 ^ 32 - 1) recs1 →
  Forall (λ rec, Z.of_nat (length rec) < 2 ^ 32 - 1) recs2 →
  concat (tap_block <$> recs1) ++ le32 0xFFFFFFFF =
    concat (tap_block <$> recs2) ++ le32 0xFFFFFFFF →
  recs1 = recs2.
Proof.
  assert (∀ rec rest, Z.of_nat (length rec) < 2 ^ 32 - 1 →
            le32 0xFFFFFFFF ≠ tap_block rec ++ rest) as Hmark.
  { intros rec rest Hrec Heq. unfold tap_block in Heq. rewrite <- !app_assoc in Heq.
    rewrite <- (app_nil_r (le32 0xFFFFFFFF)) in Heq.
    apply app_inj_1 in Heq as [Hlen _]; [|done].
    apply le32_inj in Hlen; lia. }
  induction recs1 as [|rec1 recs1 IH]; intros [|rec2 recs2] Hall1 Hall2;
    cbn [fmap list_fmap concat app]; try done.
  - intros Heq. apply Forall_cons in Hall2 as [H2 _]. exfalso.
    rewrite <- app_assoc in Heq. by apply (Hmark _ _ H2) in Heq.
  - intros Heq. apply Forall_cons in Hall1 as [H1 _]. exfalso.
    rewrite <- app_assoc in Heq. symmetry in Heq. by apply (Hmark _ _ H1) in Heq.
  - apply Forall_cons in Hall1 as [H1 Hall1]. apply Forall_cons in Hall2 as [H2 Hall2].
    rewrite <- !app_assoc. intros Heq.
    apply tap_block_inj in Heq as [-> Heq]; [|lia..]. f_equal. by apply IH.
Qed.

Lemma tap_block_even rec : Nat.Even (length (tap_block rec)).
Proof.
  unfold tap_block. rewrite !length_app, !le32_length.
  destruct (Z.odd (Z.of_nat (length rec))) eqn:Hodd; cbn [length].
  - apply Z.odd_spec in Hodd as [m Hm]. exists (Z.to_nat (m + 5)). lia.
  - rewrite <- Z.negb_even in Hodd. apply negb_false_iff, Z.even_spec in Hodd as [m Hm].
    exists (Z.to_nat (m + 4)). lia.
Qed.

End ImageDecoding.

(** The tape image determines the records: two record lists, with all
    lengths below 2^32 - 1, that [write_tapfile] turns into the same image
    are the same list. *)
Theorem tap_image_determines_records recs1 recs2 image :
  Forall (λ rec, Z.of_nat (length rec) < 2 ^ 32 - 1) recs1 →
  Forall (λ rec, Z.of_nat (length rec) < 2 ^ 32 - 1) recs2 →
  write_tapfile recs1 = Some image →
  write_tapfile recs2 = Some image →
  recs1 = recs2.
Proof.
  intros Hall1 Hall2. unfold write_tapfile.
  rewrite !write_records_blocks
    by (eapply Forall_impl; [eassumption|]; simpl; intros; lia).
  cbn. intros [= <-] [= Heq]. symmetry in Heq. by apply tap_blocks_inj in Heq.
Qed.

(** The image of a record of 3 octets and an empty record. *)
Lemma tap_image_determines_records_witness :
  Forall (λ rec, Z.of_nat (length rec) < 2 ^ 32 - 1) [[0xaa; 1; 0xaa]; []] ∧
  Forall (λ rec, Z.of_nat (length rec) < 2 ^ 32 - 1) [[0xaa; 1; 0xaa]; []] ∧
  write_tapfile [[0xaa; 1; 0xaa]; []] =
    Some [3; 0; 0; 0; 0xaa; 1; 0xaa; 0; 3; 0; 0; 0; 0; 0; 0; 0; 0; 0; 0; 0;
          0xff; 0xff; 0xff; 0xff] ∧
  write_tapfile [[0xaa; 1; 0xaa]; []] =
    Some [3; 0; 0; 0; 0xaa; 1; 0xaa; 0; 3; 0; 0; 0; 0; 0; 0; 0; 0; 0; 0; 0;
          0xff; 0xff; 0xff; 0xff] ∧
  [[0xaa; 1; 0xaa]; []] = [[0xaa; 1; 0xaa]; []].
Proof.
  assert (Forall (λ rec, Z.of_nat (length rec) < 2 ^ 32 - 1) [[0xaa; 1; 0xaa]; []]) as H1
    by (repeat constructor).
  assert (write_tapfile [[0xaa; 1; 0xaa]; []] =
    Some [3; 0; 0; 0; 0xaa; 1; 0xaa; 0; 3; 0; 0; 0; 0; 0; 0; 0; 0; 0; 0; 0;
          0xff; 0xff; 0xff; 0xff]) as H2 by reflexivity.
  split; [exact H1|]. split; [exact H1|]. split; [exact H2|]. split; [exact H2|].
  exact (tap_image_determines_records _ _ _ H1 H1 H2 H2).
Defined.

(** In the tape image every record block has an even number of bytes, so
    every block, and the end marker, starts at an even offset, and the
    image has an even length. *)
Theorem tap_image_is_aligned pre post image :
  write_tapfile (pre ++ post) = Some image →
  ∃ before,
    write_records [] pre = Some before ∧
    take (length before) image = before ∧
    Nat.Even (length before) ∧ Nat.Even (length image).
Proof.
  assert (∀ recs, Nat.Even (length (concat (tap_block <$> recs)))) as Heven.
  { induction recs as [|rec recs [k IH]]; [by exists 0%nat|].
    cbn [fmap list_fmap concat]. rewrite length_app, IH.
    destruct (tap_block_even rec) as [j ->].
    exists (j + k)%nat. lia. }
  assert (∀ recs tap img, write_records tap recs = Some img →
            Forall (λ rec, Z.of_nat (length rec) < 2 ^ 32) recs) as Hfit.
  { induction recs as [|rec recs IH]; intros tap img; cbn [write_records]; [constructor|].
    unfold Py.pack_L.
    destruct (Z.ltb_spec (Z.of_nat (length rec)) (2 ^ 32));
      [|by rewrite andb_false_r].
    destruct (_ && true); [|done]. bind_steps. intros Hrun.
    constructor; [done|]. by eapply IH. }
  unfold write_tapfile.
  destruct (write_records [] (pre ++ post)) as [tap|] eqn:Hrun; bind_steps; [|done].
  intros [= <-]. pose proof (Hfit _ _ _ Hrun) as Hall.
  apply Forall_app in Hall as [Hpre Hpost].
  rewrite write_records_blocks in Hrun by (by apply Forall_app). injection Hrun as <-.
  rewrite write_records_blocks by done. cbn [app].
  eexists. split; [done|]. rewrite fmap_app, concat_app, <- app_assoc.
  split; [by rewrite take_app_length|]. split; [apply Heven|].
  rewrite !length_app. cbn [length].
  destruct (Heven pre) as [j ->]. destruct (Heven post) as [k ->].
  exists (j + k + 2)%nat. lia.
Qed.

(** The image of a record of 3 octets followed by one of 2. *)
Lemma tap_image_is_aligned_witness :
  write_tapfile ([[1; 2; 3]] ++ [[4; 5]]) =
    Some [3; 0; 0; 0; 1; 2; 3; 0; 3; 0; 0; 0; 2; 0; 0; 0; 4; 5; 2; 0; 0; 0;
          0xff; 0xff; 0xff; 0xff] ∧
  ∃ before,
    write_records [] [[1; 2; 3]] = Some before ∧
    take (length before)
         [3; 0; 0; 0; 1; 2; 3; 0; 3; 0; 0; 0; 2; 0; 0; 0; 4; 5; 2; 0; 0; 0;
          0xff; 0xff; 0xff; 0xff] = before ∧
    Nat.Even (length before) ∧
    Nat.Even (length [3; 0; 0; 0; 1; 2; 3; 0; 3; 0; 0; 0; 2; 0; 0; 0; 4; 5; 2; 0; 0; 0;
                      0xff; 0xff; 0xff; 0xff]).
Proof.
  assert (write_tapfile ([[1; 2; 3]] ++ [[4; 5]]) =
    Some [3; 0; 0; 0; 1; 2; 3; 0; 3; 0; 0; 0; 2; 0; 0; 0; 4; 5; 2; 0; 0; 0;
          0xff; 0xff; 0xff; 0xff]) as H by reflexivity.
  split; [exact H|].
  exact (tap_image_is_aligned [[1; 2; 3]] [[4; 5]] _ H).
Defined.

(** ** The checksum of a record *)

Section Checksum.

Lemma crc16_shift_double x : crc16_shift (2 * x) = x.
Proof.
  unfold crc16_shift. rewrite Z.testbit_even_0, Z.shiftr_div_pow2 by lia.
  change (2 ^ 1) with 2. rewrite Z.mul_comm. apply Z.div_mul. lia.
Qed.

Lemma crc16_shift_iter n : ∀ h, Nat.iter n crc16_shift (2 ^ Z.of_nat n * h) = h.
Proof.
  induction n as [|n IH]; intros h.
  - change (1 * h = h). lia.
  - rewrite Nat.iter_succ_r, Nat2Z.inj_succ, Z.pow_succ_r by lia.
    rewrite <- Z.mul_assoc, crc16_shift_double. apply IH.
Qed.

Lemma lxor_low_byte c : 0 ≤ c → Z.lxor c (c mod 256) = 256 * (c / 256).
Proof.
  intros Hc. apply Z.bits_inj'. intros n Hn. rewrite Z.lxor_spec.
  change 256 with (2 ^ 8). rewrite (Z.mul_comm (2 ^ 8)).
  destruct (Z.lt_ge_cases n 8) as [Hlt|Hge].
  - rewrite Z.mod_pow2_bits_low, Z.mul_pow2_bits_low by lia. apply xorb_nilpotent.
  - rewrite Z.mod_pow2_bits_high, Z.mul_pow2_bits, Z.div_pow2_bits by lia.
    rewrite xorb_false_r. f_equal. lia.
Qed.

Lemma lxor_below a b n :
  0 < n → 0 ≤ a < 2 ^ n → 0 ≤ b < 2 ^ n → 0 ≤ Z.lxor a b < 2 ^ n.
Proof.
  intros Hn Ha Hb.
  assert (0 ≤ Z.lxor a b) as Hnn by (apply Z.lxor_nonneg; lia).
  split; [done|].
  destruct (Z.eq_dec (Z.lxor a b) 0) as [E|Hne]; [rewrite E; lia|].
  apply Z.log2_lt_pow2; [lia|].
  eapply Z.le_lt_trans; [apply Z.log2_lxor; lia|].
  apply Z.max_lub_lt.
  - destruct (Z.eq_dec a 0) as [->|?]; [done|]. apply Z.log2_lt_pow2; lia.
  - destruct (Z.eq_dec b 0) as [->|?]; [done|]. apply Z.log2_lt_pow2; lia.
Qed.

Lemma crc16_shift_range c : 0 ≤ c < 65536 → 0 ≤ crc16_shift c < 65536.
Proof.
  intros Hc. unfold crc16_shift.
  assert (0 ≤ Z.shiftr c 1 < 32768) as Hs.
  { rewrite Z.shiftr_div_pow2 by lia. change (2 ^ 1) with 2.
    split; [apply Z.div_pos; lia | apply Z.div_lt_upper_bound; lia]. }
  destruct (Z.testbit c 0); [|lia].
  apply (lxor_below _ _ 16); lia.
Qed.

Lemma crc16_update_range c b :
  0 ≤ c < 65536 → 0 ≤ b < 256 → 0 ≤ crc16_update c b < 65536.
Proof.
  intros Hc Hb. unfold crc16_update.
  assert (0 ≤ Z.lxor c b < 65536) as H by (apply (lxor_below _ _ 16); lia).
  revert H. generalize (Z.lxor c b). intros x Hx.
  do 8 (rewrite Nat.iter_succ_r; apply crc16_shift_range in Hx;
        revert Hx; generalize (crc16_shift x); clear x; intros x Hx).
  exact Hx.
Qed.

Lemma crcfunc_range data :
  Forall (λ b, 0 ≤ b < 256) data → 0 ≤ crcfunc data < 65536.
Proof.
  unfold crcfunc. intros Hdata.
  assert (∀ c, 0 ≤ c < 65536 → 0 ≤ fold_left crc16_update data c < 65536) as Hgen.
  { induction Hdata as [|b data Hb _ IH]; intros c Hc; [done|].
    cbn [fold_left]. apply IH. by apply crc16_update_range. }
  apply Hgen. lia.
Qed.

Lemma crcfunc_residue data :
  0 ≤ crcfunc data →
  crcfunc (data ++ [crcfunc data mod 256; crcfunc data / 256]) = 0.
Proof.
  intros Hc. unfold crcfunc in *. rewrite fold_left_app. cbn [fold_left].
  set (c := fold_left crc16_update data 0) in *.
  assert (crc16_update c (c mod 256) = c / 256) as ->.
  { unfold crc16_update. rewrite lxor_low_byte by done.
    apply (crc16_shift_iter 8). }
  unfold crc16_update. rewrite Z.lxor_nilpotent. reflexivity.
Qed.

End Checksum.

(** A record that frames a payload of bytes with 0xAA, appends the CRC of
    the payload low byte first and closes with 0xAA is reported without any
    flag: the CRC over payload and CRC bytes is 0. *)
Theorem framed_record_has_no_flag payload :
  Forall (λ b, 0 ≤ b < 256) payload →
  0 ≤ crcfunc payload < 65536 ∧
  crcfunc (payload ++ [crcfunc payload mod 256; crcfunc payload / 256]) = 0 ∧
  Forall (λ b, 0 ≤ b < 256)
         (0xaa :: (payload ++ [crcfunc payload mod 256; crcfunc payload / 256]) ++ [0xaa]) ∧
  report_record
    (0xaa :: (payload ++ [crcfunc payload mod 256; crcfunc payload / 256]) ++ [0xaa]) =
    Some (summary_head
            (0xaa :: (payload ++ [crcfunc payload mod 256; crcfunc payload / 256])
                  ++ [0xaa])).
Proof.
  intros Hbytes. pose proof (crcfunc_range payload Hbytes) as Hrange.
  pose proof (crcfunc_residue payload ltac:(lia)) as Hres.
  split; [done|]. split; [done|]. split.
  - constructor; [lia|]. rewrite <- app_assoc. apply Forall_app. split; [done|].
    repeat constructor; try lia.
    + apply Z.mod_pos_bound. lia.
    + apply Z.mod_pos_bound. lia.
    + apply Z.div_pos; lia.
    + apply Z.div_lt_upper_bound; lia.
  - rewrite (report_record_text _ 0xaa 0xaa); [|done|].
    + rewrite interior_slice, Hres. cbn [Z.eqb negb flags_text].
      by rewrite string_app_empty_r.
    + rewrite app_comm_cons. apply last_snoc.
Qed.

(** The frame around the payload 123456789. *)
Lemma framed_record_has_no_flag_witness :
  Forall (λ b, 0 ≤ b < 256) [49; 50; 51; 52; 53; 54; 55; 56; 57] ∧
  0 ≤ crcfunc [49; 50; 51; 52; 53; 54; 55; 56; 57] < 65536 ∧
  crcfunc ([49; 50; 51; 52; 53; 54; 55; 56; 57]
             ++ [crcfunc [49; 50; 51; 52; 53; 54; 55; 56; 57] mod 256;
                 crcfunc [49; 50; 51; 52; 53; 54; 55; 56; 57] / 256]) = 0 ∧
  Forall (λ b, 0 ≤ b < 256)
         (0xaa :: ([49; 50; 51; 52; 53; 54; 55; 56; 57]
                     ++ [crcfunc [49; 50; 51; 52; 53; 54; 55; 56; 57] mod 256;
                         crcfunc [49; 50; 51; 52; 53; 54; 55; 56; 57] / 256]) ++ [0xaa]) ∧
  report_record
    (0xaa :: ([49; 50; 51; 52; 53; 54; 55; 56; 57]
                ++ [crcfunc [49; 50; 51; 52; 53; 54; 55; 56; 57] mod 256;
                    crcfunc [49; 50; 51; 52; 53; 54; 55; 56; 57] / 256]) ++ [0xaa]) =
    Some (summary_head
            (0xaa :: ([49; 50; 51; 52; 53; 54; 55; 56; 57]
                        ++ [crcfunc [49; 50; 51; 52; 53; 54; 55; 56; 57] mod 256;
                            crcfunc [49; 50; 51; 52; 53; 54; 55; 56; 57] / 256])
                  ++ [0xaa])).
Proof.
  assert (Forall (λ b, 0 ≤ b < 256) [49; 50; 51; 52; 53; 54; 55; 56; 57]) as H
    by (repeat constructor; lia).
  split; [exact H|].
  exact (framed_record_has_no_flag [49; 50; 51; 52; 53; 54; 55; 56; 57] H).
Defined.
